(** * NeuroMorphoVis: skeleton walks, poly-line construction, loaders

    A shallow embedding of the tree walks of
    [nmv/skeleton/ops/skeleton_dendrogram_ops.py],
    [nmv/builders/morphology/disconnected_sections_builder.py],
    [neuromorphovis/analysis/kernels/arbor/area_ops.py],
    [nmv/analysis/plotting/distributions.py] and
    [scripts/vasculature/vasculature_loader.py].

    Python objects live in a store indexed by object identity; a function
    that mutates its arguments takes the store and returns the new one.
    Recursive functions carry a fuel argument bounding the call depth. *)

From Stdlib Require Import ZArith QArith Lia.
From stdpp Require Import base tactics option list strings.

Set Default Proof Using "Type".
Local Open Scope nat_scope.

(** ** Outcomes of a Python call *)

Inductive exn : Type :=
| AttributeError
| ZeroDivisionError
| KeyError
| OSError
| ModuleNotFoundError
| OtherException (tag : nat).

Inductive res (A : Type) : Type :=
| Done (a : A)          (* the call returned *)
| Raise (e : exn)       (* the call raised and nothing caught it *)
| OutOfFuel.            (* the recursion bound of the model was hit *)
Arguments Done {A} a.
Arguments Raise {A} e.
Arguments OutOfFuel {A}.

Definition res_bind {A B} (k : A -> res B) (m : res A) : res B :=
  match m with
  | Done a => k a
  | Raise e => Raise e
  | OutOfFuel => OutOfFuel
  end.

#[global] Instance res_mbind : MBind res := @res_bind.
#[global] Instance res_mret : MRet res := @Done.

(** [for x in l: body] with the loop state threaded through. *)
Fixpoint for_each {A S : Type} (body : S -> A -> res S) (l : list A) (s : S)
  : res S :=
  match l with
  | [] => Done s
  | a :: l' => s' ← body s a; for_each body l' s'
  end.

(** ** The morphology skeleton *)

Module Skeleton.

Definition id := nat.

Section Store.
Context {num : Type}.

(** The attributes of a [Section] object that the walks read or write. *)
Record Sec : Type := mkSec {
  parent : option id;
  children : list id;
  dendrogram_x : option num;
  dendrogram_y : option num
}.

(** The object store: every reference denotes an object. *)
Definition store : Type := id -> Sec.

Definition with_x (v : num) (s : Sec) : Sec :=
  mkSec (parent s) (children s) (Some v) (dendrogram_y s).
Definition with_y (v : num) (s : Sec) : Sec :=
  mkSec (parent s) (children s) (dendrogram_x s) (Some v).

(** [section.dendrogram_x = v] and [section.dendrogram_y = v]. *)
Definition set_x (i : id) (v : num) (σ : store) : store :=
  fun j => if decide (j = i) then with_x v (σ j) else σ j.
Definition set_y (i : id) (v : num) (σ : store) : store :=
  fun j => if decide (j = i) then with_y v (σ j) else σ j.

(** Modelled from the spec: [Section.is_leaf] is not part of the sources;
    a leaf is a section without children. *)
Definition is_leaf (s : Sec) : bool :=
  match children s with [] => true | _ => false end.

(** Two stores describe the same tree: only coordinates may differ. *)
Definition same_skeleton (σ σ' : store) : Prop :=
  forall i, parent (σ' i) = parent (σ i) /\ children (σ' i) = children (σ i).

End Store.
Arguments Sec : clear implicits.
Arguments store : clear implicits.

(** The shape of a finite tree of sections, by object identity. *)
#[warnings="-register-all"]
Inductive shape : Type :=
| Node (i : id) (kids : list shape).

Definition root (t : shape) : id := match t with Node i _ => i end.
Definition kids (t : shape) : list shape := match t with Node _ ks => ks end.

Fixpoint ids (t : shape) : list id :=
  match t with Node i ks => i :: flat_map ids ks end.

Fixpoint height (t : shape) : nat :=
  match t with Node _ ks => S (list_max (map height ks)) end.

(** Leaves in depth-first, left-to-right order. *)
Fixpoint leaves (t : shape) : list id :=
  match t with
  | Node i [] => [i]
  | Node _ ks => flat_map leaves ks
  end.

Section ShapeInd.
Variable P : shape -> Prop.
Hypothesis HNode : forall i ks, Forall P ks -> P (Node i ks).

Fixpoint shape_ind' (t : shape) : P t :=
  match t with
  | Node i ks =>
    HNode i ks
      ((fix go (l : list shape) : Forall P l :=
          match l with
          | [] => @List.Forall_nil shape P
          | k :: l' => @List.Forall_cons shape P k l' (shape_ind' k) (go l')
          end) ks)
  end.
End ShapeInd.

(** [tree_at σ par t]: in [σ], the sections of [t] are linked as [t] says,
    the root having parent [par]. *)
#[warnings="-register-all"]
Inductive tree_at {num} (σ : store num) : option id -> shape -> Prop :=
| tree_at_node par i ks :
    parent (σ i) = par ->
    children (σ i) = map root ks ->
    Forall (tree_at σ (Some i)) ks ->
    tree_at σ par (Node i ks).

(** An arbor: a finite tree whose root section has no parent and whose
    sections are pairwise distinct objects. *)
Definition arbor {num} (σ : store num) (t : shape) : Prop :=
  tree_at σ None t /\ NoDup (ids t).

End Skeleton.

(** ** Dendrogram layout: [skeleton_dendrogram_ops.py] *)

Module Dendrogram.
Import Skeleton.

Section Ops.
Context {num : Type}.

(** Python numbers are kept abstract: [zero] is the integer [0] that
    starts a sum, [add x v] is [x + v], [div_len x n] is [x / n] for a
    positive length [n], [times i delta] is [i * delta]. *)
Variable zero : num.
Variable add : num -> num -> num.
Variable div_len : num -> nat -> num.
Variable times : nat -> num -> num.

(** [Section.compute_path_length] is not part of the sources: the value
    it returns for a section in a given store. *)
Variable compute_path_length : store num -> id -> num.

Fixpoint get_subtree_leaves (fuel : nat) (σ : store num) (section : id)
    (leaves : list id) : res (list id) :=
  match fuel with
  | 0 => OutOfFuel
  | S fuel' =>
    let leaves :=
      if is_leaf (σ section) then leaves ++ [section] else leaves in
    for_each (fun leaves child => get_subtree_leaves fuel' σ child leaves)
             (children (σ section)) leaves
  end.

Definition get_arbor_leaves (fuel : nat) (σ : store num)
    (arbor : option id) : res (list id) :=
  match arbor with
  | None => Done []
  | Some a => get_subtree_leaves fuel σ a []
  end.

(** The loop over [section.parent.children]; [None] is the [return]
    taken when a child has no X-coordinate yet. *)
Fixpoint sum_children_x (σ : store num) (cs : list id) (x : num)
  : option num :=
  match cs with
  | [] => Some x
  | c :: cs' =>
    match dendrogram_x (σ c) with
    | None => None
    | Some v => sum_children_x σ cs' (add x v)
    end
  end.

Fixpoint compute_dendrogram_x_coordinates_for_parents (fuel : nat)
    (σ : store num) (section : option id) : res (store num) :=
  match fuel with
  | 0 => OutOfFuel
  | S fuel' =>
    match section with
    | None => Done σ
    | Some s =>
      match parent (σ s) with
      | Some p =>
        match sum_children_x σ (children (σ p)) zero with
        | None => Done σ
        | Some x =>
          match length (children (σ p)) with
          | 0 => Raise ZeroDivisionError
          | S _ as n =>
            let σ' := set_x p (div_len x n) σ in
            compute_dendrogram_x_coordinates_for_parents fuel' σ'
              (parent (σ' s))
          end
        end
      | None => compute_dendrogram_x_coordinates_for_parents fuel' σ None
      end
    end
  end.

Fixpoint compute_dendrogram_y_coordinates_for_children (fuel : nat)
    (σ : store num) (section : option id) : res (store num) :=
  match fuel with
  | 0 => OutOfFuel
  | S fuel' =>
    match section with
    | None => Raise AttributeError
    | Some s =>
      let σ' := set_y s (compute_path_length σ s) σ in
      for_each
        (fun σ child =>
           compute_dendrogram_y_coordinates_for_children fuel' σ (Some child))
        (children (σ' s)) σ'
    end
  end.

(** [for i, leaf in enumerate(leaves): leaf.dendrogram_x = i * delta],
    from index [i] on. *)
Fixpoint assign_leaves_x (delta : num) (i : nat) (leaves : list id)
    (σ : store num) : store num :=
  match leaves with
  | [] => σ
  | leaf :: rest => assign_leaves_x delta (S i) rest (set_x leaf (times i delta) σ)
  end.

Definition compute_arbor_dendrogram (fuel : nat) (σ : store num)
    (arbor : option id) (delta : num) : res (store num) :=
  leaves ← get_arbor_leaves fuel σ arbor;
  let σ1 := assign_leaves_x delta 0 leaves σ in
  σ2 ← for_each
         (fun σ leaf =>
            compute_dendrogram_x_coordinates_for_parents fuel σ (Some leaf))
         leaves σ1;
  compute_dendrogram_y_coordinates_for_children fuel σ2 arbor.

(** The mean the parent loop computes from the children's values. *)
Definition mean (xs : list num) : num :=
  div_len (foldl add zero xs) (length xs).

(** The X-coordinates of a list of sections, if all are computed. *)
Fixpoint children_x (σ : store num) (cs : list id) : option (list num) :=
  match cs with
  | [] => Some []
  | c :: cs' =>
    match dendrogram_x (σ c), children_x σ cs' with
    | Some v, Some vs => Some (v :: vs)
    | _, _ => None
    end
  end.

End Ops.
End Dendrogram.

(** A concrete arbor over the rationals, used to run the definitions. *)
Module Sample.
Import Skeleton.

Definition qadd (a b : Q) : Q := Qred (a + b).
Definition qdiv (a : Q) (n : nat) : Q := Qred (a / inject_Z (Z.of_nat n)).
Definition qtimes (i : nat) (d : Q) : Q := Qred (inject_Z (Z.of_nat i) * d).

(**  0 -+- 1
        +- 2 -+- 3
        |     +- 4 --- 5
        +- 6                                                           *)
Definition t0 : shape :=
  Node 0 [Node 1 []; Node 2 [Node 3 []; Node 4 [Node 5 []]]; Node 6 []].

Definition blank (p : option id) (cs : list id) : Sec Q := mkSec p cs None None.

Definition σ0 : store Q := fun i =>
  match i with
  | 0 => blank None [1; 2; 6]
  | 1 => blank (Some 0) []
  | 2 => blank (Some 0) [3; 4]
  | 3 => blank (Some 2) []
  | 4 => blank (Some 2) [5]
  | 5 => blank (Some 4) []
  | 6 => blank (Some 0) []
  | _ => blank None []
  end.

Definition path_length0 (σ : store Q) (i : id) : Q := inject_Z (Z.of_nat i).

Definition run0 (fuel : nat) : res (store Q) :=
  Dendrogram.compute_arbor_dendrogram 0%Q qadd qdiv qtimes path_length0
    fuel σ0 (Some 0) 10%Q.

Definition xs_of (r : res (store Q)) (l : list id) : list (option Q) :=
  match r with Done σ => map (fun i => dendrogram_x (σ i)) l | _ => [] end.

End Sample.

(** ** Poly-lines of an arbor: [disconnected_sections_builder.py] *)

Module Builder.
Import Skeleton.

Section ConstructTreePolyLines.
Context {num label samples : Type}.

(** Parts of the package the builder uses that are not in the sources:
    the samples of a section arranged as a poly-line, and two constants.
    Every argument but the list is passed explicitly, so the defaults
    [branching_order=0] and [max_branching_order=INFINITY] are values a
    caller supplies. *)
Variable get_section_poly_line : id -> samples.
Variable GRAY_MATERIAL_INDEX : Z.
Variable BASAL_DENDRITES_PREFIX : label.

(** [nmv.geometry.PolyLine]; the name ['%s_%d' % (prefix, order)] is kept
    as the pair it is formatted from. *)
Record PolyLine : Type := mkPolyLine {
  name : label * Z;
  poly_samples : samples;
  material_index : Z
}.

Fixpoint construct_tree_poly_lines (fuel : nat) (σ : store num)
    (root : option id) (poly_lines_list : list PolyLine)
    (branching_order max_branching_order : Z) (prefix : label)
    (material_start_index : Z) (highlight : bool) : res (list PolyLine) :=
  match fuel with
  | 0 => OutOfFuel
  | S fuel' =>
    match root with
    | None => Done poly_lines_list
    | Some r =>
      let branching_order := (branching_order + 1)%Z in
      if (max_branching_order <? branching_order)%Z then Done poly_lines_list
      else
        let material_index :=
          if highlight
          then (material_start_index + branching_order mod 2)%Z
          else GRAY_MATERIAL_INDEX in
        let poly_line :=
          mkPolyLine (prefix, branching_order) (get_section_poly_line r)
                     material_index in
        let poly_lines_list := poly_lines_list ++ [poly_line] in
        for_each
          (fun poly_lines_list child =>
             construct_tree_poly_lines fuel' σ (Some child) poly_lines_list
               branching_order max_branching_order BASAL_DENDRITES_PREFIX
               material_start_index highlight)
          (children (σ r)) poly_lines_list
    end
  end.

(** The [def] statement evaluates [poly_lines_list=[]] once: the function
    object owns one list, used by every call that omits the argument. *)
Record function_object : Type := mkFunctionObject {
  default_poly_lines_list : list PolyLine
}.

Definition def_construct_tree_poly_lines : function_object :=
  mkFunctionObject [].

(** A call that omits [poly_lines_list]; the other arguments are given. *)
Definition call_with_default_list (fuel : nat) (σ : store num)
    (f : function_object) (root : option id)
    (branching_order max_branching_order : Z) (prefix : label)
    (material_start_index : Z) (highlight : bool) : res function_object :=
  l ← construct_tree_poly_lines fuel σ root (default_poly_lines_list f)
        branching_order max_branching_order prefix material_start_index
        highlight;
  Done (mkFunctionObject l).

(** A call that passes a new empty list. *)
Definition call_with_fresh_list (fuel : nat) (σ : store num)
    (root : option id) (branching_order max_branching_order : Z)
    (prefix : label) (material_start_index : Z) (highlight : bool)
  : res (list PolyLine) :=
  construct_tree_poly_lines fuel σ root [] branching_order
    max_branching_order prefix material_start_index highlight.

(** Sections of a tree with their branching order, the root at [b],
    in the order the walk meets them. *)
Fixpoint sections_with_order (b : Z) (t : shape) : list (id * Z) :=
  match t with
  | Node i ks => (i, b) :: flat_map (sections_with_order (b + 1)%Z) ks
  end.

Definition within (max_branching_order : Z) (sb : id * Z) : bool :=
  (snd sb <=? max_branching_order)%Z.

(** The material the walk gives a section of branching order [b]. *)
Definition material_of (material_start_index : Z) (highlight : bool)
    (b : Z) : Z :=
  if highlight then (material_start_index + b mod 2)%Z
  else GRAY_MATERIAL_INDEX.

(** A poly-line [pl] is the one built for section [s] at order [b]. *)
Definition poly_line_for (material_start_index : Z) (highlight : bool)
    (pl : PolyLine) (sb : id * Z) : Prop :=
  snd (name pl) = snd sb /\
  poly_samples pl = get_section_poly_line (fst sb) /\
  material_index pl = material_of material_start_index highlight (snd sb).

End ConstructTreePolyLines.
Arguments PolyLine : clear implicits.
Arguments function_object : clear implicits.

End Builder.

(** ** Arbor surface area: [area_ops.py] *)

Module AreaOps.

Section SurfaceArea.
Context {arbor_t operation num : Type}.

(** Floats are kept abstract: [zero] is [0.0], [add] is [+]. *)
Variable zero : num.
Variable add : num -> num -> num.

(** [nmv.skeleton.ops.apply_operation_to_arbor] and
    [nmv.analysis.compute_sections_surface_areas_from_segments] are not
    in the sources: the traversal is given the arbor, the operation and
    the list object, and leaves that list with the collected areas. *)
Variable apply_operation_to_arbor :
  arbor_t -> operation -> list num -> res (list num).
Variable compute_sections_surface_areas_from_segments : operation.

(** [for surface_area in l: total += surface_area]. *)
Fixpoint accumulate (total : num) (l : list num) : num :=
  match l with
  | [] => total
  | surface_area :: l' => accumulate (add total surface_area) l'
  end.

Definition compute_arbor_total_surface_area (arbor : arbor_t) : res num :=
  sections_surface_areas ←
    apply_operation_to_arbor arbor
      compute_sections_surface_areas_from_segments [];
  let arbor_total_surface_area := zero in
  Done (accumulate arbor_total_surface_area sections_surface_areas).

(** The sum of a list of areas, taken in list order from [0.0]. *)
Definition sum_of (l : list num) : num := foldl add zero l.

End SurfaceArea.
End AreaOps.

(** ** Plotting dependencies: [distributions.py] *)

Module Plotting.

Inductive package : Type := numpy | matplotlib | seaborn | pandas.

(** The import statements of the two functions. *)
Inductive import_stmt : Type :=
| import_numpy                        (* import numpy *)
| import_matplotlib                   (* import matplotlib *)
| import_seaborn                      (* import seaborn *)
| import_pandas                       (* import pandas *)
| import_matplotlib_pyplot            (* import matplotlib.pyplot as pyplot,
                                         from matplotlib import pyplot *)
| from_matplotlib_import_font_manager (* from matplotlib import font_manager *).

Definition package_of (s : import_stmt) : package :=
  match s with
  | import_numpy => numpy
  | import_matplotlib => matplotlib
  | import_seaborn => seaborn
  | import_pandas => pandas
  | import_matplotlib_pyplot => matplotlib
  | from_matplotlib_import_font_manager => matplotlib
  end.

(** What a run does to the interpreter, in order. An import is [guarded]
    when it stands in a [try] block; its outcome is recorded. *)
Inductive event : Type :=
| EImport (guarded : bool) (s : import_stmt) (outcome : option exn)
| EPipWheel (p : package).

#[global] Instance exn_eq_dec : EqDecision exn.
Proof. solve_decision. Defined.
#[global] Instance package_eq_dec : EqDecision package.
Proof. solve_decision. Defined.
#[global] Instance import_stmt_eq_dec : EqDecision import_stmt.
Proof. solve_decision. Defined.
#[global] Instance event_eq_dec : EqDecision event.
Proof. solve_decision. Defined.

Section Imports.
(** The interpreter and its site-packages: executing an import statement
    and calling [nmv.utilities.pip_wheel] (not in the sources) change the
    environment and either complete or raise. *)
Context {env : Type}.
Variable exec_import : import_stmt -> env -> env * option exn.
Variable pip_wheel : package -> env -> env * option exn.

Record world : Type := mkWorld { w_env : env; w_trace : list event }.

(** A statement: the new world, and the exception it raised if any. *)
Definition stmt : Type := world -> world * option exn.

Definition seq (a b : stmt) : stmt :=
  fun w => match a w with
           | (w', None) => b w'
           | (w', Some e) => (w', Some e)
           end.

Definition do_import (guarded : bool) (s : import_stmt) : stmt :=
  fun w =>
    let '(e', r) := exec_import s (w_env w) in
    (mkWorld e' (w_trace w ++ [EImport guarded s r]), r).

Definition do_pip_wheel (p : package) : stmt :=
  fun w =>
    let '(e', r) := pip_wheel p (w_env w) in
    (mkWorld e' (w_trace w ++ [EPipWheel p]), r).

(** [try: import p / except ModuleNotFoundError: pip_wheel(package_name=p)] *)
Definition try_import (s : import_stmt) : stmt :=
  fun w =>
    match do_import true s w with
    | (w', Some e) =>
      if bool_decide (e = ModuleNotFoundError)
      then do_pip_wheel (package_of s) w'
      else (w', Some e)
    | (w', None) => (w', None)
    end.

(** The statements of [plot_per_arbor_result] up to its last import. *)
Definition plot_per_arbor_result_imports : stmt :=
  seq (try_import import_numpy)
 (seq (try_import import_matplotlib)
 (seq (try_import import_seaborn)
 (seq (do_import false import_numpy)
 (seq (do_import false import_seaborn)
 (seq (do_import false import_matplotlib_pyplot)
      (do_import false from_matplotlib_import_font_manager)))))).

(** The statements of [plot_per_arbor_range] up to its last import. *)
Definition plot_per_arbor_range_imports : stmt :=
  seq (try_import import_numpy)
 (seq (try_import import_matplotlib)
 (seq (try_import import_seaborn)
 (seq (try_import import_pandas)
 (seq (do_import false import_numpy)
 (seq (do_import false import_seaborn)
 (seq (do_import false import_matplotlib_pyplot)
      (do_import false from_matplotlib_import_font_manager))))))).

(** Imports of package [p] executed after the try blocks. *)
Definition is_retry_of (p : package) (ev : event) : bool :=
  match ev with
  | EImport false s _ => bool_decide (package_of s = p)
  | _ => false
  end.

Definition is_install_of (p : package) (ev : event) : bool :=
  match ev with
  | EPipWheel q => bool_decide (q = p)
  | _ => false
  end.

(** Guarded imports of [p] that raised [e]. *)
Definition is_guarded_failure (p : package) (e : exn) (ev : event) : bool :=
  match ev with
  | EImport true s (Some e') =>
      bool_decide (package_of s = p) && bool_decide (e' = e)
  | _ => false
  end.

Definition count (f : event -> bool) (tr : list event) : nat :=
  length (List.filter f tr).

Definition is_unguarded (ev : event) : bool :=
  match ev with
  | EImport false _ _ => true
  | _ => false
  end.

(** The events of a run from an empty trace, and how it ended. *)
Definition run (f : stmt) (e0 : env) : list event * option exn :=
  let '(w, r) := f (mkWorld e0 []) in (w_trace w, r).

(** The statements of the guarded imports of a trace, in order. *)
Definition guarded_stmts (tr : list event) : list import_stmt :=
  omap (fun ev => match ev with
                  | EImport true s _ => Some s
                  | _ => None
                  end) tr.

(** Every guarded import that raised [ModuleNotFoundError] is followed at
    once by the installation of its package, and nothing else installs. *)
Fixpoint installs_follow (tr : list event) : bool :=
  match tr with
  | [] => true
  | EImport true s (Some e) :: rest =>
    if bool_decide (e = ModuleNotFoundError)
    then match rest with
         | EPipWheel p :: rest' =>
           bool_decide (p = package_of s) && installs_follow rest'
         | _ => false
         end
    else installs_follow rest
  | EPipWheel _ :: _ => false
  | _ :: rest => installs_follow rest
  end.

(** What holds of every run of a function whose try blocks hold the
    imports [guards] and whose later imports are [after]:
    - the guarded imports run in order, each at most once;
    - a guarded import that raises [ModuleNotFoundError] is followed at
      once by one installation of its package; a package is installed as
      often as its guarded import raised that exception, at most once, and
      only if it is guarded;
    - another exception of a guarded import ends the run with that
      exception, the package not being installed;
    - the later imports come last, in order, each at most once, a failing
      one ending the run with its exception;
    - a run that completes has executed all of them. *)
Definition discipline (guards after : list import_stmt)
    (out : list event * option exn) : Prop :=
  let '(tr, r) := out in
  (exists k, guarded_stmts tr = take k guards) /\
  installs_follow tr = true /\
  (forall p, count (is_install_of p) tr
             = count (is_guarded_failure p ModuleNotFoundError) tr) /\
  (forall p, count (is_install_of p) tr <= 1) /\
  (forall p, p ∉ map package_of guards -> count (is_install_of p) tr = 0) /\
  (forall s e, e <> ModuleNotFoundError ->
               EImport true s (Some e) ∈ tr ->
               r = Some e /\ count (is_install_of (package_of s)) tr = 0) /\
  List.filter is_unguarded tr = drop (length tr - count is_unguarded tr) tr /\
  (exists k last,
      List.filter is_unguarded tr
      = map (fun s => EImport false s None) (take k after) ++ last /\
      (last = [] \/
       exists s e, after !! k = Some s /\
                   last = [EImport false s (Some e)] /\ r = Some e)) /\
  (r = None ->
   List.filter is_unguarded tr = map (fun s => EImport false s None) after).

End Imports.
Arguments world : clear implicits.
Arguments discipline : simpl never.

End Plotting.

(** ** Vasculature loader: [vasculature_loader.py] *)

Module Vasculature.

Section Loader.
Context {array : Type}.

(** An HDF5 file as [h5py] presents it: groups of named members and
    datasets holding an array. *)
#[warnings="-register-all"]
Inductive h5object : Type :=
| H5Dataset (v : array)
| H5Group (members : list (string * h5object)).

Inductive mode : Type := ReadOnly | ReadWrite | Truncate | Append.

Definition path := string.

(** The files that can be opened, by path. *)
Definition file_system : Type := path -> option h5object.

Fixpoint lookup_member (k : string) (ms : list (string * h5object))
  : option h5object :=
  match ms with
  | [] => None
  | (k', o) :: ms' => if decide (k' = k) then Some o else lookup_member k ms'
  end.

(** [h5py.File(path, mode)] *)
Definition h5py_File (fs : file_system) (p : path) (m : mode)
  : res h5object :=
  match fs p with
  | Some o => Done o
  | None => Raise OSError
  end.

(** [obj[key]] *)
Definition getitem (o : h5object) (k : string) : res h5object :=
  match o with
  | H5Group ms =>
    match lookup_member k ms with
    | Some o' => Done o'
    | None => Raise KeyError
    end
  | H5Dataset _ => Raise (OtherException 0)
  end.

(** [obj.value] *)
Definition value (o : h5object) : res array :=
  match o with
  | H5Dataset v => Done v
  | H5Group _ => Raise AttributeError
  end.

(** An attribute of the loader: the empty [list()] the constructor
    starts with, or an array read from the file. *)
Inductive pyvalue : Type :=
| EmptyList
| Array (v : array).

Record VasculatureLoader : Type := mkLoader {
  dataset : path;
  points_list : pyvalue;
  segments_list : pyvalue;
  sections_list : pyvalue;
  connections_list : pyvalue;
  opened : list (path * mode)   (* the calls of [h5py.File] made by it *)
}.

Definition load_dataset_from_file (fs : file_system)
    (self : VasculatureLoader) : res VasculatureLoader :=
  let self := mkLoader (dataset self) (points_list self)
                (segments_list self) (sections_list self)
                (connections_list self)
                (opened self ++ [(dataset self, ReadOnly)]) in
  data ← h5py_File fs (dataset self) ReadOnly;
  points ← (o ← getitem data "points"; value o);
  let self := mkLoader (dataset self) (Array points) (segments_list self)
                (sections_list self) (connections_list self) (opened self) in
  edges ← (o ← getitem data "edges"; value o);
  let self := mkLoader (dataset self) (points_list self) (Array edges)
                (sections_list self) (connections_list self) (opened self) in
  structure ← (c ← getitem data "chains"; o ← getitem c "structure"; value o);
  let self := mkLoader (dataset self) (points_list self)
                (segments_list self) (Array structure)
                (connections_list self) (opened self) in
  connectivity ←
    (c ← getitem data "chains"; o ← getitem c "connectivity"; value o);
  Done (mkLoader (dataset self) (points_list self) (segments_list self)
          (sections_list self) (Array connectivity) (opened self)).

(** [VasculatureLoader(dataset)] *)
Definition init (fs : file_system) (dataset : path) : res VasculatureLoader :=
  let self := mkLoader dataset EmptyList EmptyList EmptyList EmptyList [] in
  load_dataset_from_file fs self.

(** The array stored at a path of member names, if there is one. *)
Fixpoint dataset_at (o : h5object) (keys : list string) : option array :=
  match keys, o with
  | [], H5Dataset v => Some v
  | k :: keys', H5Group ms =>
    match lookup_member k ms with
    | Some o' => dataset_at o' keys'
    | None => None
    end
  | _, _ => None
  end.

End Loader.
Arguments h5object : clear implicits.
Arguments file_system : clear implicits.
Arguments pyvalue : clear implicits.
Arguments VasculatureLoader : clear implicits.

End Vasculature.

(** ** The dendrogram of a whole morphology: [skeleton_dendrogram_ops.py] *)

Module MorphologyDendrogram.
Import Skeleton Dendrogram.

(** The attributes of a morphology that [compute_morphology_dendrogram]
    reads; each may be [None]. *)
Record Morphology : Type := mkMorphology {
  apical_dendrite : option id;
  dendrites : option (list id);
  axon : option id
}.

Section Ops.
Context {num : Type}.
Variable zero : num.
Variable add : num -> num -> num.
Variable div_len : num -> nat -> num.
Variable times : nat -> num -> num.
Variable compute_path_length : store num -> id -> num.

Definition compute_morphology_dendrogram (fuel : nat) (σ : store num)
    (morphology : Morphology) (delta : num) : res (store num) :=
  σ ← match apical_dendrite morphology with
      | Some a =>
        compute_arbor_dendrogram zero add div_len times compute_path_length
          fuel σ (Some a) delta
      | None => Done σ
      end;
  σ ← match dendrites morphology with
      | Some ds =>
        for_each
          (fun σ basal_dendrite =>
             compute_arbor_dendrogram zero add div_len times
               compute_path_length fuel σ (Some basal_dendrite) delta)
          ds σ
      | None => Done σ
      end;
  match axon morphology with
  | Some a =>
    compute_arbor_dendrogram zero add div_len times compute_path_length
      fuel σ (Some a) delta
  | None => Done σ
  end.

(** The arbors of a morphology in the order they are laid out. *)
Definition arbors_of (m : Morphology) : list id :=
  option_list (apical_dendrite m) ++ default [] (dendrites m)
  ++ option_list (axon m).

(** The X-coordinate of the root of [t] when [k] leaves come before the
    leaves of [t]: a leaf stands at [k * delta], a section with children
    at the mean of its children. *)
Fixpoint layout_x (delta : num) (k : nat) (t : shape) : num :=
  match t with
  | Node _ ks =>
    let xs :=
      (fix go (k : nat) (ks : list shape) : list num :=
         match ks with
         | [] => []
         | c :: cs => layout_x delta k c :: go (k + length (leaves c)) cs
         end) k ks in
    match ks with
    | [] => times k delta
    | _ :: _ => mean zero add div_len xs
    end
  end.

Fixpoint layout_kids (delta : num) (k : nat) (ks : list shape) : list num :=
  match ks with
  | [] => []
  | c :: cs => layout_x delta k c :: layout_kids delta (k + length (leaves c)) cs
  end.

(** Every section of [t] with its X-coordinate in the layout. *)
Fixpoint layout (delta : num) (k : nat) (t : shape) : list (id * num) :=
  match t with
  | Node i ks =>
    (i, layout_x delta k t)
    :: (fix go (k : nat) (ks : list shape) : list (id * num) :=
          match ks with
          | [] => []
          | c :: cs => layout delta k c ++ go (k + length (leaves c)) cs
          end) k ks
  end.

Fixpoint layout_forest (delta : num) (k : nat) (ks : list shape)
  : list (id * num) :=
  match ks with
  | [] => []
  | c :: cs => layout delta k c ++ layout_forest delta (k + length (leaves c)) cs
  end.

End Ops.
End MorphologyDendrogram.

(** ** Articulation spheres: [disconnected_sections_builder.py] *)

Module Articulations.
Import Skeleton.

(** The exception of [data[-1]] and [data[0]] on an empty list. *)
Definition IndexError : exn := OtherException 1.

(** [nmv.enums.Skeleton.Radii], not in the sources: the two values the
    builder tests for, and the others. *)
Inductive Radii : Type :=
| SCALED
| UNIFIED
| OtherRadii (tag : nat).

Section Spheres.
Context {num point pl_point bmesh : Type}.

(** The attributes of [self.options.morphology] read here. *)
Record MorphologyOptions : Type := mkMorphologyOptions {
  arbors_radii : Radii;
  sections_radii_scale : num;
  samples_unified_radii_value : num
}.

(** Not in the sources: the samples of a section as pairs of
    [sample.point] and [sample.radius]; the poly-line of a section, a list
    of point and radius; [Vector((p[0], p[1], p[2]))];
    [nmv.bmeshi.create_ico_sphere(radius, location=..., subdivisions=3)].
    Floats are abstract: [grow r] is [r * 1.025], [mul] is [*], [gt a b]
    is [a > b]. *)
Variable section_samples : id -> list (point * num).
Variable get_section_poly_line : id -> list (pl_point * num).
Variable vector_of : pl_point -> point.
Variable create_ico_sphere : num -> point -> bmesh.
Variable grow : num -> num.
Variable mul : num -> num -> num.
Variable gt : num -> num -> bool.

(** The radius of the joint after the [if] on [arbors_radii]. *)
Definition sphere_radius_for (options : MorphologyOptions) (radius : num)
  : num :=
  match arbors_radii options with
  | SCALED => mul radius (sections_radii_scale options)
  | UNIFIED => samples_unified_radii_value options
  | OtherRadii _ => radius
  end.

(** The body of the loop over [section.children]. *)
Definition widen (radius : num) (child : id) : res num :=
  match head (get_section_poly_line child) with
  | None => Raise IndexError
  | Some (_, child_radius) =>
    Done (if gt child_radius radius then child_radius else radius)
  end.

Definition draw_section_terminal_as_sphere (σ : store num)
    (options : MorphologyOptions) (articulations_spheres : list bmesh)
    (section : id) : res (list bmesh) :=
  let section_data := get_section_poly_line section in
  match last section_data with
  | None => Raise IndexError
  | Some (point, radius) =>
    let point := vector_of point in
    radius ← for_each widen (children (σ section)) radius;
    let sphere_radius := sphere_radius_for options radius in
    let section_terminal_sphere :=
      create_ico_sphere (grow sphere_radius) point in
    Done (articulations_spheres ++ [section_terminal_sphere])
  end.

Fixpoint draw_section_terminals_as_spheres (fuel : nat) (σ : store num)
    (options : MorphologyOptions) (articulations_spheres : list bmesh)
    (root : option id) (branching_order max_branching_order : Z)
  : res (list bmesh) :=
  match fuel with
  | 0 => OutOfFuel
  | S fuel' =>
    match root with
    | None => Done articulations_spheres
    | Some r =>
      match head (section_samples r) with
      | None => Raise IndexError
      | Some (point, radius) =>
        let articulations_spheres :=
          articulations_spheres ++ [create_ico_sphere (grow radius) point] in
        let branching_order := (branching_order + 1)%Z in
        if (max_branching_order <? branching_order)%Z
        then Done articulations_spheres
        else
          articulations_spheres ←
            draw_section_terminal_as_sphere σ options articulations_spheres r;
          for_each
            (fun articulations_spheres child =>
               draw_section_terminals_as_spheres fuel' σ options
                 articulations_spheres (Some child) branching_order
                 max_branching_order)
            (children (σ r)) articulations_spheres
      end
    end
  end.

End Spheres.
Arguments MorphologyOptions : clear implicits.

End Articulations.

(** ** Arbors drawn as objects: [disconnected_sections_builder.py] *)

Module ArborObjects.
Import Skeleton Builder.

Section Draw.
Context {num label samples obj edges_t bevel material : Type}.

(** Not in the sources: the poly-line samples of a section, the constants
    of [nmv.consts.Skeleton] and [nmv.enums.Color], the label of an arbor,
    and [nmv.geometry.draw_poly_lines_in_single_object]. *)
Variable get_section_poly_line : id -> samples.
Variable GRAY_MATERIAL_INDEX : Z.
Variable APICAL_DENDRITES_PREFIX : label.
Variable AXON_PREFIX : label.
Variable BASAL_DENDRITES_PREFIX : label.
Variable APICAL_DENDRITE_MATERIAL_START_INDEX : Z.
Variable AXON_MATERIAL_START_INDEX : Z.
Variable BASAL_DENDRITES_MATERIAL_START_INDEX : Z.
Variable arbor_label : id -> label.
Variable draw_poly_lines_in_single_object :
  list (PolyLine label samples) -> label -> edges_t -> bevel ->
  list material -> obj.

(** The attributes of [self.morphology] and [self.options.morphology] the
    two methods read; [has_axons] and the like are the answers of the
    methods of that name. *)
Record Morphology : Type := mkMorphology {
  morphology_label : label;
  has_apical_dendrites : bool;
  apical_dendrites : list id;
  has_axons : bool;
  axons : list id;
  has_basal_dendrites : bool;
  basal_dendrites : list id
}.

Record MorphologyOptions : Type := mkMorphologyOptions {
  ignore_apical_dendrites : bool;
  ignore_axons : bool;
  ignore_basal_dendrites : bool;
  apical_dendrite_branch_order : Z;
  axon_branch_order : Z;
  basal_dendrites_branch_order : Z;
  edges : edges_t
}.

Record Builder : Type := mkBuilder {
  morphology : Morphology;
  options : MorphologyOptions;
  morphology_objects : list obj;
  skeleton_materials : list material
}.

Definition with_objects (self : Builder) (objects : list obj) : Builder :=
  mkBuilder (morphology self) (options self) objects (skeleton_materials self).

Local Abbreviation construct :=
  (construct_tree_poly_lines get_section_poly_line GRAY_MATERIAL_INDEX
     BASAL_DENDRITES_PREFIX).

(** [if not ignore: if has: for arbor in arbors: body] *)
Definition for_arbors {S : Type} (ignore has : bool) (arbors : list id)
    (body : S -> id -> res S) (s : S) : res S :=
  if negb ignore then
    if has then for_each body arbors s else Done s
  else Done s.

Definition draw_arbors_as_single_object (fuel : nat) (σ : store num)
    (self : Builder) (bevel_object : bevel) : res Builder :=
  let m := morphology self in
  let o := options self in
  let skeleton_poly_lines := [] in
  skeleton_poly_lines ←
    for_arbors (ignore_apical_dendrites o) (has_apical_dendrites m)
      (apical_dendrites m)
      (fun poly_lines arbor =>
         construct fuel σ (Some arbor) poly_lines 0%Z
           (apical_dendrite_branch_order o) APICAL_DENDRITES_PREFIX
           APICAL_DENDRITE_MATERIAL_START_INDEX true)
      skeleton_poly_lines;
  skeleton_poly_lines ←
    for_arbors (ignore_axons o) (has_axons m) (axons m)
      (fun poly_lines arbor =>
         construct fuel σ (Some arbor) poly_lines 0%Z
           (axon_branch_order o) AXON_PREFIX AXON_MATERIAL_START_INDEX true)
      skeleton_poly_lines;
  skeleton_poly_lines ←
    for_arbors (ignore_basal_dendrites o) (has_basal_dendrites m)
      (basal_dendrites m)
      (fun poly_lines arbor =>
         construct fuel σ (Some arbor) poly_lines 0%Z
           (basal_dendrites_branch_order o) BASAL_DENDRITES_PREFIX
           BASAL_DENDRITES_MATERIAL_START_INDEX true)
      skeleton_poly_lines;
  let morphology_object :=
    draw_poly_lines_in_single_object skeleton_poly_lines (morphology_label m)
      (edges o) bevel_object (skeleton_materials self) in
  Done (with_objects self (morphology_objects self ++ [morphology_object])).

(** The body of each loop of [draw_each_arbor_as_single_object]. *)
Definition draw_one_arbor (fuel : nat) (σ : store num) (self : Builder)
    (bevel_object : bevel) (max_branching_order : Z) (prefix : label)
    (material_start_index : Z) (objects : list obj) (arbor : id)
  : res (list obj) :=
  let skeleton_poly_lines := [] in
  skeleton_poly_lines ←
    construct fuel σ (Some arbor) skeleton_poly_lines 0%Z max_branching_order
      prefix material_start_index true;
  let morphology_object :=
    draw_poly_lines_in_single_object skeleton_poly_lines (arbor_label arbor)
      (edges (options self)) bevel_object (skeleton_materials self) in
  Done (objects ++ [morphology_object]).

Definition draw_each_arbor_as_single_object (fuel : nat) (σ : store num)
    (self : Builder) (bevel_object : bevel) : res Builder :=
  let m := morphology self in
  let o := options self in
  objects ←
    for_arbors (ignore_apical_dendrites o) (has_apical_dendrites m)
      (apical_dendrites m)
      (draw_one_arbor fuel σ self bevel_object
         (apical_dendrite_branch_order o) APICAL_DENDRITES_PREFIX
         APICAL_DENDRITE_MATERIAL_START_INDEX)
      (morphology_objects self);
  objects ←
    for_arbors (ignore_axons o) (has_axons m) (axons m)
      (draw_one_arbor fuel σ self bevel_object (axon_branch_order o)
         AXON_PREFIX AXON_MATERIAL_START_INDEX)
      objects;
  objects ←
    for_arbors (ignore_basal_dendrites o) (has_basal_dendrites m)
      (basal_dendrites m)
      (draw_one_arbor fuel σ self bevel_object
         (basal_dendrites_branch_order o) BASAL_DENDRITES_PREFIX
         BASAL_DENDRITES_MATERIAL_START_INDEX)
      objects;
  Done (with_objects self objects).

(** The arbors that are drawn, in order, each with the bound, the prefix
    and the material start index of its kind. *)
Definition kind : Type := (Z * label * Z)%type.

Definition group (ignore has : bool) (arbors : list id) (k : kind)
  : list (id * kind) :=
  if negb ignore then if has then map (fun a => (a, k)) arbors else [] else [].

Definition drawn_arbors (self : Builder) : list (id * kind) :=
  let m := morphology self in
  let o := options self in
  group (ignore_apical_dendrites o) (has_apical_dendrites m)
    (apical_dendrites m)
    (apical_dendrite_branch_order o, APICAL_DENDRITES_PREFIX,
     APICAL_DENDRITE_MATERIAL_START_INDEX)
  ++ group (ignore_axons o) (has_axons m) (axons m)
       (axon_branch_order o, AXON_PREFIX, AXON_MATERIAL_START_INDEX)
  ++ group (ignore_basal_dendrites o) (has_basal_dendrites m)
       (basal_dendrites m)
       (basal_dendrites_branch_order o, BASAL_DENDRITES_PREFIX,
        BASAL_DENDRITES_MATERIAL_START_INDEX).

(** The poly-lines of one drawn arbor, built in a new list. *)
Definition poly_lines_of (fuel : nat) (σ : store num) (ak : id * kind)
  : res (list (PolyLine label samples)) :=
  let '(a, (max, prefix, start)) := ak in
  construct fuel σ (Some a) [] 0%Z max prefix start true.

End Draw.
Arguments Morphology : clear implicits.
Arguments MorphologyOptions : clear implicits.
Arguments Builder : clear implicits.

End ArborObjects.

(** ** The bars of the per-arbor plots

    [plot_per_arbor_result] and [plot_per_arbor_range] first collect, from
    the analysis results and the colours of the morphology, the lists that
    they hand to the plotting library. The two definitions below are that
    part of each function; the calls into matplotlib and seaborn that
    follow are not modelled. *)

From stdpp Require Import pretty.

Module PerArborBars.

Definition IndexError : exn := Articulations.IndexError.
Definition TypeError : exn := OtherException 2.

(** [enumerate(l, start)] *)
Fixpoint enumerate_from {A : Type} (start : nat) (l : list A)
  : list (nat * A) :=
  match l with
  | [] => []
  | a :: l' => (start, a) :: enumerate_from (S start) l'
  end.

Definition enumerate {A : Type} (l : list A) : list (nat * A) :=
  enumerate_from 0 l.

(** [l[i]] on a list, for an index that is not negative. *)
Definition item {A : Type} (l : list A) (i : nat) : res A :=
  match l !! i with
  | Some a => Done a
  | None => Raise IndexError
  end.

(** [l[i]] when [l] may be [None]. *)
Definition item_of {A : Type} (l : option (list A)) (i : nat) : res A :=
  match l with
  | Some l => item l i
  | None => Raise TypeError
  end.

(** ['Basal Dendrite %d' % i] *)
Definition basal_label (i : nat) : string := "Basal Dendrite " +:+ pretty i.

Section Bars.
Context {num color : Type}.

Record AnalysisResult : Type := mkAnalysisResult {
  apical_dendrite_result : option num;
  basal_dendrites_result : option (list num);
  axon_result : option num
}.

Record Morphology : Type := mkMorphology {
  apical_dendrite_color : color;
  basal_dendrites_colors : list color;
  axon_color : color
}.

(** The three lists of [plot_per_arbor_result]. *)
Record ResultBars : Type := mkResultBars {
  x_data : list string;
  y_data : list num;
  palette : list color
}.

Definition plot_per_arbor_result_bars (analysis_results : AnalysisResult)
    (morphology : Morphology) : res ResultBars :=
  let bars := mkResultBars [] [] [] in
  let bars :=
    match apical_dendrite_result analysis_results with
    | Some result =>
      mkResultBars (x_data bars ++ ["Apical Dendrite"])
                   (y_data bars ++ [result])
                   (palette bars ++ [apical_dendrite_color morphology])
    | None => bars
    end in
  bars ←
    match basal_dendrites_result analysis_results with
    | Some results =>
      for_each
        (fun bars (ir : nat * num) =>
           let '(i, result) := ir in
           c ← item (basal_dendrites_colors morphology) i;
           Done (mkResultBars (x_data bars ++ [basal_label i])
                              (y_data bars ++ [result])
                              (palette bars ++ [c])))
        (enumerate results) bars
    | None => Done bars
    end;
  let bars :=
    match axon_result analysis_results with
    | Some result =>
      mkResultBars (x_data bars ++ ["Axon"])
                   (y_data bars ++ [result])
                   (palette bars ++ [axon_color morphology])
    | None => bars
    end in
  Done bars.

(** The five lists of [plot_per_arbor_range]. The average and the maximum
    of the apical dendrite and of the axon are appended as they are, also
    when they are [None]. *)
Record RangeBars : Type := mkRangeBars {
  labels : list string;
  min_list : list num;
  avg_list : list (option num);
  max_list : list (option num);
  range_palette : list color
}.

Definition plot_per_arbor_range_bars
    (minimum_results average_results maximum_results : AnalysisResult)
    (morphology : Morphology) : res RangeBars :=
  let bars := mkRangeBars [] [] [] [] [] in
  let bars :=
    match apical_dendrite_result minimum_results with
    | Some result =>
      mkRangeBars (labels bars ++ ["Apical Dendrite"])
                  (min_list bars ++ [result])
                  (avg_list bars ++ [apical_dendrite_result average_results])
                  (max_list bars ++ [apical_dendrite_result maximum_results])
                  (range_palette bars ++ [apical_dendrite_color morphology])
    | None => bars
    end in
  bars ←
    match basal_dendrites_result minimum_results with
    | Some results =>
      for_each
        (fun bars i =>
           lo ← item results i;
           avg ← item_of (basal_dendrites_result average_results) i;
           hi ← item_of (basal_dendrites_result maximum_results) i;
           c ← item (basal_dendrites_colors morphology) i;
           Done (mkRangeBars (labels bars ++ [basal_label i])
                             (min_list bars ++ [lo])
                             (avg_list bars ++ [Some avg])
                             (max_list bars ++ [Some hi])
                             (range_palette bars ++ [c])))
        (seq 0 (length results)) bars
    | None => Done bars
    end;
  let bars :=
    match axon_result minimum_results with
    | Some result =>
      mkRangeBars (labels bars ++ ["Axon"])
                  (min_list bars ++ [result])
                  (avg_list bars ++ [axon_result average_results])
                  (max_list bars ++ [axon_result maximum_results])
                  (range_palette bars ++ [axon_color morphology])
    | None => bars
    end in
  Done bars.

End Bars.
Arguments AnalysisResult : clear implicits.
Arguments Morphology : clear implicits.
Arguments ResultBars : clear implicits.
Arguments RangeBars : clear implicits.

End PerArborBars.

(** * Properties *)

Lemma for_each_app {A S} (body : S -> A -> res S) l1 l2 s :
  for_each body (l1 ++ l2) s = s' ← for_each body l1 s; for_each body l2 s'.
Proof.
  revert s; induction l1 as [|a l1 IH]; intros s; simpl; [reflexivity|].
  destruct (body s a); simpl; auto.
Qed.

Lemma elem_of_flat_map {A B} (f : A -> list B) (l : list A) (y : B) :
  y ∈ flat_map f l <-> exists x, x ∈ l /\ y ∈ f x.
Proof.
  rewrite list_elem_of_In, in_flat_map.
  by setoid_rewrite list_elem_of_In.
Qed.

Lemma list_max_ge (l : list nat) (n : nat) : n ∈ l -> n <= list_max l.
Proof.
  induction l as [|m l IH]; intros H.
  - by apply elem_of_nil in H.
  - apply elem_of_cons in H as [->|H]; simpl; [lia|]. specialize (IH H). lia.
Qed.

Module SkeletonFacts.
Import Skeleton.

Section Facts.
Context {num : Type}.
Implicit Types (σ : store num) (t : shape) (i j : id).

Lemma set_x_parent i v σ j : parent (set_x i v σ j) = parent (σ j).
Proof. unfold set_x. by case_decide. Qed.
Lemma set_x_children i v σ j : children (set_x i v σ j) = children (σ j).
Proof. unfold set_x. by case_decide. Qed.
Lemma set_x_y i v σ j : dendrogram_y (set_x i v σ j) = dendrogram_y (σ j).
Proof. unfold set_x. by case_decide. Qed.
Lemma set_x_eq i v σ : dendrogram_x (set_x i v σ i) = Some v.
Proof. unfold set_x. by case_decide. Qed.
Lemma set_x_ne i v σ j : j <> i -> set_x i v σ j = σ j.
Proof. unfold set_x. by case_decide. Qed.

Lemma set_y_parent i v σ j : parent (set_y i v σ j) = parent (σ j).
Proof. unfold set_y. by case_decide. Qed.
Lemma set_y_children i v σ j : children (set_y i v σ j) = children (σ j).
Proof. unfold set_y. by case_decide. Qed.
Lemma set_y_x i v σ j : dendrogram_x (set_y i v σ j) = dendrogram_x (σ j).
Proof. unfold set_y. by case_decide. Qed.
Lemma set_y_eq i v σ : dendrogram_y (set_y i v σ i) = Some v.
Proof. unfold set_y. by case_decide. Qed.
Lemma set_y_ne i v σ j : j <> i -> set_y i v σ j = σ j.
Proof. unfold set_y. by case_decide. Qed.

Lemma same_skeleton_refl σ : same_skeleton σ σ.
Proof. by intros i. Qed.

Lemma same_skeleton_trans σ1 σ2 σ3 :
  same_skeleton σ1 σ2 -> same_skeleton σ2 σ3 -> same_skeleton σ1 σ3.
Proof.
  intros H12 H23 i. destruct (H12 i) as [<- <-]. apply H23.
Qed.

Lemma same_skeleton_set_x i v σ : same_skeleton σ (set_x i v σ).
Proof. intros j. by rewrite set_x_parent, set_x_children. Qed.

Lemma same_skeleton_set_y i v σ : same_skeleton σ (set_y i v σ).
Proof. intros j. by rewrite set_y_parent, set_y_children. Qed.

Lemma tree_at_same_skeleton σ σ' par t :
  same_skeleton σ σ' -> tree_at σ par t -> tree_at σ' par t.
Proof.
  intros Hs. revert par. induction t as [i ks IH] using shape_ind'.
  intros par Ht. inversion Ht as [? ? ? Hp Hc Hk]; subst.
  destruct (Hs i) as [Hp' Hc']. constructor; [done|congruence|].
  rewrite Forall_forall in IH, Hk. apply Forall_forall. intros k Hin.
  apply IH; auto.
Qed.

Lemma root_in_ids t : root t ∈ ids t.
Proof. destruct t; simpl. apply elem_of_cons; auto. Qed.

Lemma leaves_in_ids t l : l ∈ leaves t -> l ∈ ids t.
Proof.
  revert l. induction t as [i ks IH] using shape_ind'. intros l.
  destruct ks as [|k ks]; simpl.
  - rewrite !elem_of_cons. intros [->|H]; auto.
  - change (l ∈ flat_map leaves (k :: ks) -> l ∈ i :: flat_map ids (k :: ks)).
    rewrite elem_of_cons, !elem_of_flat_map. intros (x & Hx & Hl).
    right. exists x. split; [done|]. rewrite Forall_forall in IH. by apply IH.
Qed.

(** The sections of a tree: children lists stay inside the tree, leaves
    have no children. *)
Lemma tree_at_children σ par t s c :
  tree_at σ par t -> s ∈ ids t -> c ∈ children (σ s) -> c ∈ ids t.
Proof.
  revert par. induction t as [i ks IH] using shape_ind'. intros par Ht.
  inversion Ht as [? ? ? Hp Hc Hk]; subst. simpl.
  rewrite !elem_of_cons, !elem_of_flat_map. rewrite Forall_forall in IH, Hk.
  intros [->|(k & Hkin & Hs)] Hcin; right.
  - rewrite Hc in Hcin. apply list_elem_of_fmap in Hcin as (k & -> & Hkin).
    exists k. split; [done|apply root_in_ids].
  - exists k. split; [done|]. eapply IH; eauto.
Qed.

Lemma tree_at_leaf σ par t l :
  tree_at σ par t -> l ∈ leaves t -> children (σ l) = [].
Proof.
  revert par. induction t as [i ks IH] using shape_ind'. intros par Ht.
  inversion Ht as [? ? ? Hp Hc Hk]; subst.
  destruct ks as [|k ks].
  - simpl. rewrite elem_of_cons. intros [->|H]; [done|]. by apply elem_of_nil in H.
  - change (l ∈ flat_map leaves (k :: ks) -> children (σ l) = []).
    rewrite elem_of_flat_map. intros (x & Hx & Hl).
    rewrite Forall_forall in IH, Hk. eapply IH; eauto.
Qed.

Lemma tree_at_root σ par t :
  tree_at σ par t ->
  parent (σ (root t)) = par /\ children (σ (root t)) = map root (kids t).
Proof. by inversion 1. Qed.

(** Every section with children in the tree is the parent of the roots
    of its subtrees; a section without children is a leaf of the tree. *)
Lemma tree_at_no_children_leaf σ par t s :
  tree_at σ par t -> s ∈ ids t -> children (σ s) = [] ->
  NoDup (ids t) -> s ∈ leaves t.
Proof.
  revert par. induction t as [i ks IH] using shape_ind'. intros par Ht.
  inversion Ht as [? ? ? Hp Hc Hk]; subst. simpl ids.
  rewrite elem_of_cons, elem_of_flat_map, NoDup_cons.
  rewrite Forall_forall in IH, Hk.
  intros [->|(k & Hkin & Hs)] Hcs [Hni Hnd].
  - rewrite Hc in Hcs. destruct ks; [|done]. simpl. apply elem_of_cons; auto.
  - destruct ks as [|k0 ks0]; [by apply elem_of_nil in Hkin|].
    change (s ∈ flat_map leaves (k0 :: ks0)). apply elem_of_flat_map.
    exists k. split; [done|]. eapply IH; eauto.
    clear -Hnd Hkin. revert Hnd Hkin. generalize (k0 :: ks0). intros l.
    induction l as [|a l IHl]; simpl; intros Hnd Hin.
    + by apply elem_of_nil in Hin.
    + apply NoDup_app in Hnd as (H1 & _ & H3).
      apply elem_of_cons in Hin as [->|Hin]; auto.
Qed.

End Facts.
End SkeletonFacts.

Module DendrogramFacts.
Import Skeleton SkeletonFacts Dendrogram.

Section Facts.
Context {num : Type}.
Variable zero : num.
Variable add : num -> num -> num.
Variable div_len : num -> nat -> num.
Variable times : nat -> num -> num.
Variable compute_path_length : store num -> id -> num.
Implicit Types (σ : store num) (t : shape) (i j s : id).

Local Abbreviation up :=
  (compute_dendrogram_x_coordinates_for_parents zero add div_len).
Local Abbreviation down :=
  (compute_dendrogram_y_coordinates_for_children compute_path_length).
Local Abbreviation mean := (mean zero add div_len).
Local Abbreviation run_leaves fuel :=
  (for_each (fun σ leaf => up fuel σ (Some leaf))).

(** *** Collecting the leaves *)

Lemma for_each_leaves fuel σ ks :
  forall acc,
    Forall (fun k => forall acc,
              get_subtree_leaves fuel σ (root k) acc = Done (acc ++ leaves k))
           ks ->
    for_each (fun acc child => get_subtree_leaves fuel σ child acc)
             (map root ks) acc
    = Done (acc ++ flat_map leaves ks).
Proof.
  induction ks as [|k ks IH]; intros acc Hall; simpl.
  - by rewrite app_nil_r.
  - apply Forall_cons in Hall as [Hk Hall]. rewrite Hk. simpl.
    rewrite IH by done. by rewrite app_assoc.
Qed.

Lemma get_subtree_leaves_spec t :
  forall σ par fuel acc,
    tree_at σ par t -> height t <= fuel ->
    get_subtree_leaves fuel σ (root t) acc = Done (acc ++ leaves t).
Proof.
  induction t as [i ks IH] using shape_ind'.
  intros σ par [|fuel] acc Ht Hfuel; [simpl in Hfuel; lia|].
  inversion Ht as [? ? ? Hp Hc Hk]; subst.
  change (get_subtree_leaves (S fuel) σ (root (Node i ks)) acc)
    with (for_each (fun acc child => get_subtree_leaves fuel σ child acc)
            (children (σ i))
            (if is_leaf (σ i) then acc ++ [i] else acc)).
  unfold is_leaf. rewrite Hc, for_each_leaves.
  - destruct ks; simpl; [by rewrite app_nil_r|done].
  - rewrite Forall_forall in IH, Hk. apply Forall_forall. intros k Hin acc'.
    eapply IH; eauto. simpl in Hfuel.
    assert (height k <= list_max (map height ks)); [|lia].
    apply list_max_ge, list_elem_of_fmap. eauto.
Qed.

(** *** The loop over the children of the parent *)

Lemma sum_children_x_spec σ cs x0 :
  sum_children_x add σ cs x0 = foldl add x0 <$> children_x σ cs.
Proof.
  revert x0. induction cs as [|c cs IH]; intros x0; simpl; [done|].
  destruct (dendrogram_x (σ c)) as [v|]; [|done].
  rewrite IH. by destruct (children_x σ cs).
Qed.

Lemma children_x_length σ cs xs :
  children_x σ cs = Some xs -> length xs = length cs.
Proof.
  revert xs. induction cs as [|c cs IH]; intros xs; simpl.
  - by intros [= <-].
  - destruct (dendrogram_x (σ c)); [|done].
    destruct (children_x σ cs) as [vs|]; [|done].
    intros [= <-]. simpl. by rewrite (IH vs).
Qed.

Lemma children_x_ext σ σ' cs :
  (forall c, c ∈ cs -> dendrogram_x (σ' c) = dendrogram_x (σ c)) ->
  children_x σ' cs = children_x σ cs.
Proof.
  induction cs as [|c cs IH]; intros H; simpl; [done|].
  rewrite H by (apply elem_of_cons; auto).
  rewrite IH; [done|]. intros c' Hin. apply H, elem_of_cons; auto.
Qed.

Lemma children_x_is_Some σ cs :
  (forall c, c ∈ cs -> is_Some (dendrogram_x (σ c))) ->
  is_Some (children_x σ cs).
Proof.
  induction cs as [|c cs IH]; intros H; simpl; [by eexists|].
  destruct (H c) as [v ->]; [apply elem_of_cons; auto|].
  destruct IH as [vs ->]; [|by eexists].
  intros c' Hin. apply H, elem_of_cons; auto.
Qed.

(** *** Walking up from a section *)

(** Stores that differ in X-coordinates only. *)
Definition same_but_x σ σ' : Prop :=
  forall j, parent (σ' j) = parent (σ j) /\
            children (σ' j) = children (σ j) /\
            dendrogram_y (σ' j) = dendrogram_y (σ j).

Lemma same_but_x_refl σ : same_but_x σ σ.
Proof. by intros j. Qed.

Lemma same_but_x_trans σ1 σ2 σ3 :
  same_but_x σ1 σ2 -> same_but_x σ2 σ3 -> same_but_x σ1 σ3.
Proof.
  intros H12 H23 j. destruct (H12 j) as (<- & <- & <-). apply H23.
Qed.

Lemma same_but_x_skeleton σ σ' : same_but_x σ σ' -> same_skeleton σ σ'.
Proof. intros H j. destruct (H j) as (? & ? & ?). auto. Qed.

Lemma same_but_x_set_x i v σ : same_but_x σ (set_x i v σ).
Proof. intros j. by rewrite set_x_parent, set_x_children, set_x_y. Qed.

(** [ctx σ i anc]: [anc] lists the ancestors of [i], nearest first, up to
    a section without parent, and no ancestor occurs below itself. *)
Inductive ctx σ : id -> list id -> Prop :=
| ctx_top i : parent (σ i) = None -> ctx σ i []
| ctx_up i p anc :
    parent (σ i) = Some p ->
    i ∈ children (σ p) ->
    p ∉ anc ->
    p ∉ children (σ p) ->
    (forall c, c ∈ children (σ p) -> c ∉ anc) ->
    ctx σ p anc ->
    ctx σ i (p :: anc).

Lemma ctx_same_skeleton σ σ' i anc :
  same_skeleton σ σ' -> ctx σ i anc -> ctx σ' i anc.
Proof.
  intros Hs. induction 1 as [i Hp|i p anc Hp Hi Hn Hpc Hc _ IH].
  - constructor. destruct (Hs i) as [-> _]. done.
  - destruct (Hs i) as [Hpi _]. destruct (Hs p) as [_ Hcp].
    constructor; rewrite ?Hpi, ?Hcp; auto.
Qed.

(** What a completed walk leaves on the ancestors it passed. *)
Fixpoint up_ok σ (anc : list id) : Prop :=
  match anc with
  | [] => True
  | p :: rest =>
    forall xs, children_x σ (children (σ p)) = Some xs ->
               dendrogram_x (σ p) = Some (mean xs) /\ up_ok σ rest
  end.

Lemma up_unfold fuel σ s :
  up (S fuel) σ (Some s) =
  match parent (σ s) with
  | Some p =>
    match sum_children_x add σ (children (σ p)) zero with
    | None => Done σ
    | Some x =>
      match length (children (σ p)) with
      | 0 => Raise ZeroDivisionError
      | S _ as n =>
        up fuel (set_x p (div_len x n) σ)
           (parent (set_x p (div_len x n) σ s))
      end
    end
  | None => up fuel σ None
  end.
Proof. reflexivity. Qed.

Lemma up_spec anc :
  forall σ i fuel,
    ctx σ i anc -> length anc + 2 <= fuel ->
    exists σ',
      up fuel σ (Some i) = Done σ' /\
      same_but_x σ σ' /\
      (forall j, j ∉ anc -> dendrogram_x (σ' j) = dendrogram_x (σ j)) /\
      (forall j, children (σ j) = [] ->
                 dendrogram_x (σ' j) = dendrogram_x (σ j)) /\
      up_ok σ' anc.
Proof.
  induction anc as [|p rest IH]; intros σ i fuel Hctx Hfuel;
    inversion Hctx as [? Hp|? ? ? Hp Hi Hn Hpc Hc Hctx']; subst.
  - destruct fuel as [|[|fuel]]; [simpl in Hfuel; lia..|].
    rewrite up_unfold, Hp. exists σ. simpl.
    repeat split; auto using same_but_x_refl; apply same_but_x_refl.
  - destruct fuel as [|fuel]; [lia|]. simpl in Hfuel.
    rewrite up_unfold, Hp, sum_children_x_spec.
    destruct (children_x σ (children (σ p))) as [xs|] eqn:Hxs; simpl.
    + destruct (length (children (σ p))) as [|n] eqn:Hlen.
      { apply length_zero_iff_nil in Hlen. rewrite Hlen in Hi.
        by apply elem_of_nil in Hi. }
      rewrite set_x_parent, Hp.
      set (σ1 := set_x p (div_len (foldl add zero xs) (S n)) σ).
      destruct (IH σ1 p fuel) as (σ' & Hrun & Hsame & Hframe & Hleaf & Hok).
      { eapply ctx_same_skeleton; [apply same_skeleton_set_x|done]. }
      { lia. }
      assert (Hne : forall j, j <> p -> dendrogram_x (σ1 j) = dendrogram_x (σ j)).
      { intros j Hj. unfold σ1. by rewrite set_x_ne. }
      exists σ'. split; [done|]. split; [|split; [|split]].
      * eapply same_but_x_trans; [apply same_but_x_set_x|done].
      * intros j Hj. apply not_elem_of_cons in Hj as [Hjp Hj].
        rewrite Hframe by done. by apply Hne.
      * intros j Hj. rewrite Hleaf.
        -- apply Hne. intros ->. rewrite Hj in Hi. by apply elem_of_nil in Hi.
        -- unfold σ1. by rewrite set_x_children.
      * simpl. intros xs' Hxs'. destruct (Hsame p) as (_ & Hcp & _).
        unfold σ1 in Hcp. rewrite set_x_children in Hcp.
        assert (Hsamex : children_x σ' (children (σ' p))
                         = children_x σ (children (σ p))).
        { rewrite Hcp. apply children_x_ext. intros c Hcin.
          rewrite Hframe by auto. apply Hne. by intros ->. }
        rewrite Hsamex, Hxs in Hxs'. injection Hxs' as <-.
        split; [|done]. rewrite Hframe by done. unfold σ1.
        rewrite set_x_eq. unfold Dendrogram.mean.
        by rewrite (children_x_length _ _ _ Hxs), Hlen.
    + exists σ. split; [done|]. split; [apply same_but_x_refl|].
      split; [done|]. split; [done|].
      simpl. intros xs' Hxs'. congruence.
Qed.


(** *** Walking up from every leaf, in order *)

(** Every section of [t] has an X-coordinate, and the one of a section
    with children is the mean of its children's. *)
Definition solved σ t : Prop :=
  forall s, s ∈ ids t ->
    is_Some (dendrogram_x (σ s)) /\
    (children (σ s) <> [] ->
     exists xs, children_x σ (children (σ s)) = Some xs /\
                dendrogram_x (σ s) = Some (mean xs)).

Lemma solved_frame σ σ' par t :
  tree_at σ par t -> same_skeleton σ σ' ->
  (forall j, j ∈ ids t -> dendrogram_x (σ' j) = dendrogram_x (σ j)) ->
  solved σ t -> solved σ' t.
Proof.
  intros Ht Hs Hx Hsol s Hin. destruct (Hsol s Hin) as [Hsome Hmean].
  destruct (Hs s) as [_ Hc]. rewrite Hx, Hc by done. split; [done|].
  intros Hne. destruct (Hmean Hne) as (xs & Hxs & Hm). exists xs.
  split; [|done]. rewrite <- Hxs. apply children_x_ext.
  intros c Hcin. apply Hx. eapply tree_at_children; eauto.
Qed.

Lemma root_in_flat_ids k ks : k ∈ ks -> root k ∈ flat_map ids ks.
Proof. intros. apply elem_of_flat_map. eauto using root_in_ids. Qed.

Definition run_ok t : Prop :=
  forall σ par anc fuel,
    tree_at σ par t -> NoDup (ids t) ->
    ctx σ (root t) anc ->
    (forall j, j ∈ ids t -> j ∉ anc) ->
    (forall l, l ∈ leaves t -> is_Some (dendrogram_x (σ l))) ->
    length anc + height t + 1 <= fuel ->
    exists σ',
      run_leaves fuel (leaves t) σ = Done σ' /\
      same_but_x σ σ' /\
      (forall j, j ∉ anc -> j ∉ ids t ->
                 dendrogram_x (σ' j) = dendrogram_x (σ j)) /\
      (forall j, children (σ j) = [] ->
                 dendrogram_x (σ' j) = dendrogram_x (σ j)) /\
      solved σ' t /\
      up_ok σ' anc.

Lemma run_kids ks :
  Forall run_ok ks ->
  forall σ i anc fuel,
    Forall (tree_at σ (Some i)) ks ->
    NoDup (flat_map ids ks) ->
    (forall k, k ∈ ks -> ctx σ (root k) (i :: anc)) ->
    (forall j, j ∈ flat_map ids ks -> j ∉ i :: anc) ->
    (forall l, l ∈ flat_map leaves ks -> is_Some (dendrogram_x (σ l))) ->
    (forall k, k ∈ ks -> length anc + height k + 2 <= fuel) ->
    exists σ',
      run_leaves fuel (flat_map leaves ks) σ = Done σ' /\
      same_but_x σ σ' /\
      (forall j, j ∉ i :: anc -> j ∉ flat_map ids ks ->
                 dendrogram_x (σ' j) = dendrogram_x (σ j)) /\
      (forall j, children (σ j) = [] ->
                 dendrogram_x (σ' j) = dendrogram_x (σ j)) /\
      Forall (solved σ') ks /\
      (ks <> [] -> up_ok σ' (i :: anc)).
Proof.
  induction ks as [|k ks IH]; intros Hall σ i anc fuel Ht Hnd Hctx Hdis Hlv Hfuel.
  { exists σ. simpl. split; [done|]. split; [apply same_but_x_refl|].
    split; [done|]. split; [done|]. split; [constructor|done]. }
  apply Forall_cons in Hall as [Hk Hall]. apply Forall_cons in Ht as [Htk Htks].
  simpl in Hnd. apply NoDup_app in Hnd as (Hndk & Hsep & Hndks).
  destruct (Hk σ (Some i) (i :: anc) fuel)
    as (σ1 & Hrun1 & Hsame1 & Hframe1 & Hleaf1 & Hsol1 & Hok1); auto.
  { apply Hctx, elem_of_cons; auto. }
  { intros j Hj. apply Hdis. simpl. apply elem_of_app; auto. }
  { intros l Hl. apply Hlv. simpl. apply elem_of_app; auto. }
  { specialize (Hfuel k). simpl. rewrite elem_of_cons in Hfuel.
    assert (length anc + height k + 2 <= fuel) by auto. lia. }
  pose proof (same_but_x_skeleton _ _ Hsame1) as Hsk1.
  destruct (IH Hall σ1 i anc fuel)
    as (σ' & Hrun & Hsame & Hframe & Hleaf & Hsol & Hok).
  { eapply Forall_impl; [exact Htks|]. intros k'.
    by apply tree_at_same_skeleton. }
  { done. }
  { intros k' Hin. eapply ctx_same_skeleton; [exact Hsk1|].
    apply Hctx, elem_of_cons; auto. }
  { intros j Hj. apply Hdis. simpl. apply elem_of_app; auto. }
  { intros l Hl. rewrite Hleaf1.
    - apply Hlv. simpl. apply elem_of_app; auto.
    - apply elem_of_flat_map in Hl as (k' & Hk' & Hl).
      rewrite Forall_forall in Htks.
      eapply tree_at_leaf; [apply (Htks k' Hk')|exact Hl]. }
  { intros k' Hin. apply Hfuel, elem_of_cons; auto. }
  pose proof (same_but_x_skeleton _ _ Hsame) as Hsk.
  exists σ'. split; [|split; [|split; [|split; [|split]]]].
  - simpl. rewrite for_each_app, Hrun1. simpl. exact Hrun.
  - eapply same_but_x_trans; eauto.
  - intros j Hj1 Hj2. simpl in Hj2. apply not_elem_of_app in Hj2 as [Hj2 Hj3].
    rewrite Hframe, Hframe1; auto.
  - intros j Hj. rewrite Hleaf, Hleaf1; auto.
    destruct (Hsk1 j) as [_ ->]. done.
  - apply Forall_cons. split; [|done].
    eapply solved_frame; [|exact Hsk| |exact Hsol1].
    + eapply tree_at_same_skeleton; eauto.
    + intros j Hj. apply Hframe.
      * apply Hdis. simpl. apply elem_of_app; auto.
      * by apply Hsep.
  - intros _. destruct ks as [|k2 ks2].
    + simpl in Hrun. injection Hrun as <-. exact Hok1.
    + by apply Hok.
Qed.

Lemma run_leaves_spec t : run_ok t.
Proof.
  induction t as [i ks IH] using shape_ind'.
  intros σ par anc fuel Ht Hnd Hctx Hdis Hlv Hfuel.
  inversion Ht as [? ? ? Hp Hc Hk]; subst. simpl in Hctx.
  destruct ks as [|k0 ks0] eqn:Eks.
  - (* a leaf: one walk, starting at the leaf itself *)
    destruct (up_spec anc σ i fuel)
      as (σ' & Hrun & Hsame & Hframe & Hleaf & Hok); [done|simpl in *; lia|].
    exists σ'. simpl. rewrite Hrun. simpl.
    split; [done|]. split; [done|]. split; [auto|]. split; [done|].
    split; [|done]. intros s Hs. simpl in Hs.
    apply elem_of_cons in Hs as [->|Hs]; [|by apply elem_of_nil in Hs].
    split.
    + rewrite Hleaf by done. apply Hlv. simpl. apply elem_of_cons; auto.
    + destruct (Hsame i) as (_ & -> & _). by rewrite Hc.
  - rewrite <- Eks in *. assert (Hks : ks <> []) by (by rewrite Eks).
    clear Eks k0 ks0.
    assert (Hleaves : leaves (Node i ks) = flat_map leaves ks).
    { destruct ks; [done|reflexivity]. }
    rewrite Hleaves in *. simpl ids in *.
    apply NoDup_cons in Hnd as [Hni Hnd].
    assert (Hroots : forall c, c ∈ children (σ i) -> c ∈ flat_map ids ks).
    { intros c. rewrite Hc. intros (k & -> & Hin)%list_elem_of_fmap.
      by apply root_in_flat_ids. }
    destruct (run_kids ks IH σ i anc fuel)
      as (σ' & Hrun & Hsame & Hframe & Hleaf & Hsol & Hok); auto.
    { intros k Hin. rewrite Forall_forall in Hk.
      destruct (tree_at_root _ _ _ (Hk k Hin)) as [Hpk _].
      apply ctx_up; [exact Hpk| | | | |exact Hctx].
      - rewrite Hc. apply list_elem_of_fmap. eauto.
      - apply Hdis, elem_of_cons; auto.
      - intros Hin'. apply Hni. auto.
      - intros c Hcin. apply Hdis, elem_of_cons. auto. }
    { intros j Hj. apply not_elem_of_cons. split.
      - intros ->. done.
      - apply Hdis, elem_of_cons. auto. }
    { intros k Hin. simpl in Hfuel.
      assert (height k <= list_max (map height ks)); [|lia].
      apply list_max_ge, list_elem_of_fmap. eauto. }
    specialize (Hok Hks). simpl in Hok.
    destruct (Hsame i) as (_ & Hci & _).
    rewrite Forall_forall in Hsol.
    destruct (children_x_is_Some σ' (children (σ' i))) as [xs Hxs].
    { intros c Hcin. rewrite Hci in Hcin. apply Hroots in Hcin.
      apply elem_of_flat_map in Hcin as (k & Hkin & Hcin).
      by apply (Hsol k Hkin c). }
    destruct (Hok xs Hxs) as [Hxi Hok'].
    exists σ'. split; [done|]. split; [done|]. split; [|split; [done|]].
    { intros j Hj1 Hj2. apply not_elem_of_cons in Hj2 as [Hj2 Hj3].
      apply Hframe; [|done]. apply not_elem_of_cons. auto. }
    split; [|done]. intros s Hs. apply elem_of_cons in Hs as [->|Hs].
    + split; [by rewrite Hxi|]. intros _. eauto.
    + apply elem_of_flat_map in Hs as (k & Hkin & Hs). by apply (Hsol k Hkin s).
Qed.


(** *** The leaves' own coordinates *)

Lemma assign_leaves_x_same δ ls :
  forall i σ, same_but_x σ (assign_leaves_x times δ i ls σ).
Proof.
  induction ls as [|l ls IH]; intros i σ; simpl; [apply same_but_x_refl|].
  eapply same_but_x_trans; [apply same_but_x_set_x|apply IH].
Qed.

Lemma assign_leaves_x_other δ ls j :
  j ∉ ls ->
  forall i σ, dendrogram_x (assign_leaves_x times δ i ls σ j)
              = dendrogram_x (σ j).
Proof.
  induction ls as [|l ls IH]; intros Hj i σ; simpl; [done|].
  apply not_elem_of_cons in Hj as [Hne Hj]. rewrite IH by done.
  by rewrite set_x_ne.
Qed.

Lemma assign_leaves_x_lookup δ ls :
  NoDup ls ->
  forall i σ k l,
    ls !! k = Some l ->
    dendrogram_x (assign_leaves_x times δ i ls σ l) = Some (times (i + k) δ).
Proof.
  induction 1 as [|a ls Ha Hnd IH]; intros i σ k l Hk; [done|].
  destruct k as [|k]; simpl in *.
  - injection Hk as ->. rewrite assign_leaves_x_other by done.
    rewrite set_x_eq. by rewrite Nat.add_0_r.
  - rewrite (IH (S i) _ k l Hk). do 2 f_equal. lia.
Qed.

Lemma NoDup_leaves t : NoDup (ids t) -> NoDup (leaves t).
Proof.
  induction t as [i ks IH] using shape_ind'. simpl ids.
  intros [_ Hnd]%NoDup_cons.
  destruct ks as [|k0 ks0] eqn:Eks.
  { simpl. apply NoDup_singleton. }
  rewrite <- Eks in *.
  assert (Hl : leaves (Node i ks) = flat_map leaves ks) by (by rewrite Eks).
  rewrite Hl. clear Eks Hl k0 ks0.
  induction ks as [|k ks IHks]; simpl in *; [constructor|].
  apply Forall_cons in IH as [IHk IH].
  apply NoDup_app in Hnd as (H1 & H2 & H3). apply NoDup_app.
  split; [auto|]. split; [|auto].
  intros l Hl Hl'. apply (H2 l); [by apply leaves_in_ids|].
  apply elem_of_flat_map in Hl' as (k' & Hk' & Hl').
  apply elem_of_flat_map. eauto using leaves_in_ids.
Qed.

(** *** Walking down with the Y-coordinates *)

(** Stores that differ in Y-coordinates only. *)
Definition same_but_y σ σ' : Prop :=
  forall j, parent (σ' j) = parent (σ j) /\
            children (σ' j) = children (σ j) /\
            dendrogram_x (σ' j) = dendrogram_x (σ j).

Lemma same_but_y_refl σ : same_but_y σ σ.
Proof. by intros j. Qed.

Lemma same_but_y_trans σ1 σ2 σ3 :
  same_but_y σ1 σ2 -> same_but_y σ2 σ3 -> same_but_y σ1 σ3.
Proof.
  intros H12 H23 j. destruct (H12 j) as (<- & <- & <-). apply H23.
Qed.

Lemma same_but_y_skeleton σ σ' : same_but_y σ σ' -> same_skeleton σ σ'.
Proof. intros H j. destruct (H j) as (? & ? & ?). auto. Qed.

Lemma same_but_y_set_y i v σ : same_but_y σ (set_y i v σ).
Proof. intros j. by rewrite set_y_parent, set_y_children, set_y_x. Qed.

(** After the walk, [j] holds the path length computed in some store
    that differs from [σ] in Y-coordinates only. *)
Definition y_computed σ σ' j : Prop :=
  exists σj, same_but_y σ σj /\
             dendrogram_y (σ' j) = Some (compute_path_length σj j).

Definition down_ok t : Prop :=
  forall σ par fuel,
    tree_at σ par t -> height t <= fuel ->
    exists σ',
      down fuel σ (Some (root t)) = Done σ' /\
      same_but_y σ σ' /\
      (forall j, j ∉ ids t -> dendrogram_y (σ' j) = dendrogram_y (σ j)) /\
      (forall j, j ∈ ids t -> y_computed σ σ' j).

Lemma y_computed_weaken σ0 σ σ' j :
  same_but_y σ0 σ -> y_computed σ σ' j -> y_computed σ0 σ' j.
Proof.
  intros H0 (σj & Hs & Hy). exists σj. eauto using same_but_y_trans.
Qed.

Lemma down_kids fuel ks :
  Forall down_ok ks ->
  (forall k, k ∈ ks -> height k <= fuel) ->
  forall σ par,
    Forall (tree_at σ par) ks ->
    exists σ',
      for_each (fun σ child => down fuel σ (Some child)) (map root ks) σ
      = Done σ' /\
      same_but_y σ σ' /\
      (forall j, j ∉ flat_map ids ks ->
                 dendrogram_y (σ' j) = dendrogram_y (σ j)) /\
      (forall j, j ∈ flat_map ids ks -> y_computed σ σ' j).
Proof.
  induction ks as [|k ks IH]; intros Hall Hh σ par Ht.
  { exists σ. simpl. split; [done|]. split; [apply same_but_y_refl|].
    split; [done|]. intros j Hj. by apply elem_of_nil in Hj. }
  apply Forall_cons in Hall as [Hk Hall]. apply Forall_cons in Ht as [Htk Htks].
  destruct (Hk σ par fuel) as (σ1 & Hrun1 & Hsame1 & Hframe1 & Hval1);
    [done|apply Hh, elem_of_cons; auto|].
  destruct (IH Hall (fun k' Hin => Hh k' (proj2 (elem_of_cons _ _ _) (or_intror Hin)))
               σ1 par)
    as (σ' & Hrun & Hsame & Hframe & Hval).
  { eapply Forall_impl; [exact Htks|]. intros k'.
    apply tree_at_same_skeleton. by apply same_but_y_skeleton. }
  exists σ'. split; [|split; [|split]].
  - simpl. rewrite Hrun1. simpl. exact Hrun.
  - eauto using same_but_y_trans.
  - intros j Hj. simpl in Hj. apply not_elem_of_app in Hj as [Hj1 Hj2].
    rewrite Hframe, Hframe1; auto.
  - intros j Hj. simpl in Hj.
    destruct (decide (j ∈ flat_map ids ks)) as [Hin|Hnin].
    + eapply y_computed_weaken; [exact Hsame1|]. by apply Hval.
    + apply elem_of_app in Hj as [Hj|Hj]; [|done].
      destruct (Hval1 j Hj) as (σj & Hs & Hy). exists σj. split; [done|].
      by rewrite Hframe.
Qed.

Lemma down_spec t : down_ok t.
Proof.
  induction t as [i ks IH] using shape_ind'.
  intros σ par [|fuel] Ht Hfuel; [simpl in Hfuel; lia|].
  inversion Ht as [? ? ? Hp Hc Hk]; subst.
  set (σ1 := set_y i (compute_path_length σ i) σ).
  change (down (S fuel) σ (Some (root (Node i ks))))
    with (for_each (fun σ child => down fuel σ (Some child))
                   (children (σ1 i)) σ1).
  assert (Hs1 : same_but_y σ σ1) by apply same_but_y_set_y.
  destruct (Hs1 i) as (_ & Hc1 & _). rewrite Hc1, Hc.
  destruct (down_kids fuel ks IH) with (σ := σ1) (par := Some i)
    as (σ' & Hrun & Hsame & Hframe & Hval).
  { intros k Hin. simpl in Hfuel.
    assert (height k <= list_max (map height ks)); [|lia].
    apply list_max_ge, list_elem_of_fmap. eauto. }
  { eapply Forall_impl; [exact Hk|]. intros k'.
    apply tree_at_same_skeleton. by apply same_but_y_skeleton. }
  exists σ'. split; [done|]. split; [eauto using same_but_y_trans|].
  split.
  - intros j Hj. simpl in Hj. apply not_elem_of_cons in Hj as [Hne Hj].
    rewrite Hframe by done. unfold σ1. by rewrite set_y_ne.
  - intros j Hj. simpl in Hj.
    destruct (decide (j ∈ flat_map ids ks)) as [Hin|Hnin].
    + eapply y_computed_weaken; [exact Hs1|]. by apply Hval.
    + apply elem_of_cons in Hj as [->|Hj]; [|done].
      exists σ. split; [apply same_but_y_refl|].
      rewrite Hframe by done. unfold σ1. by rewrite set_y_eq.
Qed.


(** *** The whole layout *)

Local Abbreviation dendrogram :=
  (compute_arbor_dendrogram zero add div_len times compute_path_length).

Lemma compute_arbor_dendrogram_spec σ t delta fuel :
  arbor σ t -> height t + 1 <= fuel ->
  exists σ',
    dendrogram fuel σ (Some (root t)) delta = Done σ' /\
    same_skeleton σ σ' /\
    (forall k l, leaves t !! k = Some l ->
                 dendrogram_x (σ' l) = Some (times k delta)) /\
    solved σ' t.
Proof.
  intros [Ht Hnd] Hfuel. unfold compute_arbor_dendrogram, get_arbor_leaves.
  rewrite (get_subtree_leaves_spec t σ None fuel []) by (done || lia).
  simpl. set (σ1 := assign_leaves_x times delta 0 (leaves t) σ).
  pose proof (assign_leaves_x_same delta (leaves t) 0 σ) as Hs1. fold σ1 in Hs1.
  pose proof (same_but_x_skeleton _ _ Hs1) as Hsk1.
  assert (Ht1 : tree_at σ1 None t) by (by eapply tree_at_same_skeleton).
  assert (Hx1 : forall k l, leaves t !! k = Some l ->
                            dendrogram_x (σ1 l) = Some (times k delta)).
  { intros k l Hk. unfold σ1.
    by rewrite (assign_leaves_x_lookup delta _ (NoDup_leaves t Hnd) 0 σ k l). }
  destruct (run_leaves_spec t σ1 None [] fuel Ht1 Hnd)
    as (σ2 & Hrun & Hs2 & _ & Hleaf & Hsol & _).
  { constructor. by destruct (tree_at_root _ _ _ Ht1). }
  { intros j _. apply not_elem_of_nil. }
  { intros l [k Hk]%list_elem_of_lookup. rewrite (Hx1 k l Hk). by eexists. }
  { simpl. lia. }
  rewrite Hrun. simpl.
  pose proof (same_but_x_skeleton _ _ Hs2) as Hsk2.
  destruct (down_spec t σ2 None fuel) as (σ3 & Hdown & Hs3 & _ & _);
    [by eapply tree_at_same_skeleton|lia|].
  pose proof (same_but_y_skeleton _ _ Hs3) as Hsk3.
  assert (Hx3 : forall j, dendrogram_x (σ3 j) = dendrogram_x (σ2 j)).
  { intros j. by destruct (Hs3 j) as (_ & _ & ->). }
  exists σ3. split; [done|]. split; [|split].
  - eauto using same_skeleton_trans.
  - intros k l Hk. rewrite Hx3, Hleaf; [by apply Hx1|].
    eapply tree_at_leaf; [exact Ht1|]. by eapply list_elem_of_lookup_2.
  - eapply solved_frame; [|exact Hsk3| |exact Hsol]; [|auto].
    by eapply tree_at_same_skeleton.
Qed.

(** C1: for a non-None arbor, [compute_arbor_dendrogram] returns; the
    [i]-th leaf that [get_arbor_leaves] collects (the leaves being the
    sections of the arbor without children, in depth-first order) ends
    with [dendrogram_x = i * delta], and every section with children
    whose children all have a computed [dendrogram_x] holds the mean of
    its children's values. *)
Theorem compute_arbor_dendrogram_x_layout σ t delta :
  arbor σ t ->
  exists fuel0, forall fuel, fuel0 <= fuel ->
    exists lvs σ',
      get_arbor_leaves fuel σ (Some (root t)) = Done lvs /\
      lvs = leaves t /\
      (forall l, l ∈ lvs <-> l ∈ ids t /\ children (σ l) = []) /\
      dendrogram fuel σ (Some (root t)) delta = Done σ' /\
      (forall i leaf, lvs !! i = Some leaf ->
                      dendrogram_x (σ' leaf) = Some (times i delta)) /\
      (forall s xs, s ∈ ids t -> children (σ' s) <> [] ->
                    children_x σ' (children (σ' s)) = Some xs ->
                    dendrogram_x (σ' s) = Some (mean xs)).
Proof.
  intros Harbor. exists (height t + 1). intros fuel Hfuel.
  destruct (compute_arbor_dendrogram_spec σ t delta fuel Harbor Hfuel)
    as (σ' & Hrun & Hsk & Hlv & Hsol).
  destruct Harbor as [Ht Hnd].
  exists (leaves t), σ'. split; [|split; [done|split; [|split; [done|split]]]].
  - simpl. by rewrite (get_subtree_leaves_spec t σ None fuel []) by (done || lia).
  - intros l. split.
    + intros Hl. split; [by apply leaves_in_ids|by eapply tree_at_leaf].
    + intros [Hl Hc]. by eapply tree_at_no_children_leaf.
  - done.
  - intros s xs Hs Hne Hxs. destruct (Hsol s Hs) as [_ Hm].
    destruct (Hm Hne) as (xs' & Hxs' & ->). congruence.
Qed.

(** C2: for a finite arbor whose sections all start with
    [dendrogram_x = None], [compute_arbor_dendrogram] returns and every
    section of the arbor then has a [dendrogram_x]. *)
Theorem compute_arbor_dendrogram_fills_every_x σ t delta :
  arbor σ t ->
  (forall s, s ∈ ids t -> dendrogram_x (σ s) = None) ->
  exists fuel0, forall fuel, fuel0 <= fuel ->
    exists σ',
      dendrogram fuel σ (Some (root t)) delta = Done σ' /\
      forall s, s ∈ ids t -> dendrogram_x (σ' s) <> None.
Proof.
  intros Harbor _. exists (height t + 1). intros fuel Hfuel.
  destruct (compute_arbor_dendrogram_spec σ t delta fuel Harbor Hfuel)
    as (σ' & Hrun & _ & _ & Hsol).
  exists σ'. split; [done|]. intros s Hs.
  destruct (Hsol s Hs) as [[v ->] _]. done.
Qed.

(** C3: [compute_dendrogram_y_coordinates_for_children] returns on a
    finite subtree; every section of the subtree, its root included,
    then has [dendrogram_y] equal to its path length, and no other
    dendrogram coordinate has changed. The path length of a section is
    taken not to depend on the Y-coordinates being written. *)
Theorem compute_dendrogram_y_coordinates_for_children_sets_path_lengths
    σ par t :
  (forall σ1 σ2 s, same_but_y σ1 σ2 ->
                   compute_path_length σ2 s = compute_path_length σ1 s) ->
  tree_at σ par t ->
  exists fuel0, forall fuel, fuel0 <= fuel ->
    exists σ',
      down fuel σ (Some (root t)) = Done σ' /\
      (forall s, s ∈ ids t ->
                 dendrogram_y (σ' s) = Some (compute_path_length σ' s)) /\
      (forall s, dendrogram_x (σ' s) = dendrogram_x (σ s)) /\
      (forall s, s ∉ ids t -> dendrogram_y (σ' s) = dendrogram_y (σ s)) /\
      same_skeleton σ σ'.
Proof.
  intros Hpl Ht. exists (height t). intros fuel Hfuel.
  destruct (down_spec t σ par fuel Ht Hfuel) as (σ' & Hrun & Hs & Hframe & Hval).
  exists σ'. split; [done|]. split; [|split; [|split; [done|]]].
  - intros s Hin. destruct (Hval s Hin) as (σj & Hsj & ->).
    f_equal. rewrite (Hpl σ σj s Hsj). symmetry. by apply Hpl.
  - intros s. by destruct (Hs s) as (_ & _ & ->).
  - by apply same_but_y_skeleton.
Qed.

End Facts.

(** The sample arbor: leaves 1, 3, 5, 6 at 0, 10, 20, 30; section 4 over
    its only child, section 2 over 3 and 4, the root over 1, 2 and 6. *)
Example sample_layout :
  Sample.xs_of (Sample.run0 5) [0; 1; 2; 3; 4; 5; 6]
  = [Some 15%Q; Some 0%Q; Some 15%Q; Some 10%Q; Some 20%Q; Some 20%Q;
     Some 30%Q].
Proof. vm_compute. reflexivity. Qed.

Example sample_out_of_fuel : Sample.run0 4 = OutOfFuel.
Proof. vm_compute. reflexivity. Qed.

Lemma compute_arbor_dendrogram_x_layout_witness :
  arbor Sample.σ0 Sample.t0 /\
  exists fuel0, forall fuel, fuel0 <= fuel ->
    exists lvs σ',
      get_arbor_leaves fuel Sample.σ0 (Some (root Sample.t0)) = Done lvs /\
      lvs = leaves Sample.t0 /\
      (forall l, l ∈ lvs <->
                 l ∈ ids Sample.t0 /\ children (Sample.σ0 l) = []) /\
      compute_arbor_dendrogram 0%Q Sample.qadd Sample.qdiv Sample.qtimes
        Sample.path_length0 fuel Sample.σ0 (Some (root Sample.t0)) 10%Q
      = Done σ' /\
      (forall i leaf, lvs !! i = Some leaf ->
                      dendrogram_x (σ' leaf) = Some (Sample.qtimes i 10%Q)) /\
      (forall s xs, s ∈ ids Sample.t0 -> children (σ' s) <> [] ->
                    children_x σ' (children (σ' s)) = Some xs ->
                    dendrogram_x (σ' s)
                    = Some (mean 0%Q Sample.qadd Sample.qdiv xs)).
Proof.
  split.
  - split; [repeat constructor|].
    apply (bool_decide_unpack _). vm_compute. reflexivity.
  - apply (compute_arbor_dendrogram_x_layout 0%Q Sample.qadd Sample.qdiv
             Sample.qtimes Sample.path_length0 Sample.σ0 Sample.t0 10%Q).
    split; [repeat constructor|].
    apply (bool_decide_unpack _). vm_compute. reflexivity.
Defined.

Lemma compute_arbor_dendrogram_fills_every_x_witness :
  arbor Sample.σ0 Sample.t0 /\
  (forall s, s ∈ ids Sample.t0 -> dendrogram_x (Sample.σ0 s) = None) /\
  exists fuel0, forall fuel, fuel0 <= fuel ->
    exists σ',
      compute_arbor_dendrogram 0%Q Sample.qadd Sample.qdiv Sample.qtimes
        Sample.path_length0 fuel Sample.σ0 (Some (root Sample.t0)) 10%Q
      = Done σ' /\
      forall s, s ∈ ids Sample.t0 -> dendrogram_x (σ' s) <> None.
Proof.
  assert (Hnone : forall s, dendrogram_x (Sample.σ0 s) = None).
  { intros s. do 7 (destruct s as [|s]; [reflexivity|]). reflexivity. }
  assert (Harbor : arbor Sample.σ0 Sample.t0).
  { split; [repeat constructor|].
    apply (bool_decide_unpack _). vm_compute. reflexivity. }
  split; [exact Harbor|]. split; [intros s _; apply Hnone|].
  apply (compute_arbor_dendrogram_fills_every_x 0%Q Sample.qadd Sample.qdiv
           Sample.qtimes Sample.path_length0 Sample.σ0 Sample.t0 10%Q Harbor).
  intros s _. apply Hnone.
Defined.

Lemma compute_dendrogram_y_coordinates_for_children_sets_path_lengths_witness :
  (forall σ1 σ2 s, same_but_y σ1 σ2 ->
                   Sample.path_length0 σ2 s = Sample.path_length0 σ1 s) /\
  tree_at Sample.σ0 None Sample.t0 /\
  exists fuel0, forall fuel, fuel0 <= fuel ->
    exists σ',
      compute_dendrogram_y_coordinates_for_children Sample.path_length0
        fuel Sample.σ0 (Some (root Sample.t0)) = Done σ' /\
      (forall s, s ∈ ids Sample.t0 ->
                 dendrogram_y (σ' s) = Some (Sample.path_length0 σ' s)) /\
      (forall s, dendrogram_x (σ' s) = dendrogram_x (Sample.σ0 s)) /\
      (forall s, s ∉ ids Sample.t0 ->
                 dendrogram_y (σ' s) = dendrogram_y (Sample.σ0 s)) /\
      same_skeleton Sample.σ0 σ'.
Proof.
  split; [intros σ1 σ2 s _; reflexivity|].
  split; [repeat constructor|].
  apply (compute_dendrogram_y_coordinates_for_children_sets_path_lengths
           Sample.path_length0 Sample.σ0 None Sample.t0).
  - intros σ1 σ2 s _. reflexivity.
  - repeat constructor.
Defined.

End DendrogramFacts.

Module BuilderFacts.
Import Skeleton SkeletonFacts Builder.

Lemma for_each_prefix {A B} (body : list B -> A -> res (list B)) (l : list A) :
  (forall acc a, body acc a = (new ← body [] a; Done (acc ++ new))) ->
  forall acc,
    for_each body l acc = (new ← for_each body l []; Done (acc ++ new)).
Proof.
  intros Hbody. induction l as [|a l IH]; intros acc; simpl.
  - by rewrite app_nil_r.
  - rewrite (Hbody acc a). destruct (body [] a) as [n| |]; simpl; try done.
    rewrite (IH (acc ++ n)), (IH n).
    destruct (for_each body l []) as [m| |]; simpl; try done.
    by rewrite app_assoc.
Qed.

Section Facts.
Context {num label samples : Type}.
Variable get_section_poly_line : id -> samples.
Variable GRAY_MATERIAL_INDEX : Z.
Variable BASAL_DENDRITES_PREFIX : label.
Implicit Types (σ : store num) (t : shape) (b : Z).

Local Abbreviation PL := (PolyLine label samples).
Local Abbreviation construct :=
  (construct_tree_poly_lines get_section_poly_line GRAY_MATERIAL_INDEX
     BASAL_DENDRITES_PREFIX).
Local Abbreviation material :=
  (material_of GRAY_MATERIAL_INDEX).

(** The walk only ever appends to the list it is given. *)
Lemma construct_prefix fuel :
  forall σ root (L : list PL) b max prefix msi hl,
    construct fuel σ root L b max prefix msi hl
    = (new ← construct fuel σ root [] b max prefix msi hl; Done (L ++ new)).
Proof.
  induction fuel as [|fuel IH]; intros σ root L b max prefix msi hl;
    [done|].
  destruct root as [r|]; simpl; [|by rewrite app_nil_r].
  destruct (max <? b + 1)%Z; simpl; [by rewrite app_nil_r|].
  set (pl := mkPolyLine _ _ _).
  set (body := fun (l : list PL) (child : id) => construct fuel σ (Some child) l _ _ _ _ _).
  assert (Hbody : forall acc a, body acc a = (new ← body [] a; Done (acc ++ new))).
  { intros acc a. unfold body. apply IH. }
  rewrite (for_each_prefix body _ Hbody (L ++ [pl])).
  rewrite (for_each_prefix body _ Hbody [pl]).
  destruct (for_each body (children (σ r)) []) as [m| |]; simpl; try done.
  by rewrite <- app_assoc.
Qed.

(** The part of a tree the walk reads when the root has order [b]. *)
#[warnings="-register-all"]
Inductive visited_tree σ (max : Z) : Z -> shape -> Prop :=
| visited_beyond b t : (max < b)%Z -> visited_tree σ max b t
| visited_node b i ks :
    (b <= max)%Z ->
    children (σ i) = map root ks ->
    Forall (visited_tree σ max (b + 1)%Z) ks ->
    visited_tree σ max b (Node i ks).

(** The poly-lines the walk builds for a tree whose root has order [b]. *)
Fixpoint expected (max msi : Z) (hl : bool) (prefix : label) (b : Z)
    (t : shape) : list PL :=
  if (max <? b)%Z then []
  else
    match t with
    | Node i ks =>
      mkPolyLine (prefix, b) (get_section_poly_line i) (material msi hl b)
      :: flat_map (expected max msi hl BASAL_DENDRITES_PREFIX (b + 1)%Z) ks
    end.

Lemma expected_unfold max msi hl prefix b i ks :
  expected max msi hl prefix b (Node i ks) =
  if (max <? b)%Z then []
  else mkPolyLine (prefix, b) (get_section_poly_line i) (material msi hl b)
       :: flat_map (expected max msi hl BASAL_DENDRITES_PREFIX (b + 1)%Z) ks.
Proof. reflexivity. Qed.

Lemma construct_kids fuel σ max msi hl b ks :
  Forall (fun k => forall (L : list PL) prefix,
            construct fuel σ (Some (root k)) L b max prefix msi hl
            = Done (L ++ expected max msi hl prefix (b + 1) k)) ks ->
  forall L : list PL,
    for_each
      (fun l child =>
         construct fuel σ (Some child) l b max BASAL_DENDRITES_PREFIX msi hl)
      (map root ks) L
    = Done (L ++ flat_map (expected max msi hl BASAL_DENDRITES_PREFIX (b + 1)) ks).
Proof.
  induction ks as [|k ks IH]; intros Hall L; simpl.
  - by rewrite app_nil_r.
  - apply Forall_cons in Hall as [Hk Hall]. rewrite Hk. simpl.
    rewrite IH by done. by rewrite app_assoc.
Qed.

Lemma construct_spec max msi hl t :
  forall σ (L : list PL) b prefix fuel,
    visited_tree σ max (b + 1) t -> height t <= fuel ->
    construct fuel σ (Some (root t)) L b max prefix msi hl
    = Done (L ++ expected max msi hl prefix (b + 1) t).
Proof.
  induction t as [i ks IH] using shape_ind'.
  intros σ L b prefix [|fuel] Hv Hfuel; [simpl in Hfuel; lia|].
  rewrite expected_unfold. simpl root. simpl construct.
  inversion Hv as [? ? Hlt|? ? ? Hle Hc Hk]; subst.
  - apply Z.ltb_lt in Hlt. rewrite Hlt. by rewrite app_nil_r.
  - assert (Hb : (max <? b + 1)%Z = false) by (apply Z.ltb_ge; lia).
    rewrite Hb, Hc, construct_kids.
    + by rewrite <- app_assoc.
    + rewrite Forall_forall in IH, Hk. apply Forall_forall.
      intros k Hin L' prefix'. apply IH; auto. simpl in Hfuel.
      assert (height k <= list_max (map height ks)); [|lia].
      apply list_max_ge, list_elem_of_fmap. eauto.
Qed.

Lemma tree_at_visited σ par t max :
  tree_at σ par t -> forall b, visited_tree σ max b t.
Proof.
  revert par. induction t as [i ks IH] using shape_ind'.
  intros par Ht b. inversion Ht as [? ? ? Hp Hc Hk]; subst.
  destruct (decide (max < b)%Z) as [Hlt|Hge]; [by constructor|].
  apply visited_node; [lia|done|].
  rewrite Forall_forall in IH, Hk. apply Forall_forall. intros k Hin.
  eapply IH; eauto.
Qed.

(** Only the children of sections within the bound matter. *)
Lemma visited_tree_agree σ σ' max t :
  forall b,
    visited_tree σ max b t ->
    (forall s o, (s, o) ∈ sections_with_order b t -> (o <= max)%Z ->
                 children (σ' s) = children (σ s)) ->
    visited_tree σ' max b t.
Proof.
  induction t as [i ks IH] using shape_ind'. intros b Hv Hagree.
  inversion Hv as [? ? Hlt|? ? ? Hle Hc Hk]; subst; [by constructor|].
  apply visited_node; [done| |].
  - rewrite (Hagree i b); [done| |done]. simpl. apply elem_of_cons; auto.
  - rewrite Forall_forall in IH, Hk. apply Forall_forall. intros k Hin.
    apply IH; auto. intros s o Hso Ho. apply (Hagree s o); [|done].
    simpl. apply elem_of_cons. right. apply elem_of_flat_map. eauto.
Qed.

Lemma sections_with_order_ge t :
  forall b s o, (s, o) ∈ sections_with_order b t -> (b <= o)%Z.
Proof.
  induction t as [i ks IH] using shape_ind'. intros b s o. simpl.
  rewrite elem_of_cons, elem_of_flat_map.
  intros [[= -> ->]|(k & Hin & Hso)]; [lia|].
  rewrite Forall_forall in IH. specialize (IH k Hin _ _ _ Hso). lia.
Qed.

Lemma filter_none {A} (f : A -> bool) (l : list A) :
  (forall a, a ∈ l -> f a = false) -> List.filter f l = [].
Proof.
  induction l as [|a l IH]; intros H; simpl; [done|].
  rewrite H by (apply elem_of_cons; auto).
  apply IH. intros a' Hin. apply H, elem_of_cons; auto.
Qed.

Lemma expected_for max msi hl t :
  forall prefix b,
    Forall2 (poly_line_for get_section_poly_line GRAY_MATERIAL_INDEX msi hl)
            (expected max msi hl prefix b t)
            (List.filter (within max) (sections_with_order b t)).
Proof.
  induction t as [i ks IH] using shape_ind'. intros prefix b.
  rewrite expected_unfold. destruct (max <? b)%Z eqn:Hb.
  - apply Z.ltb_lt in Hb. rewrite filter_none; [constructor|].
    intros [s o] Hin. apply sections_with_order_ge in Hin.
    unfold within. simpl. apply Z.leb_gt. lia.
  - apply Z.ltb_ge in Hb. simpl.
    assert (Hw : within max (i, b) = true) by (by apply Z.leb_le).
    rewrite Hw. constructor; [done|].
    clear Hw. induction ks as [|k ks IHks]; simpl; [constructor|].
    apply Forall_cons in IH as [IHk IH].
    rewrite List.filter_app. apply Forall2_app; auto.
Qed.


Lemma material_two_values msi b :
  material msi true b = msi \/ material msi true b = (msi + 1)%Z.
Proof.
  unfold material_of. pose proof (Z.mod_pos_bound b 2). lia.
Qed.

Lemma material_alternates msi b :
  material msi true (b + 1) <> material msi true b.
Proof.
  unfold material_of. intros H.
  assert (Hm : ((b + 1) mod 2 = b mod 2)%Z) by lia.
  rewrite Z.add_mod in Hm by lia.
  pose proof (Z.mod_pos_bound b 2).
  assert (Hc : (b mod 2 = 0 \/ b mod 2 = 1)%Z) by lia.
  destruct Hc as [Hc|Hc]; rewrite Hc in Hm; vm_compute in Hm; lia.
Qed.

(** C5: in [construct_tree_poly_lines], started at the root with
    [branching_order = 0], the poly-lines appended are, in order, those
    of the sections within the bound; the one of a section of branching
    order [b] (the root counting as 1) has material
    [material_start_index + b % 2] when [highlight] is true, which is one
    of two consecutive indices and changes from a section to its
    children, and [GRAY_MATERIAL_INDEX] when [highlight] is false. *)
Theorem construct_tree_poly_lines_material σ par t (L : list PL)
    max prefix msi hl :
  tree_at σ par t ->
  exists fuel0, forall fuel, fuel0 <= fuel ->
    exists new,
      construct fuel σ (Some (root t)) L 0 max prefix msi hl
      = Done (L ++ new) /\
      Forall2
        (fun (pl : PL) (sb : id * Z) =>
           poly_samples pl = get_section_poly_line (fst sb) /\
           snd (name pl) = snd sb /\
           material_index pl =
             if hl then (msi + snd sb mod 2)%Z else GRAY_MATERIAL_INDEX)
        new (List.filter (within max) (sections_with_order 1 t)) /\
      (hl = true ->
       (forall pl, pl ∈ new ->
          material_index pl = msi \/ material_index pl = (msi + 1)%Z) /\
       (forall b, (msi + (b + 1) mod 2 <> msi + b mod 2)%Z)) /\
      (hl = false ->
       forall pl, pl ∈ new -> material_index pl = GRAY_MATERIAL_INDEX).
Proof.
  intros Ht. exists (height t). intros fuel Hfuel.
  exists (expected max msi hl prefix 1 t).
  pose proof (expected_for max msi hl t prefix 1) as Hfor.
  split; [|split; [|split]].
  - apply (construct_spec max msi hl t σ L 0 prefix fuel); [|done].
    by eapply tree_at_visited.
  - eapply Forall2_impl; [exact Hfor|].
    intros pl sb (Hn & Hs & Hm). unfold material_of in Hm. auto.
  - intros ->. split.
    + intros pl Hin.
      apply list_elem_of_lookup in Hin as [k Hk].
      destruct (Forall2_lookup_l _ _ _ _ _ Hfor Hk) as (sb & _ & _ & _ & Hm).
      rewrite Hm. apply material_two_values.
    + intros b. apply (material_alternates msi b).
  - intros -> pl Hin. apply list_elem_of_lookup in Hin as [k Hk].
    destruct (Forall2_lookup_l _ _ _ _ _ Hfor Hk) as (sb & _ & _ & _ & Hm).
    by rewrite Hm.
Qed.

(** C6: on a finite tree of sections and for every bound,
    [construct_tree_poly_lines] returns; a [None] root appends nothing;
    otherwise the poly-lines appended correspond one to one, in order,
    to the sections whose branching order is at most the bound; and the
    children of the other sections are never read: changing them
    changes nothing. *)
Theorem construct_tree_poly_lines_within_bound σ par t (L : list PL)
    b max prefix msi hl :
  tree_at σ par t ->
  exists fuel0, forall fuel, fuel0 <= fuel ->
    construct fuel σ None L b max prefix msi hl = Done L /\
    exists new,
      construct fuel σ (Some (root t)) L b max prefix msi hl
      = Done (L ++ new) /\
      Forall2 (poly_line_for get_section_poly_line GRAY_MATERIAL_INDEX msi hl)
        new (List.filter (within max) (sections_with_order (b + 1) t)) /\
      forall σ',
        (forall s o, (s, o) ∈ sections_with_order (b + 1) t ->
                     (o <= max)%Z -> children (σ' s) = children (σ s)) ->
        construct fuel σ' (Some (root t)) L b max prefix msi hl
        = Done (L ++ new).
Proof.
  intros Ht. exists (height t). intros fuel Hfuel.
  split.
  { destruct fuel; [destruct t; simpl in Hfuel; lia|done]. }
  exists (expected max msi hl prefix (b + 1) t).
  pose proof (tree_at_visited σ par t max Ht (b + 1)%Z) as Hv.
  split; [|split].
  - by apply construct_spec.
  - apply expected_for.
  - intros σ' Hagree. apply construct_spec; [|done].
    by eapply visited_tree_agree.
Qed.


End Facts.

(** The walk on the sample arbor, with the section identity standing for
    its samples. *)
Definition sample_walk (fuel : nat) (root : option id) (max : Z)
    (highlight : bool) : res (list (PolyLine string id)) :=
  construct_tree_poly_lines (fun i => i) 8%Z "basal" fuel Sample.σ0 root []
    0%Z max "axon" 6%Z highlight.

Example sample_walk_bound_2 :
  sample_walk 4 (Some 0) 2 true =
  Done [mkPolyLine ("axon", 1%Z) 0 7%Z; mkPolyLine ("basal", 2%Z) 1 6%Z;
        mkPolyLine ("basal", 2%Z) 2 6%Z; mkPolyLine ("basal", 2%Z) 6 6%Z].
Proof. vm_compute. reflexivity. Qed.

Example sample_walk_gray :
  sample_walk 4 (Some 2) 1 false = Done [mkPolyLine ("axon", 1%Z) 2 8%Z].
Proof. vm_compute. reflexivity. Qed.

(** Section 2 made its own child: the walk still returns, as it reads no
    children beyond the bound. *)
Definition sample_cyclic : store Q := fun i =>
  match i with
  | 2 => Sample.blank (Some 0) [2]
  | _ => Sample.σ0 i
  end.

Example sample_walk_stops_at_bound :
  construct_tree_poly_lines (fun i => i) 8%Z "basal" 3 sample_cyclic (Some 0)
    [] 0%Z 2%Z "axon" 6%Z true =
  Done [mkPolyLine ("axon", 1%Z) 0 7%Z; mkPolyLine ("basal", 2%Z) 1 6%Z;
        mkPolyLine ("basal", 2%Z) 2 6%Z; mkPolyLine ("basal", 2%Z) 6 6%Z].
Proof. vm_compute. reflexivity. Qed.

Lemma construct_tree_poly_lines_material_witness :
  tree_at Sample.σ0 None Sample.t0 /\
  exists fuel0, forall fuel, fuel0 <= fuel ->
    exists new,
      construct_tree_poly_lines (fun i => i) 8%Z "basal" fuel Sample.σ0
        (Some (root Sample.t0)) [] 0%Z 2%Z "axon" 6%Z true
      = Done ([] ++ new) /\
      Forall2
        (fun (pl : PolyLine string id) (sb : id * Z) =>
           poly_samples pl = fst sb /\
           snd (name pl) = snd sb /\
           material_index pl = if true then (6 + snd sb mod 2)%Z else 8%Z)
        new (List.filter (within 2) (sections_with_order 1 Sample.t0)) /\
      (true = true ->
       (forall pl, pl ∈ new ->
          material_index pl = 6%Z \/ material_index pl = (6 + 1)%Z) /\
       (forall b, (6 + (b + 1) mod 2 <> 6 + b mod 2)%Z)) /\
      (true = false ->
       forall pl, pl ∈ new -> material_index pl = 8%Z).
Proof.
  split; [repeat constructor|].
  apply (construct_tree_poly_lines_material (fun i => i) 8%Z "basal"
           Sample.σ0 None Sample.t0 [] 2%Z "axon" 6%Z true).
  repeat constructor.
Defined.

Lemma construct_tree_poly_lines_within_bound_witness :
  tree_at Sample.σ0 None Sample.t0 /\
  exists fuel0, forall fuel, fuel0 <= fuel ->
    construct_tree_poly_lines (fun i => i) 8%Z "basal" fuel Sample.σ0
      None [] 0%Z 2%Z "axon" 6%Z true = Done [] /\
    exists new,
      construct_tree_poly_lines (fun i => i) 8%Z "basal" fuel Sample.σ0
        (Some (root Sample.t0)) [] 0%Z 2%Z "axon" 6%Z true
      = Done ([] ++ new) /\
      Forall2 (poly_line_for (fun i => i) 8%Z 6%Z true)
        new (List.filter (within 2) (sections_with_order (0 + 1) Sample.t0)) /\
      forall σ' : store Q,
        (forall s o, (s, o) ∈ sections_with_order (0 + 1) Sample.t0 ->
                     (o <= 2)%Z -> children (σ' s) = children (Sample.σ0 s)) ->
        construct_tree_poly_lines (fun i => i) 8%Z "basal" fuel σ'
          (Some (root Sample.t0)) [] 0%Z 2%Z "axon" 6%Z true
        = Done ([] ++ new).
Proof.
  split; [repeat constructor|].
  apply (construct_tree_poly_lines_within_bound (fun i => i) 8%Z "basal"
           Sample.σ0 None Sample.t0 [] 0%Z 2%Z "axon" 6%Z true).
  repeat constructor.
Defined.

Definition sample_first : function_object string id :=
  mkFunctionObject [mkPolyLine ("axon", 1%Z) 1 7%Z].
Definition sample_second : function_object string id :=
  mkFunctionObject [mkPolyLine ("axon", 1%Z) 1 7%Z;
                    mkPolyLine ("apical", 1%Z) 6 3%Z].


End BuilderFacts.

Module AreaOpsFacts.
Import AreaOps.

Section Facts.
Context {arbor_t operation num : Type}.
Variable zero : num.
Variable add : num -> num -> num.
Variable apply_operation_to_arbor :
  arbor_t -> operation -> list num -> res (list num).
Variable compute_sections_surface_areas_from_segments : operation.

Lemma accumulate_foldl total l :
  accumulate add total l = foldl add total l.
Proof. revert total. induction l as [|a l IH]; intros total; simpl; auto. Qed.

(** C4: [compute_arbor_total_surface_area] returns the sum, taken in
    order from [0.0], of the areas that [apply_operation_to_arbor]
    collects with [compute_sections_surface_areas_from_segments] in a
    new list; with nothing collected this is [0.0]; an exception of the
    traversal propagates. *)
Theorem compute_arbor_total_surface_area_is_sum (arbor : arbor_t) :
  compute_arbor_total_surface_area zero add apply_operation_to_arbor
    compute_sections_surface_areas_from_segments arbor
  = (areas ← apply_operation_to_arbor arbor
               compute_sections_surface_areas_from_segments [];
     Done (sum_of zero add areas)) /\
  sum_of zero add [] = zero /\
  (forall areas a,
     sum_of zero add (areas ++ [a]) = add (sum_of zero add areas) a).
Proof.
  unfold compute_arbor_total_surface_area, sum_of. split; [|split].
  - destruct (apply_operation_to_arbor _ _ _); simpl; [|done..].
    by rewrite accumulate_foldl.
  - done.
  - intros areas a. by rewrite foldl_app.
Qed.

End Facts.

(** A traversal that collects three areas, over the rationals. *)
Example sample_total :
  compute_arbor_total_surface_area 0%Q Sample.qadd
    (fun (_ : unit) (_ : unit) l => Done (l ++ [1%Q; 2%Q; 4%Q])) tt tt
  = Done 7%Q.
Proof. vm_compute. reflexivity. Qed.

Example sample_total_empty :
  compute_arbor_total_surface_area 0%Q Sample.qadd
    (fun (_ : unit) (_ : unit) l => Done l) tt tt
  = Done 0%Q.
Proof. vm_compute. reflexivity. Qed.

End AreaOpsFacts.

Module PlottingFacts.
Import Plotting.

Section Facts.
Context {env : Type}.
Variable exec_import : import_stmt -> env -> env * option exn.
Variable pip_wheel : package -> env -> env * option exn.

Local Abbreviation result_imports :=
  (plot_per_arbor_result_imports exec_import pip_wheel).
Local Abbreviation range_imports :=
  (plot_per_arbor_range_imports exec_import pip_wheel).

(** The imports in the try blocks of the two functions. *)
Definition guarded_result : list import_stmt :=
  [import_numpy; import_matplotlib; import_seaborn].
Definition guarded_range : list import_stmt :=
  [import_numpy; import_matplotlib; import_seaborn; import_pandas].

(** The imports executed after the try blocks, the same in both
    functions. *)
Definition later_imports : list import_stmt :=
  [import_numpy; import_seaborn; import_matplotlib_pyplot;
   from_matplotlib_import_font_manager].

(** Case analysis on what the interpreter answers, call by call. *)
Ltac crack :=
  repeat first
    [ match goal with
      | |- context [exec_import ?s ?e] =>
        destruct (exec_import s e) as [? [?|]]; simpl
      end
    | match goal with
      | |- context [pip_wheel ?p ?e] =>
        destruct (pip_wheel p e) as [? [?|]]; simpl
      end
    | match goal with
      | |- context [bool_decide (?x = ModuleNotFoundError)] =>
        destruct (bool_decide_reflect (x = ModuleNotFoundError));
        [subst x|]; simpl
      end ].

Ltac not_found :=
  repeat match goal with
         | H : ?e <> ModuleNotFoundError |- _ =>
           rewrite ?(bool_decide_eq_false_2 _ H), ?andb_false_r; clear H
         end.

Ltac members H :=
  repeat (apply elem_of_cons in H as [H|H];
          [try discriminate H; try (injection H as -> ->)|]);
  try (by apply elem_of_nil in H).

Ltac later k :=
  exists k; eexists; split;
  [simpl; reflexivity
  |first [left; reflexivity
         |right; eexists _, _; split; [reflexivity|split; reflexivity]]].

Ltac prefix_of_guards :=
  first [exists 0; reflexivity|exists 1; reflexivity|exists 2; reflexivity
        |exists 3; reflexivity|exists 4; reflexivity].

Ltac discipline_holds :=
  unfold discipline, count, later_imports, guarded_result, guarded_range;
  split; [prefix_of_guards|];
  split; [simpl; not_found; reflexivity|];
  split; [intros p; destruct p; simpl; not_found; reflexivity|];
  split; [intros p; destruct p; simpl; lia|];
  split; [intros p Hp; destruct p; simpl; try reflexivity;
          exfalso; apply Hp; repeat first [apply list_elem_of_here
                                          |apply list_elem_of_further]|];
  split; [intros ss ee Hne Hin; members Hin; try done;
          split; reflexivity|];
  split; [reflexivity|];
  split; [first [later 0|later 1|later 2|later 3|later 4]|];
  intros Hr; first [discriminate Hr|reflexivity].

Lemma result_imports_discipline (e0 : env) :
  discipline guarded_result later_imports
    (run result_imports e0).
Proof.
  unfold run, plot_per_arbor_result_imports, seq, try_import, do_import,
    do_pip_wheel. simpl.
  crack; discipline_holds.
Qed.


Lemma range_imports_discipline (e0 : env) :
  discipline guarded_range later_imports
    (run range_imports e0).
Proof.
  unfold run, plot_per_arbor_range_imports, seq, try_import, do_import,
    do_pip_wheel. simpl.
  crack; discipline_holds.
Qed.

Lemma range_imports_no_pandas_retry (e0 : env) :
  count (is_retry_of pandas) (fst (run range_imports e0)) = 0.
Proof.
  unfold run, plot_per_arbor_range_imports, seq, try_import, do_import,
    do_pip_wheel. simpl.
  crack; reflexivity.
Qed.


End Facts.

(** A concrete interpreter: the environment is the list of importable
    packages; an import succeeds when its package is in the list. *)
Definition site_import (s : import_stmt) (installed : list package)
  : list package * option exn :=
  if bool_decide (package_of s ∈ installed) then (installed, None)
  else (installed, Some ModuleNotFoundError).

(** An installation that works, and one that leaves the package missing. *)
Definition pip_installs (p : package) (installed : list package)
  : list package * option exn := (p :: installed, None).
Definition pip_leaves_missing (p : package) (installed : list package)
  : list package * option exn := (installed, None).

Example sample_run_installs_numpy :
  run (plot_per_arbor_result_imports site_import pip_installs)
      [matplotlib; seaborn]
  = ([EImport true import_numpy (Some ModuleNotFoundError); EPipWheel numpy;
      EImport true import_matplotlib None; EImport true import_seaborn None;
      EImport false import_numpy None; EImport false import_seaborn None;
      EImport false import_matplotlib_pyplot None;
      EImport false from_matplotlib_import_font_manager None], None).
Proof. vm_compute. reflexivity. Qed.

Example sample_run_numpy_still_missing :
  run (plot_per_arbor_result_imports site_import pip_leaves_missing)
      [matplotlib; seaborn]
  = ([EImport true import_numpy (Some ModuleNotFoundError); EPipWheel numpy;
      EImport true import_matplotlib None; EImport true import_seaborn None;
      EImport false import_numpy (Some ModuleNotFoundError)],
     Some ModuleNotFoundError).
Proof. vm_compute. reflexivity. Qed.


End PlottingFacts.

Module VasculatureFacts.
Import Vasculature.

Section Facts.
Context {array : Type}.
Implicit Types (fs : file_system array) (o : h5object array).

Lemma read_dataset_1 o k (v : array) :
  (d ← getitem o k; value d) = Done v <-> dataset_at o [k] = Some v.
Proof.
  destruct o as [a|ms]; simpl; [done|].
  destruct (lookup_member k ms) as [[a'|ms']|]; simpl; split; congruence.
Qed.

Lemma read_dataset_2 o k1 k2 (v : array) :
  (c ← getitem o k1; d ← getitem c k2; value d) = Done v
  <-> dataset_at o [k1; k2] = Some v.
Proof.
  destruct o as [a|ms]; simpl; [done|].
  destruct (lookup_member k1 ms) as [c|]; simpl; [|done].
  apply (read_dataset_1 c k2 v).
Qed.

(** C10: when the file at the path opens, a [VasculatureLoader] that
    has been constructed holds the file's [points], [edges],
    [chains/structure] and [chains/connectivity] datasets in
    [points_list], [segments_list], [sections_list] and
    [connections_list]; the constructor itself read them, through one
    [h5py.File] call in read-only mode; and it does return when the
    four datasets are in the file. *)
Theorem loader_holds_the_file_datasets fs (p : path) (data : h5object array) :
  h5py_File fs p ReadOnly = Done data ->
  (forall self, init fs p = Done self ->
     exists points edges structure connectivity,
       dataset_at data ["points"] = Some points /\
       dataset_at data ["edges"] = Some edges /\
       dataset_at data ["chains"; "structure"] = Some structure /\
       dataset_at data ["chains"; "connectivity"] = Some connectivity /\
       points_list self = Array points /\
       segments_list self = Array edges /\
       sections_list self = Array structure /\
       connections_list self = Array connectivity /\
       dataset self = p /\
       opened self = [(p, ReadOnly)]) /\
  (forall points edges structure connectivity,
     dataset_at data ["points"] = Some points ->
     dataset_at data ["edges"] = Some edges ->
     dataset_at data ["chains"; "structure"] = Some structure ->
     dataset_at data ["chains"; "connectivity"] = Some connectivity ->
     exists self, init fs p = Done self).
Proof.
  intros Hopen. unfold init, load_dataset_from_file. simpl. rewrite Hopen.
  simpl. split.
  - intros self.
    destruct (d ← getitem data "points"; value d) as [points| |] eqn:E1;
      simpl; [|done..].
    destruct (d ← getitem data "edges"; value d) as [edges| |] eqn:E2;
      simpl; [|done..].
    destruct (c ← getitem data "chains"; d ← getitem c "structure"; value d)
      as [structure| |] eqn:E3; simpl; [|done..].
    destruct (c ← getitem data "chains"; d ← getitem c "connectivity"; value d)
      as [connectivity| |] eqn:E4; simpl; [|done..].
    intros [= <-]. simpl.
    apply read_dataset_1 in E1, E2. apply read_dataset_2 in E3, E4.
    exists points, edges, structure, connectivity. repeat split; done.
  - intros points edges structure connectivity H1 H2 H3 H4.
    apply read_dataset_1 in H1, H2. apply read_dataset_2 in H3, H4.
    rewrite H1. simpl. rewrite H2. simpl. rewrite H3. simpl. rewrite H4.
    simpl. eauto.
Qed.

End Facts.

(** A file with the four datasets, arrays being lists of numbers. *)
Definition sample_file : h5object (list nat) :=
  H5Group [("points", H5Dataset [1; 2; 3]);
           ("edges", H5Dataset [4; 5]);
           ("chains", H5Group [("structure", H5Dataset [6]);
                               ("connectivity", H5Dataset [7; 8])])].

Definition sample_fs : file_system (list nat) :=
  fun p => if decide (p = "vasculature.h5") then Some sample_file else None.

Example sample_load :
  init sample_fs "vasculature.h5"
  = Done (mkLoader "vasculature.h5" (Array [1; 2; 3]) (Array [4; 5])
            (Array [6]) (Array [7; 8]) [("vasculature.h5", ReadOnly)]).
Proof. vm_compute. reflexivity. Qed.

Example sample_load_missing_file :
  init sample_fs "other.h5" = Raise OSError.
Proof. vm_compute. reflexivity. Qed.

Lemma loader_holds_the_file_datasets_witness :
  h5py_File sample_fs "vasculature.h5" ReadOnly = Done sample_file /\
  (forall self, init sample_fs "vasculature.h5" = Done self ->
     exists points edges structure connectivity,
       dataset_at sample_file ["points"] = Some points /\
       dataset_at sample_file ["edges"] = Some edges /\
       dataset_at sample_file ["chains"; "structure"] = Some structure /\
       dataset_at sample_file ["chains"; "connectivity"] = Some connectivity /\
       points_list self = Array points /\
       segments_list self = Array edges /\
       sections_list self = Array structure /\
       connections_list self = Array connectivity /\
       dataset self = "vasculature.h5" /\
       opened self = [("vasculature.h5", ReadOnly)]) /\
  (forall points edges structure connectivity,
     dataset_at sample_file ["points"] = Some points ->
     dataset_at sample_file ["edges"] = Some edges ->
     dataset_at sample_file ["chains"; "structure"] = Some structure ->
     dataset_at sample_file ["chains"; "connectivity"] = Some connectivity ->
     exists self, init sample_fs "vasculature.h5" = Done self).
Proof.
  split; [vm_compute; reflexivity|].
  apply (loader_holds_the_file_datasets sample_fs "vasculature.h5" sample_file).
  vm_compute. reflexivity.
Defined.

End VasculatureFacts.

(** * Further properties of the dendrogram layout *)

Module DendrogramLayoutFacts.
Import Skeleton SkeletonFacts Dendrogram DendrogramFacts MorphologyDendrogram.

Lemma Sec_eq {num} (a b : Sec num) :
  parent a = parent b -> children a = children b ->
  dendrogram_x a = dendrogram_x b -> dendrogram_y a = dendrogram_y b ->
  a = b.
Proof. destruct a, b; simpl; congruence. Qed.

Section Facts.
Context {num : Type}.
Variable zero : num.
Variable add : num -> num -> num.
Variable div_len : num -> nat -> num.
Variable times : nat -> num -> num.
Variable compute_path_length : store num -> id -> num.
Implicit Types (σ : store num) (t : shape) (i j s : id).

Local Abbreviation up :=
  (compute_dendrogram_x_coordinates_for_parents zero add div_len).
Local Abbreviation down :=
  (compute_dendrogram_y_coordinates_for_children compute_path_length).
Local Abbreviation dendrogram :=
  (compute_arbor_dendrogram zero add div_len times compute_path_length).
Local Abbreviation mean := (mean zero add div_len).
Local Abbreviation layout_x := (layout_x zero add div_len times).
Local Abbreviation layout_kids := (layout_kids zero add div_len times).
Local Abbreviation layout := (layout zero add div_len times).
Local Abbreviation layout_forest := (layout_forest zero add div_len times).

Lemma assign_leaves_x_notin δ ls j :
  j ∉ ls -> forall i σ, assign_leaves_x times δ i ls σ j = σ j.
Proof.
  induction ls as [|l ls IH]; intros Hj i σ; simpl; [done|].
  apply not_elem_of_cons in Hj as [Hne Hj]. rewrite IH by done.
  by rewrite set_x_ne.
Qed.

Lemma same_but_y_sym σ σ' : same_but_y σ σ' -> same_but_y σ' σ.
Proof. intros H j. destruct (H j) as (-> & -> & ->). done. Qed.

(** The whole run, with what it leaves alone. *)
Lemma dendrogram_run σ t delta fuel :
  arbor σ t -> height t + 1 <= fuel ->
  exists σ',
    dendrogram fuel σ (Some (root t)) delta = Done σ' /\
    same_skeleton σ σ' /\
    (forall j, j ∉ ids t -> σ' j = σ j) /\
    (forall k l, leaves t !! k = Some l ->
                 dendrogram_x (σ' l) = Some (times k delta)) /\
    solved zero add div_len σ' t /\
    (forall j, j ∈ ids t ->
       exists σj, same_but_y σ' σj /\
                  dendrogram_y (σ' j) = Some (compute_path_length σj j)).
Proof.
  intros [Ht Hnd] Hfuel. unfold compute_arbor_dendrogram, get_arbor_leaves.
  rewrite (get_subtree_leaves_spec t σ None fuel []) by (done || lia).
  simpl. set (σ1 := assign_leaves_x times delta 0 (leaves t) σ).
  pose proof (assign_leaves_x_same times delta (leaves t) 0 σ) as Hs1.
  fold σ1 in Hs1.
  pose proof (same_but_x_skeleton _ _ Hs1) as Hsk1.
  assert (Ht1 : tree_at σ1 None t) by (by eapply tree_at_same_skeleton).
  assert (Hx1 : forall k l, leaves t !! k = Some l ->
                            dendrogram_x (σ1 l) = Some (times k delta)).
  { intros k l Hk. unfold σ1.
    by rewrite (assign_leaves_x_lookup times delta _ (NoDup_leaves t Hnd) 0 σ k l). }
  destruct (run_leaves_spec zero add div_len t σ1 None [] fuel Ht1 Hnd)
    as (σ2 & Hrun & Hs2 & Hout2 & Hleaf & Hsol & _).
  { constructor. by destruct (tree_at_root _ _ _ Ht1). }
  { intros j _. apply not_elem_of_nil. }
  { intros l [k Hk]%list_elem_of_lookup. rewrite (Hx1 k l Hk). by eexists. }
  { simpl. lia. }
  rewrite Hrun. simpl.
  pose proof (same_but_x_skeleton _ _ Hs2) as Hsk2.
  assert (Ht2 : tree_at σ2 None t) by (by eapply tree_at_same_skeleton).
  destruct (down_spec compute_path_length t σ2 None fuel Ht2)
    as (σ3 & Hdown & Hs3 & Hout3 & Hval3); [lia|].
  pose proof (same_but_y_skeleton _ _ Hs3) as Hsk3.
  assert (Hx3 : forall j, dendrogram_x (σ3 j) = dendrogram_x (σ2 j)).
  { intros j. by destruct (Hs3 j) as (_ & _ & ->). }
  exists σ3. split; [done|]. split; [|split; [|split; [|split]]].
  - eauto using same_skeleton_trans.
  - intros j Hj. apply Sec_eq.
    + destruct (Hsk3 j) as [-> _], (Hsk2 j) as [-> _], (Hsk1 j) as [-> _]. done.
    + destruct (Hsk3 j) as [_ ->], (Hsk2 j) as [_ ->], (Hsk1 j) as [_ ->]. done.
    + rewrite Hx3, Hout2; [|apply not_elem_of_nil|done].
      unfold σ1. rewrite assign_leaves_x_notin; [done|].
      intros Hin. by apply Hj, leaves_in_ids.
    + rewrite Hout3 by done. destruct (Hs2 j) as (_ & _ & ->).
      by destruct (Hs1 j) as (_ & _ & ->).
  - intros k l Hk. rewrite Hx3, Hleaf; [by apply Hx1|].
    eapply tree_at_leaf; [exact Ht1|]. by eapply list_elem_of_lookup_2.
  - eapply solved_frame; [exact Ht2|exact Hsk3| |exact Hsol]. auto.
  - intros j Hj. destruct (Hval3 j Hj) as (σj & Hsj & Hy). exists σj.
    split; [|done]. eapply same_but_y_trans; [|exact Hsj].
    by apply same_but_y_sym.
Qed.

(** *** The layout as a function of the tree *)

Lemma layout_x_unfold δ k i ks :
  layout_x δ k (Node i ks) =
  match ks with
  | [] => times k δ
  | _ :: _ => mean (layout_kids δ k ks)
  end.
Proof.
  destruct ks as [|c cs]; [reflexivity|]. simpl. f_equal. f_equal.
  generalize (k + length (leaves c)). clear.
  induction cs as [|c cs IH]; intros k; [reflexivity|].
  simpl. by rewrite IH.
Qed.

Lemma layout_unfold δ k i ks :
  layout δ k (Node i ks) = (i, layout_x δ k (Node i ks)) :: layout_forest δ k ks.
Proof.
  simpl. f_equal. generalize k. clear.
  induction ks as [|c cs IH]; intros k; [reflexivity|].
  simpl. by rewrite IH.
Qed.

Lemma layout_ids δ t : forall k, (layout δ k t).*1 = ids t.
Proof.
  induction t as [i ks IH] using shape_ind'. intros k.
  rewrite layout_unfold. simpl. f_equal. revert k.
  induction ks as [|c cs IHcs]; intros k; [reflexivity|].
  apply Forall_cons in IH as [IHc IH]. simpl.
  rewrite fmap_app, IHc, IHcs by done. done.
Qed.

Lemma children_x_forest σ δ ks :
  forall k,
    (forall s v, (s, v) ∈ layout_forest δ k ks ->
                 dendrogram_x (σ s) = Some v) ->
    children_x σ (map root ks) = Some (layout_kids δ k ks).
Proof.
  induction ks as [|c cs IH]; intros k H; [reflexivity|]. simpl.
  rewrite (H (root c) (layout_x δ k c)).
  - rewrite (IH (k + length (leaves c))); [done|].
    intros s v Hin. apply H. simpl. apply elem_of_app. auto.
  - simpl. apply elem_of_app. left. destruct c as [i ks].
    rewrite layout_unfold. apply elem_of_cons. auto.
Qed.

Definition layout_ok δ t : Prop :=
  forall σ par k,
    tree_at σ par t -> solved zero add div_len σ t ->
    (forall n l, leaves t !! n = Some l ->
                 dendrogram_x (σ l) = Some (times (k + n) δ)) ->
    forall s v, (s, v) ∈ layout δ k t -> dendrogram_x (σ s) = Some v.

Lemma layout_forest_correct δ ks :
  Forall (layout_ok δ) ks ->
  forall σ par k,
    Forall (tree_at σ par) ks ->
    (forall c, c ∈ ks -> solved zero add div_len σ c) ->
    (forall n l, flat_map leaves ks !! n = Some l ->
                 dendrogram_x (σ l) = Some (times (k + n) δ)) ->
    forall s v, (s, v) ∈ layout_forest δ k ks -> dendrogram_x (σ s) = Some v.
Proof.
  induction ks as [|c cs IH]; intros Hall σ par k Ht Hsol Hlv s v Hin.
  { by apply elem_of_nil in Hin. }
  apply Forall_cons in Hall as [Hc Hall]. apply Forall_cons in Ht as [Htc Ht].
  simpl in Hin, Hlv. apply elem_of_app in Hin as [Hin|Hin].
  - apply (Hc σ par k Htc); [apply Hsol, elem_of_cons; auto| |done].
    intros n l Hn. apply Hlv. by apply lookup_app_l_Some.
  - apply (IH Hall σ par (k + length (leaves c)) Ht); [| |done].
    + intros c' Hc'. apply Hsol, elem_of_cons. auto.
    + intros n l Hn. rewrite <- Nat.add_assoc. apply Hlv.
      rewrite lookup_app_r by lia.
      by replace (length (leaves c) + n - length (leaves c)) with n by lia.
Qed.

Lemma layout_correct δ t : layout_ok δ t.
Proof.
  induction t as [i ks IH] using shape_ind'.
  intros σ par k Ht Hsol Hlv.
  inversion Ht as [? ? ? Hp Hc Hk]; subst.
  assert (Hforest : forall s v, (s, v) ∈ layout_forest δ k ks ->
                                dendrogram_x (σ s) = Some v).
  { destruct ks as [|c0 cs0] eqn:Eks.
    { intros s v Hin. by apply elem_of_nil in Hin. }
    rewrite <- Eks in *.
    apply (layout_forest_correct δ ks IH σ (Some i) k Hk).
    - intros c Hcin s Hs. apply Hsol. simpl. apply elem_of_cons. right.
      apply elem_of_flat_map. eauto.
    - intros n l Hn. apply Hlv. by rewrite Eks in *. }
  intros s v Hin. rewrite layout_unfold in Hin.
  apply elem_of_cons in Hin as [[= -> ->]|Hin]; [|by apply Hforest].
  change (dendrogram_x (σ i) = Some (layout_x δ k (Node i ks))).
  rewrite layout_x_unfold. destruct ks as [|c0 cs0] eqn:Eks.
  - rewrite (Hlv 0 i) by done. by rewrite Nat.add_0_r.
  - rewrite <- Eks in *.
    destruct (Hsol i) as [_ Hm]; [simpl; apply elem_of_cons; auto|].
    destruct Hm as (xs & Hxs & ->); [by rewrite Hc, Eks|].
    rewrite Hc, (children_x_forest σ δ ks k Hforest) in Hxs.
    by injection Hxs as <-.
Qed.


(** *** Leaves *)

(** X1: on a finite tree of distinct sections [get_subtree_leaves] returns
    the list it was given followed by the sections of the tree that have
    no children, each once, in depth-first order; [get_arbor_leaves] gives
    the empty list for [None]. *)
Theorem get_subtree_leaves_appends_the_leaves σ par t :
  tree_at σ par t -> NoDup (ids t) ->
  exists fuel0, forall fuel, fuel0 <= fuel ->
    get_arbor_leaves fuel σ None = Done [] /\
    forall acc,
      get_subtree_leaves fuel σ (root t) acc = Done (acc ++ leaves t) /\
      NoDup (leaves t) /\
      (forall l, l ∈ leaves t <-> l ∈ ids t /\ children (σ l) = []).
Proof.
  intros Ht Hnd. exists (height t). intros fuel Hfuel. split; [done|].
  intros acc. split; [by eapply get_subtree_leaves_spec|].
  split; [by apply NoDup_leaves|]. intros l. split.
  - intros Hl. split; [by apply leaves_in_ids|by eapply tree_at_leaf].
  - intros [Hl Hc]. by eapply tree_at_no_children_leaf.
Qed.

(** X2: [compute_arbor_dendrogram] raises [AttributeError] on a [None]
    arbor: the leaves are the empty list and both loops are skipped, but
    the walk for the Y-coordinates then calls a method of [None]. *)
Theorem compute_arbor_dendrogram_none_raises fuel σ delta :
  get_arbor_leaves (S fuel) σ None = Done [] /\
  dendrogram (S fuel) σ None delta = Raise AttributeError.
Proof. split; reflexivity. Qed.

(** *** What the layout touches *)

(** X3: [compute_arbor_dendrogram] leaves every section outside the
    arbor as it was, and changes no parent or children link anywhere. *)
Theorem compute_arbor_dendrogram_changes_only_the_arbor σ t delta :
  arbor σ t ->
  exists fuel0, forall fuel, fuel0 <= fuel ->
    exists σ',
      dendrogram fuel σ (Some (root t)) delta = Done σ' /\
      (forall j, j ∉ ids t -> σ' j = σ j) /\
      (forall j, parent (σ' j) = parent (σ j) /\
                 children (σ' j) = children (σ j)).
Proof.
  intros Harbor. exists (height t + 1). intros fuel Hfuel.
  destruct (dendrogram_run σ t delta fuel Harbor Hfuel)
    as (σ' & Hrun & Hsk & Hout & _).
  exists σ'. auto.
Qed.

(** X4: after [compute_arbor_dendrogram] the X-coordinate of every
    section of the arbor is the one of the layout computed from the tree
    alone: [k * delta] for the [k]-th leaf, the mean of the children for
    the other sections. *)
Theorem compute_arbor_dendrogram_is_the_layout σ t delta :
  arbor σ t ->
  exists fuel0, forall fuel, fuel0 <= fuel ->
    exists σ',
      dendrogram fuel σ (Some (root t)) delta = Done σ' /\
      (layout delta 0 t).*1 = ids t /\
      forall s v, (s, v) ∈ layout delta 0 t -> dendrogram_x (σ' s) = Some v.
Proof.
  intros Harbor. exists (height t + 1). intros fuel Hfuel.
  destruct (dendrogram_run σ t delta fuel Harbor Hfuel)
    as (σ' & Hrun & Hsk & Hout & Hlv & Hsol & _).
  destruct Harbor as [Ht Hnd].
  exists σ'. split; [done|]. split; [apply layout_ids|].
  apply (layout_correct delta t σ' None 0); [|done|done].
  by eapply tree_at_same_skeleton.
Qed.

Lemma layout_determines σ t delta :
  tree_at σ None t ->
  (forall s v, (s, v) ∈ layout delta 0 t -> dendrogram_x (σ s) = Some v) ->
  forall s, s ∈ ids t ->
    exists v, (s, v) ∈ layout delta 0 t /\ dendrogram_x (σ s) = Some v.
Proof.
  intros Ht Hl s Hs. rewrite <- (layout_ids delta t 0) in Hs.
  apply list_elem_of_fmap in Hs as ([s' v] & -> & Hin). eauto.
Qed.

(** X5: the X-coordinates that [compute_arbor_dendrogram] computes do
    not depend on the coordinates the sections had before: two stores
    holding the same arbor end with the same X-coordinates on it. *)
Theorem compute_arbor_dendrogram_ignores_old_coordinates σ1 σ2 t delta :
  arbor σ1 t -> arbor σ2 t ->
  exists fuel0, forall fuel, fuel0 <= fuel ->
    exists σ1' σ2',
      dendrogram fuel σ1 (Some (root t)) delta = Done σ1' /\
      dendrogram fuel σ2 (Some (root t)) delta = Done σ2' /\
      forall s, s ∈ ids t -> dendrogram_x (σ1' s) = dendrogram_x (σ2' s).
Proof.
  intros H1 H2. exists (height t + 1). intros fuel Hfuel.
  destruct (dendrogram_run σ1 t delta fuel H1 Hfuel)
    as (σ1' & Hrun1 & Hsk1 & _ & Hlv1 & Hsol1 & _).
  destruct (dendrogram_run σ2 t delta fuel H2 Hfuel)
    as (σ2' & Hrun2 & Hsk2 & _ & Hlv2 & Hsol2 & _).
  destruct H1 as [Ht1 _], H2 as [Ht2 _].
  exists σ1', σ2'. split; [done|]. split; [done|]. intros s Hs.
  rewrite <- (layout_ids delta t 0) in Hs.
  apply list_elem_of_fmap in Hs as ([s' v] & -> & Hin). simpl.
  rewrite (layout_correct delta t σ1' None 0) with (v := v); [| |done|done|done].
  - symmetry. apply (layout_correct delta t σ2' None 0); [|done|done|done].
    by eapply tree_at_same_skeleton.
  - by eapply tree_at_same_skeleton.
Qed.

(** X6: [compute_arbor_dendrogram] is idempotent: run again on its own
    result it returns a store with the same sections. The path length of
    a section is taken not to depend on the Y-coordinates. *)
Theorem compute_arbor_dendrogram_twice σ t delta :
  (forall σ1 σ2 s, same_but_y σ1 σ2 ->
                   compute_path_length σ2 s = compute_path_length σ1 s) ->
  arbor σ t ->
  exists fuel0, forall fuel, fuel0 <= fuel ->
    exists σ' σ'',
      dendrogram fuel σ (Some (root t)) delta = Done σ' /\
      dendrogram fuel σ' (Some (root t)) delta = Done σ'' /\
      forall j, σ'' j = σ' j.
Proof.
  intros Hpl Harbor. exists (height t + 1). intros fuel Hfuel.
  destruct (dendrogram_run σ t delta fuel Harbor Hfuel)
    as (σ' & Hrun & Hsk & Hout & Hlv & Hsol & Hy).
  assert (Harbor' : arbor σ' t).
  { destruct Harbor as [Ht Hnd]. split; [|done].
    by eapply tree_at_same_skeleton. }
  destruct (dendrogram_run σ' t delta fuel Harbor' Hfuel)
    as (σ'' & Hrun' & Hsk' & Hout' & Hlv' & Hsol' & Hy').
  destruct Harbor' as [Ht' _].
  assert (Ht'' : tree_at σ'' None t) by (by eapply tree_at_same_skeleton).
  assert (Hx : forall j, dendrogram_x (σ'' j) = dendrogram_x (σ' j)).
  { intros j. destruct (decide (j ∈ ids t)) as [Hin|Hnin].
    - rewrite <- (layout_ids delta t 0) in Hin.
      apply list_elem_of_fmap in Hin as ([s v] & -> & Hin). simpl.
      rewrite (layout_correct delta t σ'' None 0 Ht'' Hsol') with (v := v);
        [|done|done].
      symmetry. by apply (layout_correct delta t σ' None 0 Ht' Hsol).
    - by rewrite Hout'. }
  assert (Hsame : same_but_y σ' σ'').
  { intros j. destruct (Hsk' j) as [-> ->]. by rewrite Hx. }
  exists σ', σ''. split; [done|]. split; [done|]. intros j.
  destruct (decide (j ∈ ids t)) as [Hin|Hnin]; [|by apply Hout'].
  apply Sec_eq; [by destruct (Hsk' j)..|apply Hx|].
  destruct (Hy j Hin) as (σa & Hsa & ->).
  destruct (Hy' j Hin) as (σb & Hsb & ->). f_equal.
  rewrite (Hpl σ'' σb j Hsb), (Hpl σ' σa j Hsa). by apply Hpl.
Qed.

(** *** One walk towards the root *)

Lemma children_x_unset σ cs c :
  c ∈ cs -> dendrogram_x (σ c) = None -> children_x σ cs = None.
Proof.
  induction cs as [|c' cs IH]; intros Hin Hx; [by apply elem_of_nil in Hin|].
  simpl. apply elem_of_cons in Hin as [->|Hin].
  - by rewrite Hx.
  - rewrite (IH Hin Hx). by destruct (dendrogram_x (σ c')).
Qed.

(** X7: [compute_dendrogram_x_coordinates_for_parents] returns at once,
    writing nothing, when a child of the section's parent has no
    X-coordinate yet. *)
Theorem compute_dendrogram_x_coordinates_for_parents_returns_at_unset_sibling
    fuel σ s p c :
  parent (σ s) = Some p ->
  c ∈ children (σ p) ->
  dendrogram_x (σ c) = None ->
  compute_dendrogram_x_coordinates_for_parents zero add div_len
    (S fuel) σ (Some s)
  = Done σ.
Proof.
  intros Hp Hc Hx. rewrite up_unfold, Hp, sum_children_x_spec.
  by rewrite (children_x_unset σ _ c Hc Hx).
Qed.

(** X8: started at a section with a finite chain of ancestors,
    [compute_dendrogram_x_coordinates_for_parents] returns and changes
    only the X-coordinates of those ancestors: every other section,
    the starting section included, is as before, and so are all links
    and Y-coordinates. *)
Theorem compute_dendrogram_x_coordinates_for_parents_writes_ancestors_only
    σ s anc :
  ctx σ s anc ->
  exists fuel0, forall fuel, fuel0 <= fuel ->
    exists σ',
      up fuel σ (Some s) = Done σ' /\
      (forall j, j ∉ anc -> σ' j = σ j) /\
      (forall j, parent (σ' j) = parent (σ j) /\
                 children (σ' j) = children (σ j) /\
                 dendrogram_y (σ' j) = dendrogram_y (σ j)).
Proof.
  intros Hctx. exists (length anc + 2). intros fuel Hfuel.
  destruct (up_spec zero add div_len anc σ s fuel Hctx Hfuel)
    as (σ' & Hrun & Hsame & Hout & _).
  exists σ'. split; [done|]. split; [|exact Hsame].
  intros j Hj. destruct (Hsame j) as (Hp & Hc & Hy).
  apply Sec_eq; auto.
Qed.

(** *** The whole morphology *)

Local Abbreviation morphology_dendrogram :=
  (compute_morphology_dendrogram zero add div_len times compute_path_length).

Lemma res_bind_done {A} (m : res A) : (m ≫= Done) = m.
Proof. by destruct m. Qed.

Lemma compute_morphology_dendrogram_for_each fuel σ m delta :
  morphology_dendrogram fuel σ m delta =
  for_each (fun σ a => dendrogram fuel σ (Some a) delta) (arbors_of m) σ.
Proof.
  unfold compute_morphology_dendrogram, arbors_of.
  destruct m as [ap ds ax]; simpl. rewrite !for_each_app.
  assert (Hopt : forall (o : option id) σ,
            for_each (fun σ a => dendrogram fuel σ (Some a) delta)
                     (option_list o) σ
            = match o with
              | Some a => dendrogram fuel σ (Some a) delta
              | None => Done σ
              end).
  { intros [a|] σ1; simpl; [apply res_bind_done|done]. }
  rewrite Hopt. destruct (match ap with Some _ => _ | None => _ end); simpl;
    [|done..].
  destruct ds as [ds|]; simpl.
  - rewrite for_each_app. destruct (for_each _ ds a); simpl; [|done..].
    by rewrite Hopt.
  - by rewrite Hopt.
Qed.

Lemma run_arbors delta fuel ts :
  forall σ,
    Forall (arbor σ) ts -> NoDup (flat_map ids ts) ->
    (forall t, t ∈ ts -> height t + 1 <= fuel) ->
    exists σ',
      for_each (fun σ a => dendrogram fuel σ (Some a) delta) (map root ts) σ
      = Done σ' /\
      same_skeleton σ σ' /\
      (forall j, j ∉ flat_map ids ts -> σ' j = σ j) /\
      (forall t, t ∈ ts ->
         forall s v, (s, v) ∈ layout delta 0 t -> dendrogram_x (σ' s) = Some v).
Proof.
  induction ts as [|t ts IH]; intros σ Hall Hnd Hfuel.
  { exists σ. split; [done|]. split; [apply same_skeleton_refl|].
    split; [done|]. intros t Ht. by apply elem_of_nil in Ht. }
  apply Forall_cons in Hall as [Harbor Hall].
  simpl in Hnd. apply NoDup_app in Hnd as (Hndt & Hsep & Hndts).
  destruct (dendrogram_run σ t delta fuel Harbor)
    as (σ1 & Hrun1 & Hsk1 & Hout1 & Hlv1 & Hsol1 & _).
  { apply Hfuel, elem_of_cons; auto. }
  destruct (IH σ1) as (σ' & Hrun & Hsk & Hout & Hlay); [|done| |].
  { eapply Forall_impl; [exact Hall|]. intros t' [Ht' Hnd']. split; [|done].
    by eapply tree_at_same_skeleton. }
  { intros t' Hin. apply Hfuel, elem_of_cons; auto. }
  exists σ'. split; [|split; [|split]].
  - simpl. rewrite Hrun1. simpl. exact Hrun.
  - eauto using same_skeleton_trans.
  - intros j Hj. simpl in Hj. apply not_elem_of_app in Hj as [Hj1 Hj2].
    by rewrite Hout, Hout1.
  - intros t' [->|Hin]%elem_of_cons; [|by apply Hlay].
    intros s v Hsv. rewrite Hout.
    + destruct Harbor as [Ht _].
      apply (layout_correct delta t σ1 None 0); [|done|done|done].
      by eapply tree_at_same_skeleton.
    + apply Hsep. rewrite <- (layout_ids delta t 0).
      apply list_elem_of_fmap. by exists (s, v).
Qed.

(** X9: [compute_morphology_dendrogram] lays out the apical dendrite,
    then the basal dendrites, then the axon, skipping those that are
    [None]. When these arbors are finite and share no section, it
    returns, every arbor carries its own layout (each arbor's leaves
    start again at [0]), and the sections of no arbor are untouched. *)
Theorem compute_morphology_dendrogram_lays_out_every_arbor σ m ts delta :
  map root ts = arbors_of m ->
  Forall (arbor σ) ts ->
  NoDup (flat_map ids ts) ->
  exists fuel0, forall fuel, fuel0 <= fuel ->
    exists σ',
      morphology_dendrogram fuel σ m delta = Done σ' /\
      (forall t, t ∈ ts ->
         forall s v, (s, v) ∈ layout delta 0 t -> dendrogram_x (σ' s) = Some v) /\
      (forall j, j ∉ flat_map ids ts -> σ' j = σ j).
Proof.
  intros Hroots Hall Hnd. exists (list_max (map height ts) + 1).
  intros fuel Hfuel.
  destruct (run_arbors delta fuel ts σ Hall Hnd)
    as (σ' & Hrun & _ & Hout & Hlay).
  { intros t Hin.
    assert (height t <= list_max (map height ts)); [|lia].
    apply list_max_ge, list_elem_of_fmap. eauto. }
  exists σ'. split; [|auto].
  by rewrite compute_morphology_dendrogram_for_each, <- Hroots.
Qed.

End Facts.

(** The sample arbor again, and the same arbor with old coordinates. *)
Local Abbreviation sample_dendrogram :=
  (compute_arbor_dendrogram 0%Q Sample.qadd Sample.qdiv Sample.qtimes
     Sample.path_length0).
Local Abbreviation sample_up :=
  (compute_dendrogram_x_coordinates_for_parents 0%Q Sample.qadd Sample.qdiv).
Local Abbreviation sample_layout_of :=
  (layout 0%Q Sample.qadd Sample.qdiv Sample.qtimes).

Definition sample_stale : store Q :=
  fun i => with_x 99%Q (with_y 7%Q (Sample.σ0 i)).

Example sample_layout_list :
  sample_layout_of 10%Q 0 Sample.t0 =
  [(0, 15%Q); (1, 0%Q); (2, 15%Q); (3, 10%Q); (4, 20%Q); (5, 20%Q);
   (6, 30%Q)].
Proof. vm_compute. reflexivity. Qed.

Example sample_stale_same_layout :
  Sample.xs_of (sample_dendrogram 5 sample_stale (Some 0) 10%Q)
               [0; 1; 2; 3; 4; 5; 6; 7]
  = [Some 15%Q; Some 0%Q; Some 15%Q; Some 10%Q; Some 20%Q; Some 20%Q;
     Some 30%Q; Some 99%Q].
Proof. vm_compute. reflexivity. Qed.

Ltac sample_arbor :=
  split; [repeat constructor|apply (bool_decide_unpack _); vm_compute; reflexivity].

Lemma get_subtree_leaves_appends_the_leaves_witness :
  tree_at Sample.σ0 None Sample.t0 /\ NoDup (ids Sample.t0) /\
  exists fuel0, forall fuel, fuel0 <= fuel ->
    get_arbor_leaves fuel Sample.σ0 None = Done [] /\
    forall acc,
      get_subtree_leaves fuel Sample.σ0 (root Sample.t0) acc
      = Done (acc ++ leaves Sample.t0) /\
      NoDup (leaves Sample.t0) /\
      (forall l, l ∈ leaves Sample.t0 <->
                 l ∈ ids Sample.t0 /\ children (Sample.σ0 l) = []).
Proof.
  assert (Ht : tree_at Sample.σ0 None Sample.t0) by repeat constructor.
  assert (Hnd : NoDup (ids Sample.t0))
    by (apply (bool_decide_unpack _); vm_compute; reflexivity).
  split; [exact Ht|]. split; [exact Hnd|].
  exact (get_subtree_leaves_appends_the_leaves Sample.σ0 None Sample.t0 Ht Hnd).
Defined.

Lemma compute_arbor_dendrogram_changes_only_the_arbor_witness :
  arbor sample_stale Sample.t0 /\
  exists fuel0, forall fuel, fuel0 <= fuel ->
    exists σ',
      sample_dendrogram fuel sample_stale (Some (root Sample.t0)) 10%Q
      = Done σ' /\
      (forall j, j ∉ ids Sample.t0 -> σ' j = sample_stale j) /\
      (forall j, parent (σ' j) = parent (sample_stale j) /\
                 children (σ' j) = children (sample_stale j)).
Proof.
  assert (Ha : arbor sample_stale Sample.t0) by sample_arbor.
  split; [exact Ha|].
  exact (compute_arbor_dendrogram_changes_only_the_arbor 0%Q Sample.qadd
           Sample.qdiv Sample.qtimes Sample.path_length0 sample_stale
           Sample.t0 10%Q Ha).
Defined.

Lemma compute_arbor_dendrogram_is_the_layout_witness :
  arbor sample_stale Sample.t0 /\
  exists fuel0, forall fuel, fuel0 <= fuel ->
    exists σ',
      sample_dendrogram fuel sample_stale (Some (root Sample.t0)) 10%Q
      = Done σ' /\
      (sample_layout_of 10%Q 0 Sample.t0).*1 = ids Sample.t0 /\
      forall s v, (s, v) ∈ sample_layout_of 10%Q 0 Sample.t0 ->
                  dendrogram_x (σ' s) = Some v.
Proof.
  assert (Ha : arbor sample_stale Sample.t0) by sample_arbor.
  split; [exact Ha|].
  exact (compute_arbor_dendrogram_is_the_layout 0%Q Sample.qadd
           Sample.qdiv Sample.qtimes Sample.path_length0 sample_stale
           Sample.t0 10%Q Ha).
Defined.

Lemma compute_arbor_dendrogram_ignores_old_coordinates_witness :
  arbor Sample.σ0 Sample.t0 /\ arbor sample_stale Sample.t0 /\
  exists fuel0, forall fuel, fuel0 <= fuel ->
    exists σ1' σ2',
      sample_dendrogram fuel Sample.σ0 (Some (root Sample.t0)) 10%Q
      = Done σ1' /\
      sample_dendrogram fuel sample_stale (Some (root Sample.t0)) 10%Q
      = Done σ2' /\
      forall s, s ∈ ids Sample.t0 ->
                dendrogram_x (σ1' s) = dendrogram_x (σ2' s).
Proof.
  assert (H1 : arbor Sample.σ0 Sample.t0) by sample_arbor.
  assert (H2 : arbor sample_stale Sample.t0) by sample_arbor.
  split; [exact H1|]. split; [exact H2|].
  exact (compute_arbor_dendrogram_ignores_old_coordinates 0%Q Sample.qadd
           Sample.qdiv Sample.qtimes Sample.path_length0 Sample.σ0
           sample_stale Sample.t0 10%Q H1 H2).
Defined.

Lemma compute_arbor_dendrogram_twice_witness :
  (forall σ1 σ2 s, same_but_y σ1 σ2 ->
                   Sample.path_length0 σ2 s = Sample.path_length0 σ1 s) /\
  arbor Sample.σ0 Sample.t0 /\
  exists fuel0, forall fuel, fuel0 <= fuel ->
    exists σ' σ'',
      sample_dendrogram fuel Sample.σ0 (Some (root Sample.t0)) 10%Q
      = Done σ' /\
      sample_dendrogram fuel σ' (Some (root Sample.t0)) 10%Q = Done σ'' /\
      forall j, σ'' j = σ' j.
Proof.
  assert (Hpl : forall (σ1 σ2 : store Q) s, same_but_y σ1 σ2 ->
            Sample.path_length0 σ2 s = Sample.path_length0 σ1 s)
    by (intros; reflexivity).
  assert (Ha : arbor Sample.σ0 Sample.t0) by sample_arbor.
  split; [exact Hpl|]. split; [exact Ha|].
  exact (compute_arbor_dendrogram_twice 0%Q Sample.qadd Sample.qdiv
           Sample.qtimes Sample.path_length0 Sample.σ0 Sample.t0 10%Q Hpl Ha).
Defined.

Lemma compute_dendrogram_x_coordinates_for_parents_returns_at_unset_sibling_witness :
  parent (Sample.σ0 3) = Some 2 /\
  4 ∈ children (Sample.σ0 2) /\
  dendrogram_x (Sample.σ0 4) = None /\
  sample_up 4 Sample.σ0 (Some 3) = Done Sample.σ0.
Proof.
  assert (H2 : 4 ∈ children (Sample.σ0 2))
    by (apply list_elem_of_further, list_elem_of_here).
  split; [reflexivity|]. split; [exact H2|]. split; [reflexivity|].
  exact (compute_dendrogram_x_coordinates_for_parents_returns_at_unset_sibling
           0%Q Sample.qadd Sample.qdiv 3 Sample.σ0 3 2 4 eq_refl H2 eq_refl).
Defined.

Ltac decide_it := apply (bool_decide_unpack _); vm_compute; reflexivity.

Ltac each_child :=
  let c := fresh "c" in
  let H := fresh "H" in
  intros c H; simpl in H;
  repeat (apply elem_of_cons in H as [->|H]; [decide_it|]);
  by apply elem_of_nil in H.

Lemma sample_ctx : ctx Sample.σ0 5 [4; 2; 0].
Proof.
  apply ctx_up; [reflexivity|decide_it|decide_it|decide_it|each_child|].
  apply ctx_up; [reflexivity|decide_it|decide_it|decide_it|each_child|].
  apply ctx_up; [reflexivity|decide_it|decide_it|decide_it|each_child|].
  by apply ctx_top.
Qed.

Lemma compute_dendrogram_x_coordinates_for_parents_writes_ancestors_only_witness :
  ctx Sample.σ0 5 [4; 2; 0] /\
  exists fuel0, forall fuel, fuel0 <= fuel ->
    exists σ',
      sample_up fuel Sample.σ0 (Some 5) = Done σ' /\
      (forall j, j ∉ [4; 2; 0] -> σ' j = Sample.σ0 j) /\
      (forall j, parent (σ' j) = parent (Sample.σ0 j) /\
                 children (σ' j) = children (Sample.σ0 j) /\
                 dendrogram_y (σ' j) = dendrogram_y (Sample.σ0 j)).
Proof.
  split; [exact sample_ctx|].
  exact (compute_dendrogram_x_coordinates_for_parents_writes_ancestors_only
           0%Q Sample.qadd Sample.qdiv Sample.σ0 5 [4; 2; 0] sample_ctx).
Defined.

(** A morphology with the sample arbor as apical dendrite and two
    one-section arbors. *)
Definition sample_morphology : Morphology :=
  mkMorphology (Some 0) (Some [7]) (Some 8).
Definition sample_arbors : list shape :=
  [Sample.t0; Node 7 []; Node 8 []].

Example sample_morphology_layout :
  Sample.xs_of
    (compute_morphology_dendrogram 0%Q Sample.qadd Sample.qdiv Sample.qtimes
       Sample.path_length0 5 Sample.σ0 sample_morphology 10%Q)
    [0; 1; 6; 7; 8; 9]
  = [Some 15%Q; Some 0%Q; Some 30%Q; Some 0%Q; Some 0%Q; None].
Proof. vm_compute. reflexivity. Qed.

Lemma compute_morphology_dendrogram_lays_out_every_arbor_witness :
  map root sample_arbors = arbors_of sample_morphology /\
  Forall (arbor Sample.σ0) sample_arbors /\
  NoDup (flat_map ids sample_arbors) /\
  exists fuel0, forall fuel, fuel0 <= fuel ->
    exists σ',
      compute_morphology_dendrogram 0%Q Sample.qadd Sample.qdiv Sample.qtimes
        Sample.path_length0 fuel Sample.σ0 sample_morphology 10%Q = Done σ' /\
      (forall t, t ∈ sample_arbors ->
         forall s v, (s, v) ∈ sample_layout_of 10%Q 0 t ->
                     dendrogram_x (σ' s) = Some v) /\
      (forall j, j ∉ flat_map ids sample_arbors -> σ' j = Sample.σ0 j).
Proof.
  assert (H1 : map root sample_arbors = arbors_of sample_morphology)
    by reflexivity.
  assert (H2 : Forall (arbor Sample.σ0) sample_arbors)
    by (repeat (apply List.Forall_cons; [sample_arbor|]); apply List.Forall_nil).
  assert (H3 : NoDup (flat_map ids sample_arbors))
    by (apply (bool_decide_unpack _); vm_compute; reflexivity).
  split; [exact H1|]. split; [exact H2|]. split; [exact H3|].
  exact (compute_morphology_dendrogram_lays_out_every_arbor 0%Q Sample.qadd
           Sample.qdiv Sample.qtimes Sample.path_length0 Sample.σ0
           sample_morphology sample_arbors 10%Q H1 H2 H3).
Defined.

End DendrogramLayoutFacts.

(** * Further properties of the poly-line walk *)

Module PolyLineWalkFacts.
Import Skeleton SkeletonFacts Builder BuilderFacts.

Lemma filter_flat_map {A B} (f : B -> bool) (g : A -> list B) (l : list A) :
  List.filter f (flat_map g l) = flat_map (fun a => List.filter f (g a)) l.
Proof.
  induction l as [|a l IH]; simpl; [done|].
  by rewrite List.filter_app, IH.
Qed.

Lemma Forall_flat_map {A B} (P : B -> Prop) (g : A -> list B) (l : list A) :
  (forall a, Forall P (g a)) -> Forall P (flat_map g l).
Proof.
  intros H. induction l as [|a l IH]; simpl; [constructor|].
  apply Forall_app. auto.
Qed.

Section Facts.
Context {num label samples : Type}.
Variable get_section_poly_line : id -> samples.
Variable GRAY_MATERIAL_INDEX : Z.
Variable BASAL_DENDRITES_PREFIX : label.
Implicit Types (σ : store num) (t : shape) (b : Z).

Local Abbreviation PL := (PolyLine label samples).
Local Abbreviation construct :=
  (construct_tree_poly_lines get_section_poly_line GRAY_MATERIAL_INDEX
     BASAL_DENDRITES_PREFIX).
Local Abbreviation expected :=
  (expected get_section_poly_line GRAY_MATERIAL_INDEX BASAL_DENDRITES_PREFIX).

Lemma expected_basal max msi hl t :
  forall b,
    Forall (fun pl : PL => fst (name pl) = BASAL_DENDRITES_PREFIX)
           (expected max msi hl BASAL_DENDRITES_PREFIX b t).
Proof.
  induction t as [i ks IH] using shape_ind'. intros b.
  rewrite expected_unfold. destruct (max <? b)%Z; [constructor|].
  constructor; [done|].
  induction ks as [|k ks IHks]; simpl; [constructor|].
  apply Forall_cons in IH as [IHk IH]. apply Forall_app. auto.
Qed.

Lemma expected_orders max msi hl t :
  forall prefix b,
    Forall (fun pl : PL => (b <= snd (name pl) <= max)%Z)
           (expected max msi hl prefix b t).
Proof.
  induction t as [i ks IH] using shape_ind'. intros prefix b.
  rewrite expected_unfold. destruct (max <? b)%Z eqn:Hb; [constructor|].
  apply Z.ltb_ge in Hb. constructor; [simpl; lia|].
  induction ks as [|k ks IHks]; simpl; [constructor|].
  apply Forall_cons in IH as [IHk IH]. apply Forall_app. split; [|auto].
  eapply Forall_impl; [apply IHk|]. simpl. intros pl Hpl. lia.
Qed.

(** X10: the poly-line of the section the walk is started at is named
    with the prefix passed by the caller, and every poly-line below it
    with [BASAL_DENDRITES_PREFIX], whatever that prefix was: the recursive
    call does not pass the prefix on. *)
Theorem construct_tree_poly_lines_names_children_basal σ par t (L : list PL)
    b max prefix msi hl :
  tree_at σ par t ->
  exists fuel0, forall fuel, fuel0 <= fuel ->
    exists new,
      construct fuel σ (Some (root t)) L b max prefix msi hl
      = Done (L ++ new) /\
      (forall pl, head new = Some pl -> name pl = (prefix, (b + 1)%Z)) /\
      Forall (fun pl => fst (name pl) = BASAL_DENDRITES_PREFIX) (tail new).
Proof.
  intros Ht. exists (height t). intros fuel Hfuel.
  exists (expected max msi hl prefix (b + 1) t). split; [|split].
  - apply construct_spec; [by eapply tree_at_visited|done].
  - destruct t as [i ks]. rewrite expected_unfold.
    destruct (max <? b + 1)%Z; [done|]. simpl. by intros pl [= <-].
  - destruct t as [i ks]. rewrite expected_unfold.
    destruct (max <? b + 1)%Z; [constructor|]. simpl.
    apply Forall_flat_map. intros k. apply expected_basal.
Qed.

Lemma expected_filter max max' msi hl t :
  (max <= max')%Z ->
  forall prefix b,
    expected max msi hl prefix b t
    = List.filter (fun pl : PL => (snd (name pl) <=? max)%Z)
                  (expected max' msi hl prefix b t).
Proof.
  intros Hle. induction t as [i ks IH] using shape_ind'. intros prefix b.
  rewrite (expected_unfold _ _ _ max), (expected_unfold _ _ _ max').
  destruct (max <? b)%Z eqn:Hb.
  - apply Z.ltb_lt in Hb. symmetry. apply filter_none. intros pl Hin.
    assert (Hall := expected_orders max' msi hl (Node i ks) prefix b).
    rewrite expected_unfold in Hall. rewrite Forall_forall in Hall.
    specialize (Hall pl Hin). apply Z.leb_gt. lia.
  - apply Z.ltb_ge in Hb.
    assert (Hb' : (max' <? b)%Z = false) by (apply Z.ltb_ge; lia).
    rewrite Hb'. simpl.
    assert (Hhead : (b <=? max)%Z = true) by (apply Z.leb_le; lia).
    rewrite Hhead. f_equal. rewrite filter_flat_map.
    induction ks as [|k ks IHks]; simpl; [done|].
    apply Forall_cons in IH as [IHk IH]. by rewrite IHk, IHks.
Qed.

(** X11: raising [max_branching_order] only adds poly-lines: the list
    built with a bound is the list built with any larger bound, cut down
    to the poly-lines whose order is within the smaller bound. *)
Theorem construct_tree_poly_lines_monotone_in_the_bound σ par t (L : list PL)
    b max max' prefix msi hl :
  tree_at σ par t -> (max <= max')%Z ->
  exists fuel0, forall fuel, fuel0 <= fuel ->
    exists new new',
      construct fuel σ (Some (root t)) L b max prefix msi hl
      = Done (L ++ new) /\
      construct fuel σ (Some (root t)) L b max' prefix msi hl
      = Done (L ++ new') /\
      new = List.filter (fun pl => (snd (name pl) <=? max)%Z) new'.
Proof.
  intros Ht Hle. exists (height t). intros fuel Hfuel.
  exists (expected max msi hl prefix (b + 1) t),
         (expected max' msi hl prefix (b + 1) t).
  split; [|split].
  - apply construct_spec; [by eapply tree_at_visited|done].
  - apply construct_spec; [by eapply tree_at_visited|done].
  - by apply expected_filter.
Qed.

End Facts.

Lemma construct_tree_poly_lines_names_children_basal_witness :
  tree_at Sample.σ0 None Sample.t0 /\
  exists fuel0, forall fuel, fuel0 <= fuel ->
    exists new,
      construct_tree_poly_lines (fun i => i) 8%Z "basal" fuel Sample.σ0
        (Some (root Sample.t0)) [] 0%Z 3%Z "axon" 6%Z true
      = Done ([] ++ new) /\
      (forall pl : PolyLine string id,
         head new = Some pl -> name pl = ("axon", (0 + 1)%Z)) /\
      Forall (fun pl => fst (name pl) = "basal") (tail new).
Proof.
  split; [repeat constructor|].
  apply (construct_tree_poly_lines_names_children_basal (fun i => i) 8%Z
           "basal" Sample.σ0 None Sample.t0 [] 0%Z 3%Z "axon" 6%Z true).
  repeat constructor.
Defined.

Lemma construct_tree_poly_lines_monotone_in_the_bound_witness :
  tree_at Sample.σ0 None Sample.t0 /\ (2 <= 3)%Z /\
  exists fuel0, forall fuel, fuel0 <= fuel ->
    exists new new' : list (PolyLine string id),
      construct_tree_poly_lines (fun i => i) 8%Z "basal" fuel Sample.σ0
        (Some (root Sample.t0)) [] 0%Z 2%Z "axon" 6%Z true
      = Done ([] ++ new) /\
      construct_tree_poly_lines (fun i => i) 8%Z "basal" fuel Sample.σ0
        (Some (root Sample.t0)) [] 0%Z 3%Z "axon" 6%Z true
      = Done ([] ++ new') /\
      new = List.filter (fun pl => (snd (name pl) <=? 2)%Z) new'.
Proof.
  split; [repeat constructor|]. split; [lia|].
  apply (construct_tree_poly_lines_monotone_in_the_bound (fun i => i) 8%Z
           "basal" Sample.σ0 None Sample.t0 [] 0%Z 2%Z 3%Z "axon" 6%Z true);
    [repeat constructor|lia].
Defined.

End PolyLineWalkFacts.

(** * Properties of the articulation spheres *)

Module ArticulationsFacts.
Import Skeleton SkeletonFacts Builder BuilderFacts Articulations.

Lemma last_None_nil {A} (l : list A) : last l = None <-> l = [].
Proof.
  split; [|by intros ->]. destruct l as [|a l] using rev_ind; [done|].
  by rewrite last_snoc.
Qed.

Lemma length_filter_flat_map {A B} (f : B -> bool) (g : A -> list B) l :
  length (List.filter f (flat_map g l))
  = list_sum (map (fun a => length (List.filter f (g a))) l).
Proof.
  induction l as [|a l IH]; simpl; [done|].
  by rewrite List.filter_app, length_app, IH.
Qed.

Section Facts.
Context {num point pl_point bmesh : Type}.
Variable section_samples : id -> list (point * num).
Variable get_section_poly_line : id -> list (pl_point * num).
Variable vector_of : pl_point -> point.
Variable create_ico_sphere : num -> point -> bmesh.
Variable grow : num -> num.
Variable mul : num -> num -> num.
Variable gt : num -> num -> bool.
Implicit Types (σ : store num) (t : shape).

Local Abbreviation widen := (widen get_section_poly_line gt).
Local Abbreviation terminal :=
  (draw_section_terminal_as_sphere get_section_poly_line vector_of
     create_ico_sphere grow mul gt).
Local Abbreviation terminals :=
  (draw_section_terminals_as_spheres section_samples get_section_poly_line
     vector_of create_ico_sphere grow mul gt).

(** The first radius of the poly-line of each child. *)
Definition first_radii (cs : list id) (crs : list num) : Prop :=
  Forall2 (fun c cr => exists p, head (get_section_poly_line c) = Some (p, cr))
          cs crs.

Lemma widen_head r c p cr :
  head (get_section_poly_line c) = Some (p, cr) ->
  widen r c = Done (if gt cr r then cr else r).
Proof. unfold Articulations.widen. by intros ->. Qed.

Lemma widen_nil r c :
  get_section_poly_line c = [] -> widen r c = Raise IndexError.
Proof. unfold Articulations.widen. by intros ->. Qed.

Lemma widen_loop cs crs :
  (forall x : num, gt x x = false) ->
  (forall x y z : num, gt x y = true -> gt y z = true -> gt x z = true) ->
  first_radii cs crs ->
  forall r0 seen,
    r0 ∈ seen -> (forall c, c ∈ seen -> gt c r0 = false) ->
    exists r,
      for_each widen cs r0 = Done r /\
      r ∈ seen ++ crs /\
      forall c, c ∈ seen ++ crs -> gt c r = false.
Proof.
  intros Hirr Htrans. induction 1 as [|c cr cs crs [p Hp] _ IH];
    intros r0 seen Hin Hmax.
  { exists r0. rewrite app_nil_r. auto. }
  simpl. rewrite (widen_head _ _ _ _ Hp). simpl.
  set (r1 := if gt cr r0 then cr else r0).
  destruct (IH r1 (seen ++ [cr])) as (r & Hrun & Hr & Hall).
  - unfold r1. apply elem_of_app. destruct (gt cr r0).
    + right. apply elem_of_cons. auto.
    + auto.
  - intros c' [Hc'|Hc']%elem_of_app.
    + unfold r1. destruct (gt cr r0) eqn:Hgt; [|auto].
      destruct (gt c' cr) eqn:Hc'cr; [|done].
      rewrite <- (Hmax c' Hc'). symmetry. by eapply Htrans.
    + apply elem_of_cons in Hc' as [->|Hc']; [|by apply elem_of_nil in Hc'].
      unfold r1. destruct (gt cr r0) eqn:Hgt; auto.
  - exists r. rewrite <- app_assoc in Hr, Hall. auto.
Qed.

(** X12: when [>] on radii is a strict order and the poly-lines at hand
    are not empty, [draw_section_terminal_as_sphere] appends one sphere,
    placed at the last point of the section's poly-line; its radius comes
    from the widest of the section's last radius and the first radii of
    its children: scaled under [SCALED], replaced by the unified value
    under [UNIFIED], and then multiplied by 1.025. *)
Theorem draw_section_terminal_as_sphere_takes_the_widest_radius
    σ options spheres s pt r0 crs :
  (forall x : num, gt x x = false) ->
  (forall x y z : num, gt x y = true -> gt y z = true -> gt x z = true) ->
  last (get_section_poly_line s) = Some (pt, r0) ->
  first_radii (children (σ s)) crs ->
  exists r,
    terminal σ options spheres s
    = Done (spheres ++
            [create_ico_sphere (grow (sphere_radius_for mul options r))
                               (vector_of pt)]) /\
    r ∈ r0 :: crs /\
    (forall c, c ∈ r0 :: crs -> gt c r = false) /\
    (arbors_radii options = UNIFIED ->
     sphere_radius_for mul options r = samples_unified_radii_value options).
Proof.
  intros Hirr Htrans Hlast Hcs.
  destruct (widen_loop _ _ Hirr Htrans Hcs r0 [r0]) as (r & Hrun & Hr & Hall).
  { apply elem_of_cons; auto. }
  { intros c [->|Hc]%elem_of_cons; [apply Hirr|by apply elem_of_nil in Hc]. }
  exists r. unfold draw_section_terminal_as_sphere. rewrite Hlast, Hrun.
  simpl. split; [done|]. split; [done|]. split; [done|].
  unfold sphere_radius_for. by intros ->.
Qed.

Lemma widen_loop_outcome cs :
  forall r0,
    (for_each widen cs r0 = Raise IndexError /\
     exists c, c ∈ cs /\ get_section_poly_line c = []) \/
    ((exists r, for_each widen cs r0 = Done r) /\
     forall c, c ∈ cs -> get_section_poly_line c <> []).
Proof.
  induction cs as [|c cs IH]; intros r0.
  { right. split; [by eexists|]. intros c Hc. by apply elem_of_nil in Hc. }
  simpl.
  destruct (get_section_poly_line c) as [|[p cr] l] eqn:Hc.
  - rewrite (widen_nil _ _ Hc). simpl. left. split; [done|]. exists c. split; [apply elem_of_cons; auto|done].
  - rewrite (widen_head r0 c p cr) by (by rewrite Hc). simpl.
    destruct (IH (if gt cr r0 then cr else r0)) as [[Hr (c' & Hin & Hc')]|[Hr Hall]].
    + left. split; [done|]. exists c'. split; [apply elem_of_cons; auto|done].
    + right. split; [done|]. intros c' [->|Hin]%elem_of_cons; [by rewrite Hc|auto].
Qed.

(** X13: [draw_section_terminal_as_sphere] raises [IndexError] when the
    poly-line of the section or of one of its children is empty, and in
    every other case returns with exactly one sphere appended. *)
Theorem draw_section_terminal_as_sphere_outcome σ options spheres s :
  (terminal σ options spheres s = Raise IndexError /\
   (get_section_poly_line s = [] \/
    exists c, c ∈ children (σ s) /\ get_section_poly_line c = [])) \/
  ((exists sphere, terminal σ options spheres s = Done (spheres ++ [sphere])) /\
   get_section_poly_line s <> [] /\
   forall c, c ∈ children (σ s) -> get_section_poly_line c <> []).
Proof.
  unfold draw_section_terminal_as_sphere.
  destruct (last (get_section_poly_line s)) as [[pt r0]|] eqn:Hlast.
  - assert (Hne : get_section_poly_line s <> []).
    { intros Hnil. by rewrite Hnil in Hlast. }
    destruct (widen_loop_outcome (children (σ s)) r0)
      as [[Hr Hc]|[[r Hr] Hall]]; rewrite Hr; simpl.
    + left. auto.
    + right. split; [by eexists|]. auto.
  - left. split; [done|]. left. by apply last_None_nil.
Qed.

(** The number of spheres the walk appends for a tree whose root has
    order [b]. *)
Fixpoint n_spheres (max : Z) (b : Z) (t : shape) : nat :=
  match t with
  | Node _ ks =>
    S (if (max <? b)%Z then 0
       else S (list_sum (map (n_spheres max (b + 1)%Z) ks)))
  end.

Definition data_ok t : Prop :=
  forall s, s ∈ ids t ->
    section_samples s <> [] /\ get_section_poly_line s <> [].

Lemma terminals_kids fuel σ options max b ks :
  Forall (fun k => forall spheres,
            exists new,
              terminals fuel σ options spheres (Some (root k)) b max
              = Done (spheres ++ new) /\
              length new = n_spheres max (b + 1) k) ks ->
  forall spheres,
    exists new,
      for_each (fun sp child => terminals fuel σ options sp (Some child) b max)
               (map root ks) spheres
      = Done (spheres ++ new) /\
      length new = list_sum (map (n_spheres max (b + 1)) ks).
Proof.
  induction ks as [|k ks IH]; intros Hall spheres.
  { exists []. by rewrite app_nil_r. }
  apply Forall_cons in Hall as [Hk Hall].
  destruct (Hk spheres) as (n1 & Hrun1 & Hlen1).
  destruct (IH Hall (spheres ++ n1)) as (n2 & Hrun2 & Hlen2).
  exists (n1 ++ n2). simpl. rewrite Hrun1. simpl. rewrite Hrun2.
  rewrite app_assoc. split; [done|]. rewrite length_app. simpl. lia.
Qed.

Lemma terminals_spec max options t :
  forall σ par spheres b fuel,
    tree_at σ par t -> data_ok t -> height t <= fuel ->
    exists new,
      terminals fuel σ options spheres (Some (root t)) b max
      = Done (spheres ++ new) /\
      length new = n_spheres max (b + 1) t.
Proof.
  induction t as [i ks IH] using shape_ind'.
  intros σ par spheres b [|fuel] Ht Hdata Hfuel; [simpl in Hfuel; lia|].
  inversion Ht as [? ? ? Hp Hc Hk]; subst. simpl root.
  simpl draw_section_terminals_as_spheres.
  destruct (Hdata i) as [Hs Hpl]; [simpl; apply elem_of_cons; auto|].
  destruct (section_samples i) as [|[pt rad] rest] eqn:Hsamples; [done|].
  change (head ((pt, rad) :: rest)) with (Some (pt, rad)). cbv iota.
  simpl n_spheres.
  destruct (max <? b + 1)%Z eqn:Hb.
  { eexists. split; [reflexivity|done]. }
  set (sp1 := spheres ++ [create_ico_sphere (grow rad) pt]).
  destruct (draw_section_terminal_as_sphere_outcome σ options sp1 i)
    as [[_ [Hnil|(c & Hcin & Hnil)]]|[[sph Hrun] _]].
  { done. }
  { exfalso. destruct (Hdata c) as [_ Hcpl]; [|done].
    simpl. apply elem_of_cons. right. rewrite Hc in Hcin.
    apply list_elem_of_fmap in Hcin as (k & -> & Hkin).
    apply elem_of_flat_map. exists k. split; [done|apply root_in_ids]. }
  rewrite Hrun. simpl. rewrite Hc.
  destruct (terminals_kids fuel σ options max (b + 1) ks) with
    (spheres := sp1 ++ [sph]) as (new & Hnew & Hlen).
  { rewrite Forall_forall in IH, Hk. apply Forall_forall. intros k Hin sp.
    apply (IH k Hin σ (Some i)); [by apply Hk| |].
    - intros s Hs'. apply Hdata. simpl. apply elem_of_cons. right.
      apply elem_of_flat_map. eauto.
    - simpl in Hfuel.
      assert (height k <= list_max (map height ks)); [|lia].
      apply list_max_ge, list_elem_of_fmap. eauto. }
  rewrite Hnew. unfold sp1. eexists. rewrite <- !app_assoc.
  split; [reflexivity|]. simpl. by rewrite Hlen.
Qed.

Lemma n_spheres_count max t :
  forall b, (b <= max + 1)%Z ->
    n_spheres max b t
    = 2 * length (List.filter (within max) (sections_with_order b t))
      + length (List.filter (fun sb => (snd sb =? max + 1)%Z)
                            (sections_with_order b t)).
Proof.
  induction t as [i ks IH] using shape_ind'. intros b Hb.
  simpl n_spheres. simpl sections_with_order.
  destruct (max <? b)%Z eqn:Hlt.
  - apply Z.ltb_lt in Hlt. assert (b = (max + 1)%Z) as -> by lia.
    cbn [List.filter]. unfold within at 1. cbn [snd].
    assert (H1 : (max + 1 <=? max)%Z = false) by (apply Z.leb_gt; lia).
    rewrite H1, Z.eqb_refl. cbn [length].
    rewrite !filter_none; [simpl; lia| |].
    + intros [s o] Hin. apply elem_of_flat_map in Hin as (k & _ & Hin).
      apply sections_with_order_ge in Hin. simpl. apply Z.eqb_neq. lia.
    + intros [s o] Hin. apply elem_of_flat_map in Hin as (k & _ & Hin).
      apply sections_with_order_ge in Hin. unfold within. simpl.
      apply Z.leb_gt. lia.
  - apply Z.ltb_ge in Hlt. cbn [List.filter]. unfold within at 1. cbn [snd].
    assert (H1 : (b <=? max)%Z = true) by (apply Z.leb_le; lia).
    assert (H2 : (b =? max + 1)%Z = false) by (apply Z.eqb_neq; lia).
    rewrite H1, H2. cbn [length]. rewrite !length_filter_flat_map.
    assert (Hsum : list_sum (map (n_spheres max (b + 1)) ks)
                   = 2 * list_sum (map (fun a => length (List.filter (within max)
                                          (sections_with_order (b + 1) a))) ks)
                     + list_sum (map (fun a => length (List.filter
                                          (fun sb => (snd sb =? max + 1)%Z)
                                          (sections_with_order (b + 1) a))) ks));
      [|lia].
    clear H1 H2. induction ks as [|k ks IHks]; simpl; [done|].
    apply Forall_cons in IH as [IHk IH].
    rewrite (IHk (b + 1)%Z) by lia. rewrite (IHks IH). lia.
Qed.

(** X14: on a finite tree whose sections have samples and poly-lines,
    and with the starting order not above the bound,
    [draw_section_terminals_as_spheres] returns having appended two
    spheres for every section within the bound and one more for every
    section one order beyond it: the sphere at the first sample is made
    before the bound is tested. *)
Theorem draw_section_terminals_as_spheres_count σ par t options spheres b max :
  tree_at σ par t -> data_ok t -> (b <= max)%Z ->
  exists fuel0, forall fuel, fuel0 <= fuel ->
    exists new,
      terminals fuel σ options spheres (Some (root t)) b max
      = Done (spheres ++ new) /\
      length new
      = 2 * length (List.filter (within max)
                                (sections_with_order (b + 1) t))
        + length (List.filter (fun sb => (snd sb =? max + 1)%Z)
                              (sections_with_order (b + 1) t)).
Proof.
  intros Ht Hdata Hb. exists (height t). intros fuel Hfuel.
  destruct (terminals_spec max options t σ par spheres b fuel Ht Hdata Hfuel)
    as (new & Hrun & Hlen).
  exists new. split; [done|]. rewrite Hlen. apply n_spheres_count. lia.
Qed.

End Facts.

(** A sample instance: rational radii, the section identity as its first
    point, and two samples per poly-line. *)
Definition sample_poly_line (i : id) : list (Z * Q) :=
  [(Z.of_nat i, inject_Z (Z.of_nat i + 1)); ((Z.of_nat i + 10)%Z, 2%Q)].

Definition sample_samples (i : id) : list (Z * Q) := [(Z.of_nat i, 1%Q)].

Definition sample_options : @MorphologyOptions Q :=
  mkMorphologyOptions SCALED 3%Q 5%Q.

Definition qgrow (r : Q) : Q := Qred (r * (41 # 40)).
Definition qmul (a b : Q) : Q := Qred (a * b).
Definition qgt (a b : Q) : bool := negb (Qle_bool a b).

Lemma qgt_lt (x y : Q) : qgt x y = true <-> (y < x)%Q.
Proof.
  unfold qgt. rewrite negb_true_iff. split.
  - intros H. apply Qnot_le_lt. intros Hle. apply Qle_bool_iff in Hle.
    congruence.
  - intros H. destruct (Qle_bool x y) eqn:Hb; [|done].
    apply Qle_bool_iff in Hb. exfalso. by apply (Qlt_not_le y x).
Qed.

Lemma qgt_irrefl (x : Q) : qgt x x = false.
Proof.
  destruct (qgt x x) eqn:H; [|done].
  apply qgt_lt in H. by apply Qlt_irrefl in H.
Qed.

Lemma qgt_trans (x y z : Q) :
  qgt x y = true -> qgt y z = true -> qgt x z = true.
Proof. rewrite !qgt_lt. intros H1 H2. by apply (Qlt_trans z y x). Qed.

Local Abbreviation sample_terminal :=
  (draw_section_terminal_as_sphere sample_poly_line (fun p => p)
     (fun r p => (r, p)) qgrow qmul qgt).
Local Abbreviation sample_terminals :=
  (draw_section_terminals_as_spheres sample_samples sample_poly_line
     (fun p => p) (fun r p => (r, p)) qgrow qmul qgt).

Example sample_terminal_sphere :
  sample_terminal Sample.σ0 sample_options [] 0
  = Done [(861 # 40, 10%Z)].
Proof. vm_compute. reflexivity. Qed.

Example sample_terminals_beyond_the_bound :
  sample_terminals 2 Sample.σ0 sample_options [] (Some 0) 0%Z 1%Z
  = Done [(41 # 40, 0%Z); (861 # 40, 10%Z);
          (41 # 40, 1%Z); (41 # 40, 2%Z); (41 # 40, 6%Z)].
Proof. vm_compute. reflexivity. Qed.

Lemma draw_section_terminal_as_sphere_takes_the_widest_radius_witness :
  last (sample_poly_line 0) = Some (10%Z, 2%Q) /\
  first_radii sample_poly_line (children (Sample.σ0 0)) [2; 3; 7]%Q /\
  exists r,
    sample_terminal Sample.σ0 sample_options [] 0
    = Done ([] ++ [(qgrow (sphere_radius_for qmul sample_options r), 10%Z)]) /\
    r ∈ [2; 2; 3; 7]%Q /\
    (forall c, c ∈ [2; 2; 3; 7]%Q -> qgt c r = false) /\
    (arbors_radii sample_options = UNIFIED ->
     sphere_radius_for qmul sample_options r
     = samples_unified_radii_value sample_options).
Proof.
  assert (Hcs : first_radii sample_poly_line (children (Sample.σ0 0))
                            [2; 3; 7]%Q).
  { repeat (constructor; [eexists; reflexivity|]). constructor. }
  split; [reflexivity|]. split; [exact Hcs|].
  exact (draw_section_terminal_as_sphere_takes_the_widest_radius
           sample_poly_line (fun p => p) (fun r p => (r, p))
           qgrow qmul qgt Sample.σ0 sample_options []
           0 10%Z 2%Q [2; 3; 7]%Q qgt_irrefl qgt_trans eq_refl Hcs).
Defined.

Lemma draw_section_terminals_as_spheres_count_witness :
  tree_at Sample.σ0 None Sample.t0 /\
  data_ok sample_samples sample_poly_line Sample.t0 /\ (0 <= 1)%Z /\
  exists fuel0, forall fuel, fuel0 <= fuel ->
    exists new,
      sample_terminals fuel Sample.σ0 sample_options []
        (Some (root Sample.t0)) 0%Z 1%Z
      = Done ([] ++ new) /\
      length new
      = 2 * length (List.filter (within 1)
                                (sections_with_order (0 + 1) Sample.t0))
        + length (List.filter (fun sb => (snd sb =? 1 + 1)%Z)
                              (sections_with_order (0 + 1) Sample.t0)).
Proof.
  assert (Ht : tree_at Sample.σ0 None Sample.t0) by repeat constructor.
  assert (Hd : data_ok sample_samples sample_poly_line Sample.t0).
  { intros s _. split; discriminate. }
  assert (Hb : (0 <= 1)%Z) by lia.
  split; [exact Ht|]. split; [exact Hd|]. split; [exact Hb|].
  exact (draw_section_terminals_as_spheres_count sample_samples
           sample_poly_line (fun p => p) (fun r p => (r, p))
           qgrow qmul qgt Sample.σ0 None Sample.t0
           sample_options [] 0%Z 1%Z Ht Hd Hb).
Defined.

End ArticulationsFacts.

(** * Properties of the arbor objects *)

Module ArborObjectsFacts.
Import Skeleton SkeletonFacts Builder BuilderFacts ArborObjects.

Section Facts.
Context {num label samples obj edges_t bevel material : Type}.
Variable get_section_poly_line : id -> samples.
Variable GRAY_MATERIAL_INDEX : Z.
Variable APICAL_DENDRITES_PREFIX : label.
Variable AXON_PREFIX : label.
Variable BASAL_DENDRITES_PREFIX : label.
Variable APICAL_DENDRITE_MATERIAL_START_INDEX : Z.
Variable AXON_MATERIAL_START_INDEX : Z.
Variable BASAL_DENDRITES_MATERIAL_START_INDEX : Z.
Variable arbor_label : id -> label.
Variable draw_poly_lines_in_single_object :
  list (PolyLine label samples) -> label -> edges_t -> bevel ->
  list material -> obj.
Implicit Types (σ : store num) (t : shape).

Local Abbreviation PL := (PolyLine label samples).
Local Abbreviation B := (Builder label obj edges_t material).
Local Abbreviation construct :=
  (construct_tree_poly_lines get_section_poly_line GRAY_MATERIAL_INDEX
     BASAL_DENDRITES_PREFIX).
Local Abbreviation expected :=
  (expected get_section_poly_line GRAY_MATERIAL_INDEX).
Local Abbreviation single :=
  (draw_arbors_as_single_object get_section_poly_line GRAY_MATERIAL_INDEX
     APICAL_DENDRITES_PREFIX AXON_PREFIX BASAL_DENDRITES_PREFIX
     APICAL_DENDRITE_MATERIAL_START_INDEX AXON_MATERIAL_START_INDEX
     BASAL_DENDRITES_MATERIAL_START_INDEX draw_poly_lines_in_single_object).
Local Abbreviation each :=
  (draw_each_arbor_as_single_object get_section_poly_line GRAY_MATERIAL_INDEX
     APICAL_DENDRITES_PREFIX AXON_PREFIX BASAL_DENDRITES_PREFIX
     APICAL_DENDRITE_MATERIAL_START_INDEX AXON_MATERIAL_START_INDEX
     BASAL_DENDRITES_MATERIAL_START_INDEX arbor_label
     draw_poly_lines_in_single_object).
Local Abbreviation one :=
  (draw_one_arbor get_section_poly_line GRAY_MATERIAL_INDEX
     BASAL_DENDRITES_PREFIX arbor_label draw_poly_lines_in_single_object).
Local Abbreviation drawn :=
  (drawn_arbors APICAL_DENDRITES_PREFIX AXON_PREFIX BASAL_DENDRITES_PREFIX
     APICAL_DENDRITE_MATERIAL_START_INDEX AXON_MATERIAL_START_INDEX
     BASAL_DENDRITES_MATERIAL_START_INDEX).
Local Abbreviation lines_of :=
  (poly_lines_of get_section_poly_line GRAY_MATERIAL_INDEX
     BASAL_DENDRITES_PREFIX).

(** The object of one arbor, from its poly-lines. *)
Definition arbor_object (self : B) (bevel_object : bevel)
    (ak : id * kind (label := label)) (l : list PL) : obj :=
  draw_poly_lines_in_single_object l (arbor_label (fst ak))
    (edges (options self)) bevel_object (skeleton_materials self).

(** The object of the whole morphology, from its poly-lines. *)
Definition morphology_object (self : B) (bevel_object : bevel)
    (l : list PL) : obj :=
  draw_poly_lines_in_single_object l (morphology_label (morphology self))
    (edges (options self)) bevel_object (skeleton_materials self).

Definition built fuel σ (aks : list (id * kind)) (lists : list (list PL))
  : Prop :=
  Forall2 (fun ak l => lines_of fuel σ ak = Done l) aks lists.

Lemma one_unfold fuel σ self bevel_object max prefix start objs a :
  one fuel σ self bevel_object max prefix start objs a
  = (l ← construct fuel σ (Some a) [] 0%Z max prefix start true;
     Done (objs ++ [arbor_object self bevel_object
                      (a, (max, prefix, start)) l])).
Proof. reflexivity. Qed.

Lemma arbors_run fuel σ self bevel_object max prefix start arbors :
  forall lists,
    built fuel σ (map (fun a => (a, (max, prefix, start))) arbors) lists ->
    (forall objs,
       for_each (one fuel σ self bevel_object max prefix start) arbors objs
       = Done (objs ++ zip_with (arbor_object self bevel_object)
                        (map (fun a => (a, (max, prefix, start))) arbors)
                        lists)) /\
    (forall pls,
       for_each (fun poly_lines arbor =>
                   construct fuel σ (Some arbor) poly_lines 0%Z max prefix
                     start true) arbors pls
       = Done (pls ++ concat lists)).
Proof.
  induction arbors as [|a arbors IH]; intros lists Hb.
  { inversion Hb; subst. split; intros; simpl; by rewrite app_nil_r. }
  inversion Hb as [|? l ? ls Ha Hrest]; subst. simpl in Ha.
  destruct (IH ls Hrest) as [IH1 IH2]. split.
  - intros objs. simpl. rewrite one_unfold, Ha. simpl.
    rewrite IH1. by rewrite <- app_assoc.
  - intros pls. simpl. rewrite construct_prefix, Ha. simpl.
    rewrite IH2. by rewrite <- app_assoc.
Qed.

Lemma arbors_inv fuel σ self bevel_object max prefix start arbors :
  forall objs objs',
    for_each (one fuel σ self bevel_object max prefix start) arbors objs
    = Done objs' ->
    exists lists,
      built fuel σ (map (fun a => (a, (max, prefix, start))) arbors) lists.
Proof.
  induction arbors as [|a arbors IH]; intros objs objs' Hrun.
  { exists []. constructor. }
  simpl in Hrun. rewrite one_unfold in Hrun.
  destruct (construct fuel σ (Some a) [] 0%Z max prefix start true)
    as [l| |] eqn:Ha; simpl in Hrun; try done.
  destruct (IH _ _ Hrun) as [ls Hls]. exists (l :: ls). by constructor.
Qed.

Lemma group_run fuel σ self bevel_object ignore has arbors max prefix start :
  forall lists,
    built fuel σ (group ignore has arbors (max, prefix, start)) lists ->
    (forall objs,
       for_arbors ignore has arbors
         (one fuel σ self bevel_object max prefix start) objs
       = Done (objs ++ zip_with (arbor_object self bevel_object)
                        (group ignore has arbors (max, prefix, start))
                        lists)) /\
    (forall pls,
       for_arbors ignore has arbors
         (fun poly_lines arbor =>
            construct fuel σ (Some arbor) poly_lines 0%Z max prefix
              start true) pls
       = Done (pls ++ concat lists)).
Proof.
  unfold group, for_arbors. intros lists Hb.
  destruct (negb ignore), has; try by apply arbors_run.
  all: inversion Hb; subst; split; intros; simpl; by rewrite app_nil_r.
Qed.

Lemma group_inv fuel σ self bevel_object ignore has arbors max prefix start :
  forall objs objs',
    for_arbors ignore has arbors
      (one fuel σ self bevel_object max prefix start) objs = Done objs' ->
    exists lists,
      built fuel σ (group ignore has arbors (max, prefix, start)) lists.
Proof.
  unfold group, for_arbors. intros objs objs' Hrun.
  destruct (negb ignore), has; try by eapply arbors_inv.
  all: exists []; constructor.
Qed.

Lemma objects_run fuel σ self bevel_object lists :
  built fuel σ (drawn self) lists ->
  each fuel σ self bevel_object
  = Done (with_objects self
            (morphology_objects self
             ++ zip_with (arbor_object self bevel_object) (drawn self) lists))
  /\
  single fuel σ self bevel_object
  = Done (with_objects self
            (morphology_objects self
             ++ [morphology_object self bevel_object (concat lists)])).
Proof.
  unfold built, drawn_arbors. intros Hb.
  apply Forall2_app_inv_l in Hb as (l1 & l23 & H1 & Hb & ->).
  apply Forall2_app_inv_l in Hb as (l2 & l3 & H2 & H3 & ->).
  destruct (group_run _ _ self bevel_object _ _ _ _ _ _ _ H1) as [E1 S1].
  destruct (group_run _ _ self bevel_object _ _ _ _ _ _ _ H2) as [E2 S2].
  destruct (group_run _ _ self bevel_object _ _ _ _ _ _ _ H3) as [E3 S3].
  split.
  - unfold draw_each_arbor_as_single_object.
    rewrite E1. simpl. rewrite E2. simpl. rewrite E3. simpl.
    rewrite !zip_with_app, <- !app_assoc; [done| |];
      by eapply Forall2_length.
  - unfold draw_arbors_as_single_object.
    rewrite S1. simpl. rewrite S2. simpl. rewrite S3. simpl.
    unfold morphology_object. by rewrite !concat_app, app_assoc.
Qed.

Lemma objects_inv fuel σ self bevel_object self' :
  each fuel σ self bevel_object = Done self' ->
  exists lists, built fuel σ (drawn self) lists.
Proof.
  unfold draw_each_arbor_as_single_object, drawn_arbors. intros Hrun.
  match type of Hrun with (?r ≫= _) = _ => destruct r as [o1| |] eqn:R1 end;
    simpl in Hrun; try done.
  match type of Hrun with (?r ≫= _) = _ => destruct r as [o2| |] eqn:R2 end;
    simpl in Hrun; try done.
  match type of Hrun with (?r ≫= _) = _ => destruct r as [o3| |] eqn:R3 end;
    simpl in Hrun; try done.
  apply group_inv in R1 as [l1 H1]. apply group_inv in R2 as [l2 H2].
  apply group_inv in R3 as [l3 H3].
  exists (l1 ++ l2 ++ l3). by repeat apply Forall2_app.
Qed.

(** X15: whenever [draw_each_arbor_as_single_object] returns, it has
    appended one object per arbor that is not ignored, in the order
    apical dendrites, axons, basal dendrites, each made from the
    poly-lines of that arbor alone; and [draw_arbors_as_single_object]
    then returns too, appending a single object made from those same
    poly-lines, concatenated in that order. *)
Theorem draw_arbors_as_single_object_joins_the_arbors
    fuel σ self bevel_object self' :
  each fuel σ self bevel_object = Done self' ->
  exists lists,
    built fuel σ (drawn self) lists /\
    self' = with_objects self
              (morphology_objects self
               ++ zip_with (arbor_object self bevel_object)
                           (drawn self) lists) /\
    single fuel σ self bevel_object
    = Done (with_objects self
              (morphology_objects self
               ++ [morphology_object self bevel_object (concat lists)])).
Proof.
  intros Hrun. destruct (objects_inv _ _ _ _ _ Hrun) as [lists Hb].
  destruct (objects_run _ _ self bevel_object _ Hb) as [He Hs].
  exists lists. split; [done|]. split; [congruence|done].
Qed.

(** The trees of the drawn arbors. *)
Definition rooted σ (aks : list (id * kind (label := label)))
    (ts : list shape) : Prop :=
  Forall2 (fun ak t => root t = fst ak /\ exists par, tree_at σ par t) aks ts.

(** The poly-lines of an arbor of a given kind, from its tree. *)
Definition lines (ak : id * kind) (t : shape) : list PL :=
  let '(_, (max, prefix, start)) := ak in
  expected BASAL_DENDRITES_PREFIX max start true prefix 1%Z t.

Lemma built_of_trees σ aks ts fuel :
  rooted σ aks ts -> list_max (map height ts) <= fuel ->
  built fuel σ aks (zip_with lines aks ts).
Proof.
  induction 1 as [|[a [[max prefix] start]] t aks ts [Hr [par Ht]] _ IH];
    intros Hfuel; simpl in *; constructor.
  - simpl in Hr. subst a. simpl.
    apply (construct_spec get_section_poly_line GRAY_MATERIAL_INDEX
             BASAL_DENDRITES_PREFIX max start true t σ [] 0%Z prefix fuel);
      [by eapply tree_at_visited|lia].
  - apply IH. lia.
Qed.

(** X16: when every arbor that is not ignored is the root of a finite
    tree of sections, both methods return: the one appends one object per
    such arbor, made from the poly-lines of its sections within the bound
    of its kind, the other a single object made from all of them. The number of
    objects added is the number of arbors drawn, also when an arbor has
    no poly-line at all. *)
Theorem draw_each_arbor_as_single_object_returns σ self bevel_object ts :
  rooted σ (drawn self) ts ->
  exists fuel0, forall fuel, fuel0 <= fuel ->
    each fuel σ self bevel_object
    = Done (with_objects self
              (morphology_objects self
               ++ zip_with (arbor_object self bevel_object) (drawn self)
                           (zip_with lines (drawn self) ts))) /\
    length (zip_with (arbor_object self bevel_object) (drawn self)
                     (zip_with lines (drawn self) ts))
    = length (drawn self) /\
    single fuel σ self bevel_object
    = Done (with_objects self
              (morphology_objects self
               ++ [morphology_object self bevel_object
                     (concat (zip_with lines (drawn self) ts))])).
Proof.
  intros Hts. exists (list_max (map height ts)). intros fuel Hfuel.
  destruct (objects_run fuel σ self bevel_object _
              (built_of_trees _ _ _ _ Hts Hfuel)) as [He Hs].
  split; [done|]. split; [|done].
  apply Forall2_length in Hts. rewrite !length_zip_with. lia.
Qed.

End Facts.

(** A sample builder over the sample arbor: an apical dendrite, an axon
    that is ignored and a basal dendrite; an object is the list of its
    poly-lines with its name. *)
Definition sample_label (i : id) : string :=
  match i with 0 => "apical_dendrite" | 7 => "basal_dendrite" | _ => "axon" end.

Definition sample_draw (l : list (PolyLine string id)) (name : string)
    (e b : unit) (materials : list Z) : list (PolyLine string id) * string :=
  (l, name).

Definition sample_builder
  : Builder string (list (PolyLine string id) * string) unit Z :=
  mkBuilder
    (mkMorphology "neuron" true [0] true [8] true [7])
    (mkMorphologyOptions false true false 2%Z 5%Z 1%Z tt)
    [] [1%Z; 2%Z].

Local Abbreviation sample_each :=
  (draw_each_arbor_as_single_object (fun i => i) 8%Z "apical" "axon" "basal"
     2%Z 4%Z 6%Z sample_label sample_draw).
Local Abbreviation sample_single :=
  (draw_arbors_as_single_object (fun i => i) 8%Z "apical" "axon" "basal"
     2%Z 4%Z 6%Z sample_draw).
Local Abbreviation sample_drawn :=
  (drawn_arbors "apical" "axon" "basal" 2%Z 4%Z 6%Z sample_builder).

Definition sample_apical_lines : list (PolyLine string id) :=
  [mkPolyLine ("apical", 1%Z) 0 3%Z; mkPolyLine ("basal", 2%Z) 1 2%Z;
   mkPolyLine ("basal", 2%Z) 2 2%Z; mkPolyLine ("basal", 2%Z) 6 2%Z].

Definition sample_basal_lines : list (PolyLine string id) :=
  [mkPolyLine ("basal", 1%Z) 7 7%Z].

Example sample_each_objects :
  sample_each 4 Sample.σ0 sample_builder tt
  = Done (with_objects sample_builder
            [(sample_apical_lines, "apical_dendrite");
             (sample_basal_lines, "basal_dendrite")]).
Proof. vm_compute. reflexivity. Qed.

Example sample_single_object :
  sample_single 4 Sample.σ0 sample_builder tt
  = Done (with_objects sample_builder
            [(sample_apical_lines ++ sample_basal_lines, "neuron")]).
Proof. vm_compute. reflexivity. Qed.

Lemma draw_arbors_as_single_object_joins_the_arbors_witness :
  sample_each 4 Sample.σ0 sample_builder tt
  = Done (with_objects sample_builder
            [(sample_apical_lines, "apical_dendrite");
             (sample_basal_lines, "basal_dendrite")]) /\
  exists lists,
    built (fun i => i) 8%Z "basal" 4 Sample.σ0 sample_drawn lists /\
    with_objects sample_builder
      [(sample_apical_lines, "apical_dendrite");
       (sample_basal_lines, "basal_dendrite")]
    = with_objects sample_builder
        (morphology_objects sample_builder
         ++ zip_with (arbor_object sample_label sample_draw sample_builder tt)
                     sample_drawn lists) /\
    sample_single 4 Sample.σ0 sample_builder tt
    = Done (with_objects sample_builder
              (morphology_objects sample_builder
               ++ [morphology_object sample_draw sample_builder tt
                     (concat lists)])).
Proof.
  assert (Hrun : sample_each 4 Sample.σ0 sample_builder tt
                 = Done (with_objects sample_builder
                           [(sample_apical_lines, "apical_dendrite");
                            (sample_basal_lines, "basal_dendrite")])).
  { vm_compute. reflexivity. }
  split; [exact Hrun|].
  exact (draw_arbors_as_single_object_joins_the_arbors (fun i => i) 8%Z
           "apical" "axon" "basal" 2%Z 4%Z 6%Z sample_label sample_draw
           4 Sample.σ0 sample_builder tt _ Hrun).
Defined.

Lemma draw_each_arbor_as_single_object_returns_witness :
  rooted Sample.σ0 sample_drawn [Sample.t0; Node 7 []] /\
  exists fuel0, forall fuel, fuel0 <= fuel ->
    sample_each fuel Sample.σ0 sample_builder tt
    = Done (with_objects sample_builder
              (morphology_objects sample_builder
               ++ zip_with (arbor_object sample_label sample_draw
                              sample_builder tt) sample_drawn
                    (zip_with (lines (fun i => i) 8%Z "basal") sample_drawn
                              [Sample.t0; Node 7 []]))) /\
    length (zip_with (arbor_object sample_label sample_draw sample_builder tt)
              sample_drawn
              (zip_with (lines (fun i => i) 8%Z "basal") sample_drawn
                        [Sample.t0; Node 7 []]))
    = length sample_drawn /\
    sample_single fuel Sample.σ0 sample_builder tt
    = Done (with_objects sample_builder
              (morphology_objects sample_builder
               ++ [morphology_object sample_draw sample_builder tt
                     (concat (zip_with (lines (fun i => i) 8%Z "basal")
                                sample_drawn [Sample.t0; Node 7 []]))])).
Proof.
  assert (Hts : rooted Sample.σ0 sample_drawn [Sample.t0; Node 7 []]).
  { constructor; [split; [reflexivity|exists None; repeat constructor]|].
    constructor; [split; [reflexivity|exists None; repeat constructor]|].
    constructor. }
  split; [exact Hts|].
  exact (draw_each_arbor_as_single_object_returns (fun i => i) 8%Z
           "apical" "axon" "basal" 2%Z 4%Z 6%Z sample_label sample_draw
           Sample.σ0 sample_builder tt [Sample.t0; Node 7 []] Hts).
Defined.

End ArborObjectsFacts.

(** * Properties of the bars of the per-arbor plots *)

Module PerArborBarsFacts.
Import PerArborBars.

(** [b] when the arbor has a result. *)
Definition tag {A B : Type} (o : option A) (b : B) : list B :=
  match o with Some _ => [b] | None => [] end.

(** The labels of [n] basal dendrites between those of the apical dendrite
    and of the axon. *)
Definition labels_for {A : Type} (apical : option A) (n : nat)
    (axon : option A) : list string :=
  tag apical "Apical Dendrite" ++ map basal_label (seq 0 n) ++ tag axon "Axon".

(** [l[i]] succeeds for every [i < n]. *)
Definition covers {A : Type} (l : option (list A)) (n : nat) : Prop :=
  n = 0 \/ exists l', l = Some l' /\ n <= length l'.

Lemma basal_label_inj i j : basal_label i = basal_label j -> i = j.
Proof.
  unfold basal_label. simpl. intros H. injection H as H.
  by apply (inj pretty).
Qed.

Lemma labels_for_NoDup {A} (apical : option A) n (axon : option A) :
  NoDup (labels_for apical n axon).
Proof.
  assert (Hb : NoDup (map basal_label (seq 0 n))).
  { apply NoDup_fmap_2_strong; [|apply NoDup_seq].
    intros i j _ _. apply basal_label_inj. }
  assert (Hapical : forall s, s ∈ map basal_label (seq 0 n) -> s <> "Apical Dendrite").
  { intros s (i & -> & _)%list_elem_of_fmap. unfold basal_label. simpl. discriminate. }
  assert (Haxon : forall s, s ∈ map basal_label (seq 0 n) -> s <> "Axon").
  { intros s (i & -> & _)%list_elem_of_fmap. unfold basal_label. simpl. discriminate. }
  unfold labels_for, tag. apply NoDup_app. split; [|split].
  - destruct apical; [apply NoDup_singleton|apply NoDup_nil_2].
  - intros s Hs [Hin|Hin]%elem_of_app; destruct apical; try by apply elem_of_nil in Hs.
    + apply list_elem_of_singleton in Hs. by apply Hapical in Hin.
    + destruct axon; [|by apply elem_of_nil in Hin].
      apply list_elem_of_singleton in Hs, Hin. congruence.
  - apply NoDup_app. split; [done|]. split.
    + intros s Hs Hin. destruct axon; [|by apply elem_of_nil in Hin].
      apply list_elem_of_singleton in Hin. by apply Haxon in Hs.
    + destruct axon; [apply NoDup_singleton|apply NoDup_nil_2].
Qed.

Lemma length_labels_for {A} (apical : option A) n (axon : option A) :
  length (labels_for apical n axon)
  = length (option_list apical) + n + length (option_list axon).
Proof.
  unfold labels_for, tag. rewrite !length_app, length_map, length_seq.
  destruct apical, axon; simpl; lia.
Qed.

Lemma item_lt {A} (l : list A) i :
  i < length l -> exists a, l !! i = Some a /\ item l i = Done a.
Proof.
  intros Hi. destruct (lookup_lt_is_Some_2 l i Hi) as [a Ha].
  exists a. unfold item. by rewrite Ha.
Qed.

Lemma item_ge {A} (l : list A) i :
  length l <= i -> item l i = Raise IndexError.
Proof. intros Hi. unfold item. by rewrite lookup_ge_None_2. Qed.

Lemma item_Done {A} (l : list A) i a : item l i = Done a -> i < length l.
Proof.
  unfold item. destruct (l !! i) eqn:H; [|done].
  intros _. by eapply lookup_lt_Some.
Qed.

Lemma item_of_Done {A} (l : option (list A)) i a :
  item_of l i = Done a -> exists l', l = Some l' /\ i < length l'.
Proof.
  destruct l as [l'|]; [|done]. simpl. intros H%item_Done. eauto.
Qed.

Lemma take_S_drop {A} (l : list A) k n a :
  l !! k = Some a -> take (S n) (drop k l) = a :: take n (drop (S k) l).
Proof. intros H. by rewrite (drop_S l a k H). Qed.

Section Facts.
Context {num color : Type}.
Implicit Types (r rmin ravg rmax : AnalysisResult num) (m : Morphology color).

Local Abbreviation result_body colors :=
  (fun (bars : ResultBars num color) (ir : nat * num) =>
     let '(i, result) := ir in
     c ← item colors i;
     Done (mkResultBars (x_data bars ++ [basal_label i])
                        (y_data bars ++ [result])
                        (palette bars ++ [c]))).

Lemma result_loop (colors : list color) results :
  forall k bars,
    k + length results <= length colors ->
    for_each (result_body colors) (enumerate_from k results) bars
    = Done (mkResultBars
              (x_data bars ++ map basal_label (seq k (length results)))
              (y_data bars ++ results)
              (palette bars ++ take (length results) (drop k colors))).
Proof.
  induction results as [|x results IH]; intros k bars Hk; simpl in *.
  { rewrite !app_nil_r. by destruct bars. }
  destruct (item_lt colors k) as (c & Hc & ->); [lia|]. simpl.
  rewrite IH by lia. simpl. rewrite <- !app_assoc. simpl.
  by rewrite (drop_S colors c k Hc).
Qed.

Lemma result_loop_raises (colors : list color) results :
  forall k bars,
    k <= length colors -> length colors < k + length results ->
    for_each (result_body colors) (enumerate_from k results) bars
    = Raise IndexError.
Proof.
  induction results as [|x results IH]; intros k bars Hk Hlt; simpl in *;
    [lia|].
  destruct (decide (k = length colors)) as [->|Hne].
  - by rewrite item_ge.
  - destruct (item_lt colors k) as (c & Hc & ->); [lia|]. simpl.
    apply IH; lia.
Qed.

Lemma result_bars_ok r m :
  length (default [] (basal_dendrites_result r))
  <= length (basal_dendrites_colors m) ->
  plot_per_arbor_result_bars r m
  = Done (mkResultBars
            (labels_for (apical_dendrite_result r)
               (length (default [] (basal_dendrites_result r)))
               (axon_result r))
            (option_list (apical_dendrite_result r)
             ++ default [] (basal_dendrites_result r)
             ++ option_list (axon_result r))
            (tag (apical_dendrite_result r) (apical_dendrite_color m)
             ++ take (length (default [] (basal_dendrites_result r)))
                     (basal_dendrites_colors m)
             ++ tag (axon_result r) (axon_color m))).
Proof.
  destruct r as [apical basal axon], m as [ca colors cx]. simpl. intros Hn.
  unfold plot_per_arbor_result_bars, labels_for, enumerate. simpl.
  destruct basal as [results|]; simpl in *.
  - rewrite result_loop by (simpl; lia). simpl.
    destruct apical, axon; simpl; by rewrite ?app_nil_r, <- ?app_assoc.
  - destruct apical, axon; simpl; by rewrite ?app_nil_r.
Qed.

(** X17: when the morphology has a colour for every basal result,
    the lists [plot_per_arbor_result] plots are: the labels, distinct, of
    the arbors that have a result, in the order apical dendrite, basal
    dendrites, axon; their results; and their colours, the basal ones
    being the first colours of the morphology. The three lists have one
    entry per such arbor. *)
Theorem plot_per_arbor_result_bars_are_the_arbors_with_a_result r m :
  length (default [] (basal_dendrites_result r))
  <= length (basal_dendrites_colors m) ->
  exists bars,
    plot_per_arbor_result_bars r m = Done bars /\
    x_data bars
    = labels_for (apical_dendrite_result r)
        (length (default [] (basal_dendrites_result r))) (axon_result r) /\
    NoDup (x_data bars) /\
    y_data bars
    = option_list (apical_dendrite_result r)
      ++ default [] (basal_dendrites_result r)
      ++ option_list (axon_result r) /\
    palette bars
    = tag (apical_dendrite_result r) (apical_dendrite_color m)
      ++ take (length (default [] (basal_dendrites_result r)))
              (basal_dendrites_colors m)
      ++ tag (axon_result r) (axon_color m) /\
    length (x_data bars) = length (y_data bars) /\
    length (palette bars) = length (y_data bars).
Proof.
  intros Hn. eexists. split; [by apply result_bars_ok|]. simpl.
  split; [done|]. split; [apply labels_for_NoDup|].
  split; [done|]. split; [done|].
  rewrite length_labels_for, !length_app, length_take.
  unfold tag. destruct (apical_dendrite_result r), (axon_result r); simpl; lia.
Qed.

(** X18: the lists of [plot_per_arbor_result] fail to be built exactly
    when there are more basal results than basal colours, and the
    exception is then [IndexError]. *)
Theorem plot_per_arbor_result_bars_raises_iff r m :
  (plot_per_arbor_result_bars r m = Raise IndexError <->
   length (basal_dendrites_colors m)
   < length (default [] (basal_dendrites_result r))) /\
  ((exists bars, plot_per_arbor_result_bars r m = Done bars) <->
   length (default [] (basal_dendrites_result r))
   <= length (basal_dendrites_colors m)).
Proof.
  assert (Hraise : length (basal_dendrites_colors m)
                   < length (default [] (basal_dendrites_result r)) ->
                   plot_per_arbor_result_bars r m = Raise IndexError).
  { destruct r as [apical basal axon], m as [ca colors cx]. simpl.
    intros Hlt. unfold plot_per_arbor_result_bars, enumerate. simpl.
    destruct basal as [results|]; simpl in *; [|lia].
    rewrite result_loop_raises; [done|lia|simpl; lia]. }
  split; [split; [|done]|split].
  - intros Hr.
    destruct (decide (length (basal_dendrites_colors m)
                      < length (default [] (basal_dendrites_result r))))
      as [|Hge]; [done|].
    rewrite result_bars_ok in Hr by lia. done.
  - intros [bars Hd].
    destruct (decide (length (basal_dendrites_colors m)
                      < length (default [] (basal_dendrites_result r))))
      as [Hlt|Hge]; [|lia].
    rewrite (Hraise Hlt) in Hd. done.
  - intros Hn. eexists. by apply result_bars_ok.
Qed.

Local Abbreviation range_body results average maximum colors :=
  (fun (bars : RangeBars num color) (i : nat) =>
     lo ← item results i;
     avg ← item_of average i;
     hi ← item_of maximum i;
     c ← item colors i;
     Done (mkRangeBars (labels bars ++ [basal_label i])
                       (min_list bars ++ [lo])
                       (avg_list bars ++ [Some avg])
                       (max_list bars ++ [Some hi])
                       (range_palette bars ++ [c]))).

Lemma range_loop (results la lm : list num) (colors : list color) n :
  forall k bars,
    k + n <= length results -> k + n <= length la -> k + n <= length lm ->
    k + n <= length colors ->
    for_each (range_body results (Some la) (Some lm) colors) (seq k n) bars
    = Done (mkRangeBars
              (labels bars ++ map basal_label (seq k n))
              (min_list bars ++ take n (drop k results))
              (avg_list bars ++ map Some (take n (drop k la)))
              (max_list bars ++ map Some (take n (drop k lm)))
              (range_palette bars ++ take n (drop k colors))).
Proof.
  induction n as [|n IH]; intros k bars H1 H2 H3 H4; simpl.
  { rewrite !app_nil_r. by destruct bars. }
  destruct (item_lt results k) as (x & Hx & ->); [lia|].
  destruct (item_lt la k) as (a & Ha & ->); [lia|].
  destruct (item_lt lm k) as (h & Hh & ->); [lia|].
  destruct (item_lt colors k) as (c & Hc & ->); [lia|]. simpl.
  rewrite IH by lia. simpl. rewrite <- !app_assoc. simpl.
  by rewrite (drop_S results x k Hx), (drop_S la a k Ha),
             (drop_S lm h k Hh), (drop_S colors c k Hc).
Qed.

Lemma range_loop_inv (results : list num) avg hi (colors : list color) n :
  forall k bars bars',
    for_each (range_body results avg hi colors) (seq k n) bars = Done bars' ->
    forall i, k <= i < k + n ->
      (exists a, item_of avg i = Done a) /\
      (exists a, item_of hi i = Done a) /\
      (exists c, item colors i = Done c).
Proof.
  induction n as [|n IH]; intros k bars bars' Hrun i Hi; [lia|].
  simpl in Hrun.
  destruct (item results k) as [x| |]; simpl in Hrun; try done.
  destruct (item_of avg k) as [a| |] eqn:Ea; simpl in Hrun; try done.
  destruct (item_of hi k) as [h| |] eqn:Eh; simpl in Hrun; try done.
  destruct (item colors k) as [c| |] eqn:Ec; simpl in Hrun; try done.
  destruct (decide (i = k)) as [->|Hne]; [split; [eauto|split; eauto]|].
  eapply IH; [exact Hrun|lia].
Qed.

Lemma item_outcome {A} (l : list A) i :
  (exists a, item l i = Done a) \/ item l i = Raise IndexError.
Proof. unfold item. destruct (l !! i); eauto. Qed.

Lemma item_of_outcome {A} (l : option (list A)) i :
  (exists a, item_of l i = Done a) \/
  item_of l i = Raise TypeError \/ item_of l i = Raise IndexError.
Proof.
  destruct l as [l|]; simpl; [|auto].
  destruct (item_outcome l i) as [?| ->]; auto.
Qed.

Lemma range_loop_outcome (results : list num) avg hi (colors : list color) n :
  forall k bars,
    (exists bars',
       for_each (range_body results avg hi colors) (seq k n) bars
       = Done bars') \/
    for_each (range_body results avg hi colors) (seq k n) bars
    = Raise TypeError \/
    for_each (range_body results avg hi colors) (seq k n) bars
    = Raise IndexError.
Proof.
  induction n as [|n IH]; intros k bars; simpl; [left; by eexists|].
  destruct (item_outcome results k) as [[x ->]| ->]; simpl; [|auto].
  destruct (item_of_outcome avg k) as [[a ->]|[->| ->]]; simpl; [|auto..].
  destruct (item_of_outcome hi k) as [[h ->]|[->| ->]]; simpl; [|auto..].
  destruct (item_outcome colors k) as [[c ->]| ->]; simpl; [|auto].
  apply IH.
Qed.

Lemma covers_default {A} (l : option (list A)) n :
  covers l n -> n <= length (default [] l) \/ n = 0.
Proof. intros [->|(l' & -> & Hn)]; [by right|by left]. Qed.

Lemma range_bars_ok rmin ravg rmax m :
  covers (basal_dendrites_result ravg)
         (length (default [] (basal_dendrites_result rmin))) ->
  covers (basal_dendrites_result rmax)
         (length (default [] (basal_dendrites_result rmin))) ->
  length (default [] (basal_dendrites_result rmin))
  <= length (basal_dendrites_colors m) ->
  plot_per_arbor_range_bars rmin ravg rmax m
  = Done (mkRangeBars
            (labels_for (apical_dendrite_result rmin)
               (length (default [] (basal_dendrites_result rmin)))
               (axon_result rmin))
            (option_list (apical_dendrite_result rmin)
             ++ default [] (basal_dendrites_result rmin)
             ++ option_list (axon_result rmin))
            (tag (apical_dendrite_result rmin) (apical_dendrite_result ravg)
             ++ map Some
                    (take (length (default [] (basal_dendrites_result rmin)))
                          (default [] (basal_dendrites_result ravg)))
             ++ tag (axon_result rmin) (axon_result ravg))
            (tag (apical_dendrite_result rmin) (apical_dendrite_result rmax)
             ++ map Some
                    (take (length (default [] (basal_dendrites_result rmin)))
                          (default [] (basal_dendrites_result rmax)))
             ++ tag (axon_result rmin) (axon_result rmax))
            (tag (apical_dendrite_result rmin) (apical_dendrite_color m)
             ++ take (length (default [] (basal_dendrites_result rmin)))
                     (basal_dendrites_colors m)
             ++ tag (axon_result rmin) (axon_color m))).
Proof.
  destruct rmin as [apical basal axon], ravg as [aa ab ax],
    rmax as [ma mb mx], m as [ca colors cx]. simpl.
  intros Havg Hmax Hn.
  unfold plot_per_arbor_range_bars, labels_for. simpl.
  destruct basal as [results|]; simpl in *.
  - destruct results as [|x results].
    + simpl. destruct apical, axon; simpl; by rewrite ?app_nil_r.
    + destruct Havg as [?|(la & -> & Hla)]; [done|].
      destruct Hmax as [?|(lm & -> & Hlm)]; [done|].
      rewrite range_loop by (simpl in *; lia).
      simpl default. rewrite !drop_0, firstn_all.
      destruct apical, axon; simpl; by rewrite ?app_nil_r, <- ?app_assoc.
  - destruct apical, axon; simpl; by rewrite ?app_nil_r.
Qed.

(** X19: when the average and the maximum results and the colours of the
    morphology cover the basal dendrites of the minimum results,
    [plot_per_arbor_range] builds five lists of one length, with one
    entry per arbor that has a minimum result: which arbors are plotted
    is read off the minimum results alone, and the average and maximum
    of the apical dendrite and of the axon are taken as they are, also
    when they are [None]. *)
Theorem plot_per_arbor_range_bars_follow_the_minimum rmin ravg rmax m :
  covers (basal_dendrites_result ravg)
         (length (default [] (basal_dendrites_result rmin))) ->
  covers (basal_dendrites_result rmax)
         (length (default [] (basal_dendrites_result rmin))) ->
  length (default [] (basal_dendrites_result rmin))
  <= length (basal_dendrites_colors m) ->
  exists bars,
    plot_per_arbor_range_bars rmin ravg rmax m = Done bars /\
    labels bars
    = labels_for (apical_dendrite_result rmin)
        (length (default [] (basal_dendrites_result rmin)))
        (axon_result rmin) /\
    NoDup (labels bars) /\
    min_list bars
    = option_list (apical_dendrite_result rmin)
      ++ default [] (basal_dendrites_result rmin)
      ++ option_list (axon_result rmin) /\
    avg_list bars
    = tag (apical_dendrite_result rmin) (apical_dendrite_result ravg)
      ++ map Some (take (length (default [] (basal_dendrites_result rmin)))
                        (default [] (basal_dendrites_result ravg)))
      ++ tag (axon_result rmin) (axon_result ravg) /\
    max_list bars
    = tag (apical_dendrite_result rmin) (apical_dendrite_result rmax)
      ++ map Some (take (length (default [] (basal_dendrites_result rmin)))
                        (default [] (basal_dendrites_result rmax)))
      ++ tag (axon_result rmin) (axon_result rmax) /\
    length (labels bars) = length (min_list bars) /\
    length (avg_list bars) = length (min_list bars) /\
    length (max_list bars) = length (min_list bars) /\
    length (range_palette bars) = length (min_list bars).
Proof.
  intros Havg Hmax Hn. eexists. split; [by apply range_bars_ok|]. simpl.
  split; [done|]. split; [apply labels_for_NoDup|].
  split; [done|]. split; [done|]. split; [done|].
  apply covers_default in Havg, Hmax.
  rewrite length_labels_for, !length_app, !length_map, !length_take.
  unfold tag.
  destruct (apical_dendrite_result rmin), (axon_result rmin); simpl; lia.
Qed.

(** X20: [plot_per_arbor_range] builds its lists exactly when the
    average results, the maximum results and the colours cover the basal
    dendrites of the minimum results; an average or a maximum that has no
    basal results is accepted only when the minimum has none or an empty
    list. In all other cases it raises [TypeError] or [IndexError]. *)
Theorem plot_per_arbor_range_bars_returns_iff rmin ravg rmax m :
  ((exists bars, plot_per_arbor_range_bars rmin ravg rmax m = Done bars) <->
   covers (basal_dendrites_result ravg)
          (length (default [] (basal_dendrites_result rmin))) /\
   covers (basal_dendrites_result rmax)
          (length (default [] (basal_dendrites_result rmin))) /\
   length (default [] (basal_dendrites_result rmin))
   <= length (basal_dendrites_colors m)) /\
  ((exists bars, plot_per_arbor_range_bars rmin ravg rmax m = Done bars) \/
   plot_per_arbor_range_bars rmin ravg rmax m = Raise TypeError \/
   plot_per_arbor_range_bars rmin ravg rmax m = Raise IndexError).
Proof.
  split.
  - split; [|intros (Ha & Hm & Hn); eexists; by apply range_bars_ok].
    intros [bars Hrun].
    destruct rmin as [apical basal axon], ravg as [aa ab ax],
      rmax as [ma mb mx], m as [ca colors cx]. simpl.
    unfold plot_per_arbor_range_bars in Hrun. simpl in Hrun.
    destruct basal as [results|]; simpl;
      [|split; [by left|split; [by left|lia]]].
    destruct results as [|x results];
      [simpl; split; [by left|split; [by left|lia]]|].
    match type of Hrun with (?r ≫= _) = _ =>
      destruct r as [b1| |] eqn:Hloop end; simpl in Hrun; try done.
    destruct (range_loop_inv _ _ _ _ _ _ _ _ Hloop (length results))
      as ((a & Ha) & (h & Hh) & (c & Hc)); [simpl; lia|].
    apply item_of_Done in Ha as (la & -> & Hla).
    apply item_of_Done in Hh as (lm & -> & Hlm).
    apply item_Done in Hc. simpl.
    split; [right; exists la; split; [done|lia]|].
    split; [right; exists lm; split; [done|lia]|lia].
  - destruct rmin as [apical basal axon], ravg as [aa ab ax],
      rmax as [ma mb mx], m as [ca colors cx].
    unfold plot_per_arbor_range_bars. simpl.
    destruct basal as [results|]; simpl; [|left; by eexists].
    match goal with |- (exists _, (for_each _ _ ?b ≫= _) = _) \/ _ =>
      destruct (range_loop_outcome results ab mb colors (length results) 0 b)
        as [[b1 ->]|[->| ->]] end; simpl; auto.
    left. by eexists.
Qed.

End Facts.

(** Sample results: an apical dendrite, two basal dendrites and no axon. *)
Definition sample_minimum : AnalysisResult Z :=
  mkAnalysisResult (Some 5%Z) (Some [1%Z; 2%Z]) None.

Definition sample_average : AnalysisResult Z :=
  mkAnalysisResult None (Some [3%Z; 4%Z; 9%Z]) None.

Definition sample_maximum : AnalysisResult Z :=
  mkAnalysisResult (Some 9%Z) (Some [5%Z; 6%Z]) (Some 1%Z).

Definition sample_colors : Morphology string :=
  mkMorphology "red" ["green"; "blue"; "yellow"] "black".

Example sample_result_bars :
  plot_per_arbor_result_bars sample_minimum sample_colors
  = Done (mkResultBars
            ["Apical Dendrite"; "Basal Dendrite 0"; "Basal Dendrite 1"]
            [5%Z; 1%Z; 2%Z] ["red"; "green"; "blue"]).
Proof. vm_compute. reflexivity. Qed.

Example sample_range_bars :
  plot_per_arbor_range_bars sample_minimum sample_average sample_maximum
    sample_colors
  = Done (mkRangeBars
            ["Apical Dendrite"; "Basal Dendrite 0"; "Basal Dendrite 1"]
            [5%Z; 1%Z; 2%Z] [None; Some 3%Z; Some 4%Z]
            [Some 9%Z; Some 5%Z; Some 6%Z] ["red"; "green"; "blue"]).
Proof. vm_compute. reflexivity. Qed.

Example sample_range_without_average :
  plot_per_arbor_range_bars sample_minimum
    (mkAnalysisResult (Some 1%Z) None None) sample_maximum sample_colors
  = Raise TypeError.
Proof. vm_compute. reflexivity. Qed.

Lemma plot_per_arbor_result_bars_are_the_arbors_with_a_result_witness :
  length (default [] (basal_dendrites_result sample_minimum))
  <= length (basal_dendrites_colors sample_colors) /\
  exists bars,
    plot_per_arbor_result_bars sample_minimum sample_colors = Done bars /\
    x_data bars
    = labels_for (apical_dendrite_result sample_minimum)
        (length (default [] (basal_dendrites_result sample_minimum)))
        (axon_result sample_minimum) /\
    NoDup (x_data bars) /\
    y_data bars
    = option_list (apical_dendrite_result sample_minimum)
      ++ default [] (basal_dendrites_result sample_minimum)
      ++ option_list (axon_result sample_minimum) /\
    palette bars
    = tag (apical_dendrite_result sample_minimum)
          (apical_dendrite_color sample_colors)
      ++ take (length (default [] (basal_dendrites_result sample_minimum)))
              (basal_dendrites_colors sample_colors)
      ++ tag (axon_result sample_minimum) (axon_color sample_colors) /\
    length (x_data bars) = length (y_data bars) /\
    length (palette bars) = length (y_data bars).
Proof.
  assert (Hn : length (default [] (basal_dendrites_result sample_minimum))
               <= length (basal_dendrites_colors sample_colors))
    by (simpl; lia).
  split; [exact Hn|].
  exact (plot_per_arbor_result_bars_are_the_arbors_with_a_result
           sample_minimum sample_colors Hn).
Defined.

Lemma plot_per_arbor_range_bars_follow_the_minimum_witness :
  covers (basal_dendrites_result sample_average)
         (length (default [] (basal_dendrites_result sample_minimum))) /\
  covers (basal_dendrites_result sample_maximum)
         (length (default [] (basal_dendrites_result sample_minimum))) /\
  length (default [] (basal_dendrites_result sample_minimum))
  <= length (basal_dendrites_colors sample_colors) /\
  exists bars,
    plot_per_arbor_range_bars sample_minimum sample_average sample_maximum
      sample_colors = Done bars /\
    labels bars
    = labels_for (apical_dendrite_result sample_minimum)
        (length (default [] (basal_dendrites_result sample_minimum)))
        (axon_result sample_minimum) /\
    NoDup (labels bars) /\
    min_list bars
    = option_list (apical_dendrite_result sample_minimum)
      ++ default [] (basal_dendrites_result sample_minimum)
      ++ option_list (axon_result sample_minimum) /\
    avg_list bars
    = tag (apical_dendrite_result sample_minimum)
          (apical_dendrite_result sample_average)
      ++ map Some
             (take (length (default [] (basal_dendrites_result sample_minimum)))
                   (default [] (basal_dendrites_result sample_average)))
      ++ tag (axon_result sample_minimum) (axon_result sample_average) /\
    max_list bars
    = tag (apical_dendrite_result sample_minimum)
          (apical_dendrite_result sample_maximum)
      ++ map Some
             (take (length (default [] (basal_dendrites_result sample_minimum)))
                   (default [] (basal_dendrites_result sample_maximum)))
      ++ tag (axon_result sample_minimum) (axon_result sample_maximum) /\
    length (labels bars) = length (min_list bars) /\
    length (avg_list bars) = length (min_list bars) /\
    length (max_list bars) = length (min_list bars) /\
    length (range_palette bars) = length (min_list bars).
Proof.
  assert (Ha : covers (basal_dendrites_result sample_average)
                 (length (default [] (basal_dendrites_result sample_minimum)))).
  { right. eexists. split; [reflexivity|simpl; lia]. }
  assert (Hm : covers (basal_dendrites_result sample_maximum)
                 (length (default [] (basal_dendrites_result sample_minimum)))).
  { right. eexists. split; [reflexivity|simpl; lia]. }
  assert (Hn : length (default [] (basal_dendrites_result sample_minimum))
               <= length (basal_dendrites_colors sample_colors))
    by (simpl; lia).
  split; [exact Ha|]. split; [exact Hm|]. split; [exact Hn|].
  exact (plot_per_arbor_range_bars_follow_the_minimum
           sample_minimum sample_average sample_maximum sample_colors
           Ha Hm Hn).
Defined.

End PerArborBarsFacts.
